(** * A character-level recurrent network: shallow embedding of
      [createAndRunRNN_Model.py] and the properties stated about it.

    Numbers are idealised: a numpy float64 is a real number and arithmetic
    is exact, but for what [np.exp] does at the two ends of the range of a
    double: a value too large is inf, and a value too small is 0.0.  The ways
    a float computation leaves the reals are kept as failures of the
    operation that causes them: the overflow of [np.exp], a division by
    zero and a square root of a negative number (numpy yields inf or nan).
    Rounding inside the range is not modelled.  Python exceptions are values
    of an error monad. *)

From Stdlib Require Import Reals Lra Lia Ascii.
From stdpp Require Import base option list gmap strings.

(** ** Python results: a value or a raised exception *)

Module Py.

Inductive pyerr : Set :=
  | KeyError            (* dict lookup of an absent key *)
  | IndexError          (* list or array index out of range *)
  | TypeError           (* operator not defined for the operand types *)
  | ValueError          (* numpy: empty reduction, misaligned shapes *)
  | ZeroDivisionError   (* Python float division by zero *)
  | UnboundLocalError   (* a local variable read before its assignment *)
  | NonFinite.          (* the float result is inf or nan: not a real *)

Inductive res (A : Type) : Type :=
  | Ok (a : A)
  | Raise (e : pyerr).
Arguments Ok {A} a.
Arguments Raise {A} e.

#[export] Instance res_ret : MRet res := @Ok.
#[export] Instance res_bind : MBind res := λ A B f m,
  match m with
  | Ok a => f a
  | Raise e => Raise e
  end.
#[export] Instance res_fmap : FMap res := λ A B f m,
  match m with
  | Ok a => Ok (f a)
  | Raise e => Raise e
  end.

(** [d[k]] on a dict and [l[i]] on a list *)
Definition of_option {A} (e : pyerr) (o : option A) : res A :=
  match o with
  | Some a => Ok a
  | None => Raise e
  end.

(** [for i in l: s = body(s, i)], stopping at the first exception *)
Fixpoint for_loop {S I} (body : S → I → res S) (s : S) (l : list I) : res S :=
  match l with
  | [] => Ok s
  | i :: l => s' ← body s i; for_loop body s' l
  end.

(** [range(n)] and [a[lo:hi]] for indices that are not negative *)
Definition range (n : nat) : list nat := seq 0 n.
Definition slice {A} (lo hi : nat) (l : list A) : list A := take (hi - lo) (drop lo l).

(** [{k: v for (k, v) in kvs}]: a later pair replaces an earlier one *)
Definition dict_of `{Countable K} {V} (kvs : list (K * V)) : gmap K V :=
  foldl (λ d kv, <[kv.1 := kv.2]> d) ∅ kvs.
Definition enumerate {A} (l : list A) : list (nat * A) := imap (λ i x, (i, x)) l.

End Py.
Export Py.

(** ** numpy arrays of dimension two, as lists of rows *)

#[global] Instance R_eq_dec : EqDecision R := Req_dec_T.
#[global] Instance Rle_decision (x y : R) : Decision (x <= y)%R := Rle_dec x y.
#[global] Instance Rlt_decision (x y : R) : Decision (x < y)%R := Rlt_dec x y.

Module Np.
Local Open Scope R_scope.

(** A [(r, c)] array is a list of [r] rows of length [c]; a column vector
    [(n, 1)] is a list of [n] singleton rows. *)
Abbreviation tensor := (list (list R)).

Definition shape (r c : nat) (a : tensor) : Prop :=
  length a = r ∧ Forall (λ row, length row = c) a.

Definition same_shape (a b : tensor) : Prop :=
  Forall2 (λ ra rb : list R, length ra = length rb) a b.

#[global] Instance same_shape_dec (a b : tensor) : Decision (same_shape a b) :=
  @Forall2_dec _ _ (λ ra rb : list R, length ra = length rb)
    (λ ra rb, Nat.eq_dec (length ra) (length rb)) a b.

Definition entries (a : tensor) : list R := concat a.

Definition tmap (f : R → R) (a : tensor) : tensor := map (map f) a.

(** An elementwise operation that can leave the reals *)
Definition tmapM (f : R → res R) (a : tensor) : res tensor := mapM (mapM f) a.

Definition np_zeros (r c : nat) : tensor := replicate r (replicate c 0).
Definition np_zeros_like (a : tensor) : tensor := tmap (λ _, 0) a.
Definition np_copy (a : tensor) : tensor := a.

(** [a op b] for arrays of one shape.  For operands of different shapes numpy
    broadcasts or raises ValueError; the model keeps only the failure, and
    every statement below is about operands of equal shapes. *)
Definition tzip (f : R → R → R) (a b : tensor) : tensor :=
  zip_with (zip_with f) a b.
Definition ew (f : R → R → R) (a b : tensor) : res tensor :=
  if decide (same_shape a b) then Ok (tzip f a b) else Raise ValueError.

Definition np_add : tensor → tensor → res tensor := ew Rplus.
Definition np_mul : tensor → tensor → res tensor := ew Rmult.

(** [a.T] *)
Definition ncols (a : tensor) : nat := length (hd [] a).
Definition col (j : nat) (a : tensor) : list R := map (λ row, nth j row 0) a.
Definition np_T (a : tensor) : tensor := map (λ j, col j a) (seq 0 (ncols a)).

Definition Rsum (l : list R) : R := foldr Rplus 0 l.
Definition vdot (u v : list R) : R := Rsum (zip_with Rmult u v).
Definition matmul (a b : tensor) : tensor :=
  map (λ row, map (vdot row) (np_T b)) a.

(** [np.dot(a, b)]: the columns of [a] must be the rows of [b] *)
Definition np_dot (a b : tensor) : res tensor :=
  if decide (Forall (λ row, length row = length b) a
             ∧ Forall (λ row, length row = ncols b) b)
  then Ok (matmul a b) else Raise ValueError.

(** [a[i] = v] and [a[i] -= v] on a row index *)
Definition set_row (i : nat) (v : R) (a : tensor) : res tensor :=
  row ← of_option IndexError (a !! i);
  Ok (<[i := map (λ _, v) row]> a).
Definition sub_row (i : nat) (v : R) (a : tensor) : res tensor :=
  row ← of_option IndexError (a !! i);
  Ok (<[i := map (λ x, x - v) row]> a).

(** [np.max(a)] and [np.sum(a)] over all entries; the maximum of an empty
    array raises ValueError *)
Definition np_max (a : tensor) : res R :=
  match entries a with
  | [] => Raise ValueError
  | v :: l => Ok (foldr Rmax v l)
  end.
Definition np_sum (a : tensor) : R := Rsum (entries a).

(** The largest finite double.  [np.exp] overflows to inf above it. *)
Definition float_max : R := (2 - / 2 ^ 52) * 2 ^ 1023.
(** Half the smallest positive double.  [np.exp] underflows to 0.0 at and
    below it (from about -745.13 down). *)
Definition float_tiny : R := / 2 ^ 1075.
(** [np.exp(v)] where it does not overflow *)
Definition exp_flush (v : R) : R :=
  if decide (exp v <= float_tiny) then 0 else exp v.
Definition exp_f (v : R) : res R :=
  if decide (exp v <= float_max) then Ok (exp_flush v) else Raise NonFinite.
Definition np_exp : tensor → res tensor := tmapM exp_f.

(** [v / s] on floats: inf or nan when [s] is 0 *)
Definition div_f (s v : R) : res R :=
  if decide (s = 0) then Raise NonFinite else Ok (v / s).
(** [a / s] for a scalar [s] *)
Definition np_div_scalar (a : tensor) (s : R) : res tensor := tmapM (div_f s) a.

(** [np.sqrt(v)]: nan when [v] is negative *)
Definition sqrt_f (v : R) : res R :=
  if decide (0 <= v) then Ok (sqrt v) else Raise NonFinite.
Definition np_sqrt : tensor → res tensor := tmapM sqrt_f.

Definition np_tanh : tensor → tensor := tmap tanh.
(** [np.clip(a, lo, hi)] is [minimum(maximum(a, lo), hi)] *)
Definition clip_f (lo hi v : R) : R := Rmin (Rmax v lo) hi.
Definition np_clip (a : tensor) (lo hi : R) : tensor := tmap (clip_f lo hi) a.

(** Elementwise operation of two arrays that can leave the reals *)
Definition ewM (f : R → R → res R) (a b : tensor) : res tensor :=
  if decide (same_shape a b)
  then mapM (λ rr : list R * list R, mapM (λ xy : R * R, f xy.1 xy.2) (zip rr.1 rr.2)) (zip a b)
  else Raise ValueError.
Definition np_div : tensor → tensor → res tensor := ewM (λ x y, div_f y x).

(** [a.ravel()] *)
Definition ravel (a : tensor) : list R := concat a.

End Np.
Export Np.

(** ** The windowed reader *)

Module DataReader.

Record t : Type := mk {
  data : list ascii;
  char_to_ix : gmap ascii nat;
  ix_to_char : gmap nat ascii;
  data_size : nat;
  vocab_size : nat;
  pointer : nat;
  seq_length : nat
}.

(** [__init__]: [data] is the text of the file, all rows joined, and [chars]
    is [list(set(data))], the distinct characters of [data] in the order the
    Python runtime enumerates the set. *)
Definition init (data chars : list ascii) (seq_length : nat) : t :=
  {| data := data;
     char_to_ix := dict_of (prod_swap <$> enumerate chars);
     ix_to_char := dict_of (enumerate chars);
     data_size := length data;
     vocab_size := length chars;
     pointer := 0;
     seq_length := seq_length |}.

(** What the runtime guarantees of [list(set(data))] *)
Definition set_order (data chars : list ascii) : Prop :=
  NoDup chars ∧ ∀ ch, ch ∈ chars ↔ ch ∈ data.

Definition set_pointer (p : nat) (r : t) : t :=
  {| data := data r; char_to_ix := char_to_ix r; ix_to_char := ix_to_char r;
     data_size := data_size r; vocab_size := vocab_size r;
     pointer := p; seq_length := seq_length r |}.

(** [[self.char_to_ix[ch] for ch in s]] *)
Definition encode (r : t) (s : list ascii) : res (list nat) :=
  mapM (λ ch, of_option KeyError (char_to_ix r !! ch)) s.

(** [next_batch]: the two windows and the reader with its cursor moved *)
Definition next_batch (r : t) : res ((list nat * list nat) * t) :=
  let input_start := pointer r in
  let input_end := pointer r + seq_length r in
  inputs ← encode r (slice input_start input_end (data r));
  targets ← encode r (slice (input_start + 1) (input_end + 1) (data r));
  let r := set_pointer (pointer r + seq_length r) r in
  let r := if decide (data_size r ≤ pointer r + seq_length r + 1)
           then set_pointer 0 r else r in
  Ok ((inputs, targets), r).

Definition just_started (r : t) : bool := bool_decide (pointer r = 0).

End DataReader.

(** ** The model core *)

Module RNN.
Local Open Scope R_scope.

Record t : Type := mk {
  hidden_size : nat;
  vocab_size : nat;
  seq_length : nat;
  learning_rate : R;
  U : tensor; V : tensor; W : tensor; b : tensor; c : tensor;
  mU : tensor; mW : tensor; mV : tensor; mb : tensor; mc : tensor
}.

(** The five gradient arrays that [backward] returns and [update_model] takes *)
Record grads : Type := mk_grads {
  dU : tensor; dW : tensor; dV : tensor; db : tensor; dc : tensor
}.

(** [softmax]: [p = np.exp(x - np.max(x))], then [p / np.sum(p)] *)
Definition softmax (x : tensor) : res tensor :=
  mx ← np_max x;
  p ← np_exp (tmap (λ v, v - mx) x);
  np_div_scalar p (np_sum p).

(** [np.tanh(np.dot(self.U, x) + np.dot(self.W, h) + self.b)] *)
Definition hidden (m : t) (x h : tensor) : res tensor :=
  ux ← np_dot (U m) x;
  wh ← np_dot (W m) h;
  s ← np_add ux wh;
  s ← np_add s (b m);
  Ok (np_tanh s).

(** [np.dot(self.V, h) + self.c] *)
Definition logits (m : t) (h : tensor) : res tensor :=
  vh ← np_dot (V m) h;
  np_add vh (c m).

(** The three dicts of [forward], keyed by the time step *)
Record cache : Type := mk_cache {
  xs : gmap Z tensor; hs : gmap Z tensor; ycap : gmap Z tensor
}.

(** The body of the loop of [forward] at step [t] *)
Definition forward_step (m : t) (inputs : list nat) (k : cache) (t : nat)
  : res cache :=
  ix ← of_option IndexError (inputs !! t);
  x ← set_row ix 1 (np_zeros (vocab_size m) 1);
  hp ← of_option KeyError (hs k !! (Z.of_nat t - 1)%Z);
  h ← hidden m x hp;
  o ← logits m h;
  y ← softmax o;
  Ok {| xs := <[Z.of_nat t := x]> (xs k);
        hs := <[Z.of_nat t := h]> (hs k);
        ycap := <[Z.of_nat t := y]> (ycap k) |}.

Definition forward (m : t) (inputs : list nat) (hprev : tensor) : res cache :=
  for_loop (forward_step m inputs)
    {| xs := ∅; hs := {[ (-1)%Z := np_copy hprev ]}; ycap := ∅ |}
    (range (length inputs)).

(** The body of the loop of [backward] at step [t]; the loop state is the
    five accumulated gradients and [dhnext] *)
Definition backward_step (m : t) (k : cache) (targets : list nat)
    (st : grads * tensor) (t : nat) : res (grads * tensor) :=
  let '(g, dhnext) := st in
  p ← of_option KeyError (ycap k !! Z.of_nat t);
  let dy := np_copy p in
  tgt ← of_option IndexError (targets !! t);
  dy ← sub_row tgt 1 dy;
  h ← of_option KeyError (hs k !! Z.of_nat t);
  o ← np_dot dy (np_T h);
  dV' ← np_add (dV g) o;
  dc' ← np_add (dc g) dy;
  vdy ← np_dot (np_T (V m)) dy;
  dh ← np_add vdy dhnext;
  hh ← np_mul h h;
  dhrec ← np_mul (tmap (λ v, 1 - v) hh) dh;
  db' ← np_add (db g) dhrec;
  x ← of_option KeyError (xs k !! Z.of_nat t);
  o ← np_dot dhrec (np_T x);
  dU' ← np_add (dU g) o;
  hp ← of_option KeyError (hs k !! (Z.of_nat t - 1)%Z);
  o ← np_dot dhrec (np_T hp);
  dW' ← np_add (dW g) o;
  dhnext ← np_dot (np_T (W m)) dhrec;
  Ok ({| dU := dU'; dW := dW'; dV := dV'; db := db'; dc := dc' |}, dhnext).

Definition clip_grads (g : grads) : grads :=
  {| dU := np_clip (dU g) (-5) 5; dW := np_clip (dW g) (-5) 5;
     dV := np_clip (dV g) (-5) 5; db := np_clip (db g) (-5) 5;
     dc := np_clip (dc g) (-5) 5 |}.

(** [backward], on the dicts [xs], [hs], [ps] of a cache: steps
    [reversed(range(self.seq_length))], then the clipping in place *)
Definition backward (m : t) (k : cache) (targets : list nat) : res grads :=
  let g := {| dU := np_zeros_like (U m); dW := np_zeros_like (W m);
              dV := np_zeros_like (V m); db := np_zeros_like (b m);
              dc := np_zeros_like (c m) |} in
  h0 ← of_option KeyError (hs k !! 0%Z);
  let dhnext := np_zeros_like h0 in
  '(g, _) ← for_loop (backward_step m k targets) (g, dhnext)
              (reverse (range (seq_length m)));
  Ok (clip_grads g).

(** The operands of [ps - targets] in [loss] as [train] passes them: the dict
    of probabilities and the list of target indices.  Neither [dict] nor
    [list] defines subtraction, whatever the other operand is. *)
Inductive pyobj : Type :=
  | PyDict (d : gmap Z tensor)
  | PyList (l : list nat).

Definition py_sub (x y : pyobj) : res tensor :=
  match x, y with
  | PyDict _, _ | PyList _, _ => Raise TypeError
  end.

(** [loss]: [np.mean(np.square(ps - targets))] *)
Definition np_square (a : tensor) : tensor := tmap (λ v, v * v) a.
Definition np_mean (a : tensor) : res R :=
  div_f (INR (length (entries a))) (np_sum a).

Definition loss (ps : gmap Z tensor) (targets : list nat) : res R :=
  d ← py_sub (PyDict ps) (PyList targets);
  np_mean (np_square d).

(** One turn of the loop of [update_model]:
    [mem += dparam * dparam] and then
    [param += -self.learning_rate * dparam / np.sqrt(mem + 1e-8)] *)
Definition adagrad (lr : R) (param dparam mem : tensor) : res (tensor * tensor) :=
  sq ← np_mul dparam dparam;
  mem ← np_add mem sq;
  root ← np_sqrt (tmap (λ v, v + 1e-8) mem);
  step ← np_div (tmap (λ v, - lr * v) dparam) root;
  param ← np_add param step;
  Ok (param, mem).

(** [update_model]: the turns for [U], [W], [V], [b], [c], in this order *)
Definition update_model (m : t) (g : grads) : res t :=
  let lr := learning_rate m in
  '(U', mU') ← adagrad lr (U m) (dU g) (mU m);
  '(W', mW') ← adagrad lr (W m) (dW g) (mW m);
  '(V', mV') ← adagrad lr (V m) (dV g) (mV m);
  '(b', mb') ← adagrad lr (b m) (db g) (mb m);
  '(c', mc') ← adagrad lr (c m) (dc g) (mc m);
  Ok {| hidden_size := hidden_size m; vocab_size := vocab_size m;
        seq_length := seq_length m; learning_rate := lr;
        U := U'; V := V'; W := W'; b := b'; c := c';
        mU := mU'; mW := mW'; mV := mV'; mb := mb'; mc := mc' |}.

Section Random.
(** numpy's generator: [G] is its state, [draw p g] the index that
    [np.random.choice(range(n), p=p)] returns for a distribution [p], and
    [uniform lo hi r c g] the array of [np.random.uniform(lo, hi, (r, c))]. *)
Context {G : Type}.
Variable draw : list R → G → nat * G.
Variable uniform : R → R → nat → nat → G → tensor * G.

(** [np.random.choice] raises ValueError unless [p] is a distribution over
    the [n] indices. *)
Definition np_random_choice (n : nat) (p : list R) (g : G) : res (nat * G) :=
  if decide (length p = n ∧ Forall (λ v, 0 <= v) p ∧ Rsum p = 1)
  then Ok (draw p g) else Raise ValueError.

(** The body shared, line for line, by the loops of [sample] and [predict] *)
Definition sample_step (m : t) (st : tensor * tensor * list nat * G) (_ : nat)
  : res (tensor * tensor * list nat * G) :=
  let '(x, h, ixes, g) := st in
  h ← hidden m x h;
  y ← logits m h;
  e ← np_exp y;
  p ← np_div_scalar e (np_sum e);
  '(ix, g) ← np_random_choice (vocab_size m) (ravel p) g;
  x ← set_row ix 1 (np_zeros (vocab_size m) 1);
  Ok (x, h, ixes ++ [ix], g).

(** [sample]: the one-hot vector of [seed_ix], then [n] turns of the loop *)
Definition sample (m : t) (h : tensor) (seed_ix n : nat) (g : G)
  : res (list nat * G) :=
  x ← set_row seed_ix 1 (np_zeros (vocab_size m) 1);
  '(_, _, ixes, g) ← for_loop (sample_step m) (x, h, [], g) (range n);
  Ok (ixes, g).

(** [predict], up to the line [h = np.zeros((self.hidden_size, 1))]: the
    input vector, the indices of the seed and the hidden state *)
Definition predict_seed (m : t) (r : DataReader.t) (start : list ascii)
  : res (tensor * tensor * list nat) :=
  let x := np_zeros (vocab_size m) 1 in
  let chars := start in
  '(x, ixes) ← for_loop (λ '(x, ixes) i,
      ch ← of_option IndexError (chars !! i);
      ix ← of_option KeyError (DataReader.char_to_ix r !! ch);
      x ← set_row ix 1 x;
      Ok (x, ixes ++ [ix])) (x, []) (range (length chars));
  let h := np_zeros (hidden_size m) 1 in
  Ok (x, h, ixes).

(** The body of the loop [for t in range(n)] of [predict] *)
Definition predict_step (m : t) (st : tensor * tensor * list nat * G) (_ : nat)
  : res (tensor * tensor * list nat * G) :=
  let '(x, h, ixes, g) := st in
  h ← hidden m x h;
  y ← logits m h;
  e ← np_exp y;
  p ← np_div_scalar e (np_sum e);
  '(ix, g) ← np_random_choice (vocab_size m) (ravel p) g;
  x ← set_row ix 1 (np_zeros (vocab_size m) 1);
  Ok (x, h, ixes ++ [ix], g).

(** [predict]: the seed, [n] turns of the loop, and the indices decoded *)
Definition predict (m : t) (r : DataReader.t) (start : list ascii) (n : nat)
    (g : G) : res (list ascii * G) :=
  '(x, h, ixes) ← predict_seed m r start;
  '(_, _, ixes, g) ← for_loop (predict_step m) (x, h, ixes, g) (range n);
  txt ← mapM (λ i, of_option KeyError (DataReader.ix_to_char r !! i)) ixes;
  Ok (txt, g).

(** The local state of [train] at the head of a turn of its loop, and what
    it has printed: the sample text, [iter_num] and [smooth_loss] of each
    report.  [hprev] is unbound until the first assignment. *)
Record train_state : Type := mk_train {
  t_model : t;
  t_reader : DataReader.t;
  t_hprev : option tensor;
  t_smooth_loss : R;
  t_iter_num : nat;
  t_rng : G;
  t_printed : list (list ascii * nat * R)
}.

(** The body of the loop of [train] *)
Definition train_step (st : train_state) : res train_state :=
  let m := t_model st in
  let hprev := if DataReader.just_started (t_reader st)
               then Some (np_zeros (hidden_size m) 1) else t_hprev st in
  '((inputs, targets), reader) ← DataReader.next_batch (t_reader st);
  hprev ← of_option UnboundLocalError hprev;
  k ← forward m inputs hprev;
  g ← backward m k targets;
  loss ← loss (ycap k) targets;
  m ← update_model m g;
  let smooth_loss := t_smooth_loss st * 0.999 + loss * 0.001 in
  hprev ← of_option KeyError (hs k !! (Z.of_nat (seq_length m) - 1)%Z);
  '(printed, rng) ←
    (if decide (t_iter_num st mod 500 = 0)%nat then
       seed_ix ← of_option IndexError (inputs !! 0%nat);
       '(sample_ix, rng) ← sample m hprev seed_ix 100 (t_rng st);
       txt ← mapM (λ ix, of_option KeyError
                           (DataReader.ix_to_char reader !! ix)) sample_ix;
       Ok (t_printed st ++ [(txt, t_iter_num st, smooth_loss)], rng)
     else Ok (t_printed st, t_rng st));
  Ok {| t_model := m; t_reader := reader; t_hprev := Some hprev;
        t_smooth_loss := smooth_loss; t_iter_num := t_iter_num st + 1;
        t_rng := rng; t_printed := printed |}.

(** [x / y] on Python floats *)
Definition py_fdiv (x y : R) : res R :=
  if decide (y = 0) then Raise ZeroDivisionError else Ok (x / y).

(** [__init__]: three draws for [U], [V], [W], zero biases, zero
    accumulators *)
Definition init (hidden_size vocab_size seq_length : nat) (learning_rate : R)
    (g : G) : res (t * G) :=
  q ← py_fdiv 1 (INR vocab_size); lo ← sqrt_f q;
  q ← py_fdiv 1 (INR vocab_size); hi ← sqrt_f q;
  let '(U, g) := uniform (- lo) hi hidden_size vocab_size g in
  q ← py_fdiv 1 (INR hidden_size); lo ← sqrt_f q;
  q ← py_fdiv 1 (INR hidden_size); hi ← sqrt_f q;
  let '(V, g) := uniform (- lo) hi vocab_size hidden_size g in
  q ← py_fdiv 1 (INR hidden_size); lo ← sqrt_f q;
  q ← py_fdiv 1 (INR hidden_size); hi ← sqrt_f q;
  let '(W, g) := uniform (- lo) hi hidden_size hidden_size g in
  let b := np_zeros hidden_size 1 in
  let c := np_zeros vocab_size 1 in
  Ok ({| hidden_size := hidden_size; vocab_size := vocab_size;
         seq_length := seq_length; learning_rate := learning_rate;
         U := U; V := V; W := W; b := b; c := c;
         mU := np_zeros_like U; mW := np_zeros_like W;
         mV := np_zeros_like V; mb := np_zeros_like b;
         mc := np_zeros_like c |}, g).

End Random.

End RNN.

(** * Facts *)

(** ** The error monad and loops *)

Section py_facts.
Context {A B : Type}.

Lemma bind_Ok (f : A → res B) (a : A) : Ok a ≫= f = f a.
Proof. reflexivity. Qed.

Lemma bind_Ok_inv (f : A → res B) (m : res A) (b : B) :
  m ≫= f = Ok b → ∃ a, m = Ok a ∧ f a = Ok b.
Proof. destruct m as [a|e]; [eauto | discriminate]. Qed.

Lemma of_option_Some (e : pyerr) (o : option A) (a : A) :
  o = Some a → of_option e o = Ok a.
Proof. by intros ->. Qed.

Lemma mapM_Ok (f : A → res B) (g : A → B) (l : list A) :
  Forall (λ x, f x = Ok (g x)) l → mapM f l = Ok (g <$> l).
Proof.
  induction 1 as [|x l Hx _ IH]; [done|].
  cbn. rewrite Hx. cbn. by rewrite IH.
Qed.

Lemma for_loop_app {S I} (body : S → I → res S) (s : S) (l1 l2 : list I) :
  for_loop body s (l1 ++ l2) = s' ← for_loop body s l1; for_loop body s' l2.
Proof.
  revert s. induction l1 as [|i l1 IH]; intros s; [done|].
  cbn. destruct (body s i); [apply IH | done].
Qed.

End py_facts.

Section mapM_facts.
Context {A B : Type}.



End mapM_facts.

(** ** Arrays *)

Section np_facts.
Local Open Scope R_scope.
Implicit Types (a b : tensor) (l : list R).

Lemma entries_tmap f a : entries (tmap f a) = f <$> entries a.
Proof. unfold entries, tmap. symmetry. apply concat_map. Qed.

Lemma tmap_tmap f g a : tmap f (tmap g a) = tmap (f ∘ g) a.
Proof.
  unfold tmap. induction a as [|row a IH]; cbn; [done|].
  rewrite IH. f_equal. induction row as [|v row IHr]; cbn; [done|].
  by rewrite IHr.
Qed.

Lemma tmap_ext_entries f g a :
  Forall (λ v, f v = g v) (entries a) → tmap f a = tmap g a.
Proof.
  unfold entries, tmap. induction a as [|row a IH]; cbn; [done|].
  rewrite Forall_app. intros [Hrow Ha]. f_equal; [|by apply IH].
  clear -Hrow. induction Hrow; cbn; congruence.
Qed.

Lemma tmapM_Ok (f : R → res R) (g : R → R) a :
  Forall (λ v, f v = Ok (g v)) (entries a) → tmapM f a = Ok (tmap g a).
Proof.
  intros H. unfold tmapM, tmap. apply (mapM_Ok _ (map g)).
  unfold entries in H. induction a as [|row a IH]; cbn in *; [done|].
  apply Forall_app in H as [Hrow Ha]. constructor; [|by apply IH].
  by apply mapM_Ok.
Qed.

Lemma Rsum_scale (s : R) l : Rsum ((λ v, v / s) <$> l) = Rsum l / s.
Proof. unfold Rsum. induction l as [|v l IH]; cbn; [lra|]. rewrite IH. lra. Qed.

Lemma Rsum_pos l : l ≠ [] → Forall (λ v, 0 < v) l → 0 < Rsum l.
Proof.
  intros Hne Hpos. destruct Hpos as [|v l Hv Hl]; [done|]. unfold Rsum. cbn.
  assert (0 <= foldr Rplus 0 l); [|lra].
  clear -Hl. induction Hl as [|w l Hw _ IH]; cbn; lra.
Qed.

Lemma foldr_Rmax_ub (v : R) l : Forall (λ w, w <= foldr Rmax v l) (v :: l).
Proof.
  induction l as [|w l IH]; cbn.
  - apply Forall_cons; split; [lra|done].
  - apply Forall_cons in IH as [Hv Hl].
    pose proof (Rmax_l w (foldr Rmax v l)).
    pose proof (Rmax_r w (foldr Rmax v l)).
    apply Forall_cons; split; [lra|]. apply Forall_cons; split; [lra|].
    eapply Forall_impl; [exact Hl|]. cbn. intros; lra.
Qed.

Lemma foldr_Rmax_shift (k v : R) l :
  foldr Rmax (v + k) ((λ w, w + k) <$> l) = foldr Rmax v l + k.
Proof.
  induction l as [|w l IH]; cbn; [done|]. rewrite IH.
  unfold Rmax. repeat destruct (Rle_dec _ _); lra.
Qed.

Lemma float_max_ge_1 : 1 <= float_max.
Proof.
  unfold float_max.
  pose proof (pow_R1_Rle 2 1023 ltac:(lra)) as H1.
  pose proof (pow_R1_Rle 2 52 ltac:(lra)) as H2.
  assert (/ 2 ^ 52 <= 1).
  { rewrite <- Rinv_1. apply Rinv_le_contravar; lra. }
  nra.
Qed.

Lemma float_max_ge_8 : 8 <= float_max.
Proof.
  unfold float_max. change (2 ^ 1023) with (2 * (2 * (2 * 2 ^ 1020))).
  pose proof (pow_R1_Rle 2 1020 ltac:(lra)) as H1.
  pose proof (pow_R1_Rle 2 52 ltac:(lra)) as H2.
  assert (/ 2 ^ 52 <= 1).
  { rewrite <- Rinv_1. apply Rinv_le_contravar; lra. }
  nra.
Qed.

Lemma float_tiny_bounds : 0 < float_tiny <= / 4.
Proof.
  unfold float_tiny. change (2 ^ 1075) with (2 * (2 * 2 ^ 1073)).
  pose proof (pow_R1_Rle 2 1073 ltac:(lra)) as H1.
  split; [apply Rinv_0_lt_compat; lra|].
  apply Rinv_le_contravar; lra.
Qed.

Lemma exp_le (u v : R) : u <= v → exp u <= exp v.
Proof.
  intros [Hlt| ->]; [|lra]. apply Rlt_le. by apply exp_increasing.
Qed.

Lemma exp_flush_nonneg (v : R) : 0 <= exp_flush v.
Proof. unfold exp_flush. pose proof (exp_pos v). case_decide; lra. Qed.

Lemma exp_flush_0 : exp_flush 0 = 1.
Proof.
  unfold exp_flush. rewrite exp_0. pose proof float_tiny_bounds.
  case_decide; lra.
Qed.

Lemma exp_flush_mono (u v : R) : u <= v → exp_flush u <= exp_flush v.
Proof.
  intros Huv. pose proof (exp_le u v Huv). pose proof (exp_pos u).
  unfold exp_flush. repeat case_decide; lra.
Qed.

(** Inside [[-1, 1]] the exponential neither overflows nor underflows *)
Lemma exp_flush_unit (v : R) :
  -1 <= v <= 1 → exp_flush v = exp v ∧ / 3 <= exp v <= 3.
Proof.
  intros [Hlo Hhi]. pose proof exp_le_3 as H1.
  assert (exp v <= exp 1) as Hv1 by by apply exp_le.
  assert (exp (-1) <= exp v) as Hv2 by by apply exp_le.
  assert (/ 3 <= exp (-1)) as H3.
  { replace (-1) with (Ropp 1) by lra. rewrite exp_Ropp.
    apply Rinv_le_contravar; [apply exp_pos|done]. }
  pose proof float_tiny_bounds. unfold exp_flush. case_decide; lra.
Qed.

Lemma exp_f_nonpos (v : R) : v <= 0 → exp_f v = Ok (exp_flush v).
Proof.
  intros Hv. unfold exp_f. case_decide as H; [done|]. destruct H.
  pose proof float_max_ge_1. pose proof (exp_le v 0 Hv) as Hle.
  rewrite exp_0 in Hle. lra.
Qed.

Lemma foldr_Rmax_in (v : R) l : foldr Rmax v l ∈ v :: l.
Proof.
  induction l as [|w l IH]; cbn; [apply elem_of_cons; by left|].
  unfold Rmax at 1. destruct (Rle_dec _ _).
  - apply elem_of_cons in IH as [->|IH].
    + apply elem_of_cons. by left.
    + do 2 (apply elem_of_cons; right). done.
  - apply elem_of_cons. right. apply elem_of_cons. by left.
Qed.

Lemma Rsum_nonneg l : Forall (λ v, 0 <= v) l → 0 <= Rsum l.
Proof. unfold Rsum. induction 1 as [|w l Hw _ IH]; cbn; lra. Qed.

Lemma Rsum_ge_elem (v : R) l : Forall (λ v, 0 <= v) l → v ∈ l → v <= Rsum l.
Proof.
  intros Hl Hv. induction Hl as [|w l Hw Hl IH]; [by apply elem_of_nil in Hv|].
  pose proof (Rsum_nonneg l Hl). unfold Rsum in *. cbn.
  apply elem_of_cons in Hv as [->|Hv]; [lra|]. specialize (IH Hv). lra.
Qed.

End np_facts.

(** ** Shapes: on arrays of matching shapes the numpy operations return *)

Section shape_facts.
Local Open Scope R_scope.
Implicit Types (a b : tensor) (r c k i : nat).

Lemma shape_same r c a b : shape r c a → shape r c b → same_shape a b.
Proof.
  intros [Hla Ha] [Hlb Hb]. unfold same_shape.
  apply Forall2_same_length_lookup_2; [congruence|].
  intros i x y Hx Hy.
  rewrite Forall_lookup in Ha. rewrite Forall_lookup in Hb.
  rewrite (Ha _ _ Hx), (Hb _ _ Hy). done.
Qed.

Lemma ew_Ok r c f a b : shape r c a → shape r c b → ew f a b = Ok (tzip f a b).
Proof.
  intros Ha Hb. unfold ew. case_decide as H; [done|].
  destruct H. by eapply shape_same.
Qed.

Lemma np_add_Ok r c a b :
  shape r c a → shape r c b → np_add a b = Ok (tzip Rplus a b).
Proof. apply ew_Ok. Qed.

Lemma np_mul_Ok r c a b :
  shape r c a → shape r c b → np_mul a b = Ok (tzip Rmult a b).
Proof. apply ew_Ok. Qed.

Lemma shape_tzip r c f a b :
  shape r c a → shape r c b → shape r c (tzip f a b).
Proof.
  intros [Hla Ha] [Hlb Hb]. unfold tzip. split.
  - rewrite length_zip_with. lia.
  - apply Forall_lookup. intros i row Hrow.
    apply lookup_zip_with_Some in Hrow as (x & y & -> & Hx & Hy).
    rewrite Forall_lookup in Ha. rewrite Forall_lookup in Hb.
    rewrite length_zip_with, (Ha _ _ Hx), (Hb _ _ Hy). lia.
Qed.

Lemma shape_tmap r c f a : shape r c a → shape r c (tmap f a).
Proof.
  intros [Hla Ha]. unfold tmap. split; [by rewrite length_map|].
  apply Forall_fmap. eapply Forall_impl; [exact Ha|].
  cbn. intros row <-. apply length_map.
Qed.

Lemma shape_zeros r c : shape r c (np_zeros r c).
Proof.
  unfold np_zeros. split; [apply length_replicate|].
  apply Forall_replicate, length_replicate.
Qed.

Lemma zeros_like_shape r c a : shape r c a → np_zeros_like a = np_zeros r c.
Proof.
  intros [<- Ha]. unfold np_zeros_like, np_zeros, tmap.
  induction Ha as [|row a Hrow _ IH]; cbn; [done|]. f_equal; [|done].
  subst c. clear. induction row; cbn; congruence.
Qed.

Lemma shape_insert r c i row a :
  shape r c a → length row = c → shape r c (<[i := row]> a).
Proof.
  intros [Hla Ha] Hrow. split; [by rewrite length_insert|].
  by apply Forall_insert.
Qed.

Lemma shape_alter r c i (f : list R → list R) a :
  shape r c a → (∀ row, length (f row) = length row) → shape r c (alter f i a).
Proof.
  intros [Hla Ha] Hf. split; [by rewrite length_alter|].
  apply Forall_alter; [done|]. intros row _ <-. apply Hf.
Qed.

Lemma set_row_Ok r c i v a :
  shape r c a → (i < r)%nat → set_row i v a = Ok (<[i := replicate c v]> a).
Proof.
  intros [Hla Ha] Hi. unfold set_row.
  destruct (lookup_lt_is_Some_2 a i) as [row Hrow]; [lia|].
  rewrite Hrow. cbn. do 2 f_equal.
  rewrite Forall_lookup in Ha. rewrite <- (Ha _ _ Hrow).
  clear. induction row; cbn; congruence.
Qed.

Lemma sub_row_Ok r c i v a :
  shape r c a → (i < r)%nat →
  sub_row i v a = Ok (alter (map (λ x, x - v)) i a).
Proof.
  intros [Hla Ha] Hi. unfold sub_row.
  destruct (lookup_lt_is_Some_2 a i) as [row Hrow]; [lia|].
  rewrite Hrow. cbn. f_equal. clear -Hrow. revert i Hrow.
  induction a as [|x a IH]; intros [|i]; cbn; try done.
  - by intros [= ->].
  - intros Hrow. f_equal. by apply IH.
Qed.

Lemma ncols_shape r c a : (0 < r)%nat → shape r c a → ncols a = c.
Proof.
  intros Hr [Hla Ha]. unfold ncols. destruct Ha; cbn in *; [lia|done].
Qed.

Lemma shape_T r c a : shape r c a → (0 < r)%nat → shape c r (np_T a).
Proof.
  intros Ha Hr. unfold np_T. rewrite (ncols_shape r c) by done.
  destruct Ha as [Hla Ha]. split.
  - by rewrite length_map, length_seq.
  - apply Forall_fmap, Forall_true. intros j. cbn. unfold col.
    by rewrite length_map.
Qed.

Lemma np_dot_Ok r k c a b :
  shape r k a → shape k c b → (0 < k)%nat → np_dot a b = Ok (matmul a b).
Proof.
  intros [Hla Ha] Hb Hk. unfold np_dot. case_decide as H; [done|].
  destruct H. rewrite (ncols_shape k c) by done.
  destruct Hb as [Hlb Hb]. split; [|done].
  eapply Forall_impl; [exact Ha|]. cbn. congruence.
Qed.

Lemma shape_matmul r k c a b :
  shape r k a → shape k c b → (0 < k)%nat → shape r c (matmul a b).
Proof.
  intros [Hla Ha] Hb Hk. unfold matmul. split; [by rewrite length_map|].
  apply Forall_fmap, Forall_true. intros row. cbn.
  rewrite length_map. by destruct (shape_T k c b Hb Hk).
Qed.

Lemma entries_nonempty r c a :
  shape r c a → (0 < r)%nat → (0 < c)%nat → entries a ≠ [].
Proof.
  intros [Hla Ha] Hr Hc. unfold entries.
  destruct Ha as [|row a Hrow _]; cbn in *; [lia|].
  destruct row; cbn in *; [lia|done].
Qed.

Lemma ewM_Ok r c (f : R → R → res R) (g : R → R → R) a b :
  shape r c a → shape r c b →
  Forall2 (Forall2 (λ x y, f x y = Ok (g x y))) a b →
  ewM f a b = Ok (tzip g a b).
Proof.
  intros Ha Hb H. unfold ewM. case_decide as Hs.
  2:{ destruct Hs. by eapply shape_same. }
  clear Ha Hb Hs. unfold tzip.
  induction H as [|ra rb a b Hr _ IH]; [done|].
  cbn. cbn in IH. rewrite IH.
  assert (mapM (λ xy : R * R, f xy.1 xy.2) (zip ra rb)
          = Ok (zip_with g ra rb)) as ->; [|done].
  clear -Hr. induction Hr as [|x y ra rb Hxy _ IH]; [done|].
  cbn. cbn in IH. by rewrite Hxy, IH.
Qed.

Lemma shape_1_1 a : shape 1 1 a → ∃ v, a = [[v]].
Proof.
  intros [Hl Ha]. destruct a as [|row [|? ?]]; try done.
  apply Forall_cons in Ha as [Hrow _].
  destruct row as [|v [|? ?]]; try done. eauto.
Qed.

End shape_facts.

Create HintDb shapes discriminated.
#[local] Hint Resolve shape_tzip shape_tmap shape_zeros shape_insert shape_alter
  shape_T shape_matmul : shapes.
#[local] Hint Extern 1 (_ < _)%nat => lia : shapes.
#[local] Hint Extern 1 (length _ = _) => by rewrite ?length_map, ?length_replicate : shapes.

(** Run the numpy operation at the head of a monadic computation, its
    shape conditions found among the hypotheses. *)
Ltac np_run :=
  lazymatch goal with
  | |- (np_dot ?a ?b ≫= _) = _ =>
      erewrite (np_dot_Ok _ _ _ a b) by eauto 10 with shapes
  | |- (np_add ?a ?b ≫= _) = _ =>
      erewrite (np_add_Ok _ _ a b) by eauto 10 with shapes
  | |- (np_mul ?a ?b ≫= _) = _ =>
      erewrite (np_mul_Ok _ _ a b) by eauto 10 with shapes
  | |- (set_row ?i ?v ?a ≫= _) = _ =>
      erewrite (set_row_Ok _ _ i v a) by eauto 10 with shapes
  | |- (sub_row ?i ?v ?a ≫= _) = _ =>
      erewrite (sub_row_Ok _ _ i v a) by eauto 10 with shapes
  | |- (of_option _ ?o ≫= _) = _ =>
      erewrite (of_option_Some _ o) by eassumption
  end;
  rewrite bind_Ok; cbv beta.

(** ** softmax *)

Section softmax_facts.
Local Open Scope R_scope.

(** What [softmax] returns on a non-empty array, in closed form *)
Definition softmax_value (x : tensor) (mx : R) : tensor :=
  let p := tmap (λ v, exp_flush (v - mx)) x in
  tmap (λ v, v / np_sum p) p.

Lemma np_max_Ok (x : tensor) :
  entries x ≠ [] →
  ∃ mx, np_max x = Ok mx ∧ Forall (λ v, v <= mx) (entries x)
        ∧ mx ∈ entries x.
Proof.
  unfold np_max. destruct (entries x) as [|v l] eqn:E; [done|]. intros _.
  eexists; split; [done|]. split; [apply foldr_Rmax_ub|apply foldr_Rmax_in].
Qed.

Lemma np_max_shift (k : R) (x : tensor) (mx : R) :
  np_max x = Ok mx → np_max (tmap (λ v, v + k) x) = Ok (mx + k).
Proof.
  unfold np_max. rewrite entries_tmap.
  destruct (entries x) as [|v l]; [done|]. intros [= <-]. cbn.
  by rewrite foldr_Rmax_shift.
Qed.

(** The sum that [softmax] divides by is at least 1: the entry of the
    maximum contributes [exp 0] *)
Lemma softmax_sum_ge_1 (x : tensor) (mx : R) :
  mx ∈ entries x → 1 <= np_sum (tmap (λ v, exp_flush (v - mx)) x).
Proof.
  intros Hin. unfold np_sum. rewrite entries_tmap.
  rewrite <- exp_flush_0. apply Rsum_ge_elem.
  - rewrite Forall_fmap. apply Forall_true. intros v. apply exp_flush_nonneg.
  - apply list_elem_of_fmap. exists mx. split; [|done]. f_equal. lra.
Qed.

Lemma softmax_Ok (x : tensor) (mx : R) :
  np_max x = Ok mx → Forall (λ v, v <= mx) (entries x) → mx ∈ entries x →
  RNN.softmax x = Ok (softmax_value x mx)
  ∧ Forall (λ v, 0 <= v) (entries (softmax_value x mx))
  ∧ np_sum (softmax_value x mx) = 1.
Proof.
  intros Hmx Hub Hin. unfold RNN.softmax, softmax_value. rewrite Hmx. cbn.
  pose proof (softmax_sum_ge_1 x mx Hin) as Hsum.
  set (p := tmap (λ v, exp_flush (v - mx)) x) in *.
  assert (np_exp (tmap (λ v, v - mx) x) = Ok p) as ->.
  { unfold np_exp, p. rewrite <- (tmap_tmap exp_flush (λ v, v - mx)).
    apply tmapM_Ok. rewrite entries_tmap, Forall_fmap.
    eapply Forall_impl; [exact Hub|]. cbn. intros v Hv.
    apply exp_f_nonpos. lra. }
  cbn.
  assert (Forall (λ v, 0 <= v) (entries p)) as Hpos.
  { unfold p. rewrite entries_tmap, Forall_fmap. apply Forall_true.
    intros v. apply exp_flush_nonneg. }
  split; [|split].
  - apply tmapM_Ok, Forall_true. intros v. unfold div_f.
    case_decide; [lra|done].
  - rewrite entries_tmap, Forall_fmap. eapply Forall_impl; [exact Hpos|].
    cbn. intros v Hv. unfold Rdiv.
    assert (0 < / np_sum p) by (apply Rinv_0_lt_compat; lra). nra.
  - unfold np_sum at 1. rewrite entries_tmap, Rsum_scale.
    fold (np_sum p). field. lra.
Qed.

(** C6.  On every non-empty array, [softmax] returns an array whose entries
    sum to 1, and it returns the same array when a constant is added to all
    the entries of its argument. *)
Theorem softmax_sums_to_one_and_shift_invariant (x : tensor) :
  entries x ≠ [] →
  ∃ p, RNN.softmax x = Ok p ∧ np_sum p = 1
       ∧ ∀ k : R, RNN.softmax (tmap (λ v, v + k) x) = Ok p.
Proof.
  intros Hne. destruct (np_max_Ok x Hne) as (mx & Hmx & Hub & Hin).
  destruct (softmax_Ok x mx Hmx Hub Hin) as (Hp & _ & Hsum).
  exists (softmax_value x mx). repeat split; [done..|]. intros k.
  pose proof (np_max_shift k x mx Hmx) as Hmx'.
  destruct (softmax_Ok (tmap (λ v, v + k) x) (mx + k) Hmx') as (-> & _).
  - rewrite entries_tmap, Forall_fmap. eapply Forall_impl; [exact Hub|].
    cbn. intros; lra.
  - rewrite entries_tmap. apply list_elem_of_fmap. by exists mx.
  - f_equal. unfold softmax_value. cbv zeta.
    assert (tmap (λ v, exp_flush (v - (mx + k))) (tmap (λ v, v + k) x)
            = tmap (λ v, exp_flush (v - mx)) x) as ->; [|done].
    rewrite tmap_tmap.
    apply tmap_ext_entries, Forall_true. intros v. cbn. f_equal. lra.
Qed.

End softmax_facts.

(** ** The reader *)

Section reader_facts.
Import DataReader.

Lemma dict_of_snoc `{Countable K} {V} (kvs : list (K * V)) (kv : K * V) :
  dict_of (kvs ++ [kv]) = <[kv.1 := kv.2]> (dict_of kvs).
Proof. unfold dict_of. by rewrite foldl_snoc. Qed.

Lemma enumerate_snoc {A} (l : list A) (x : A) :
  enumerate (l ++ [x]) = enumerate l ++ [(length l, x)].
Proof. unfold enumerate. rewrite imap_app. cbn. by rewrite Nat.add_0_r. Qed.

Lemma swap_enumerate_snoc {A} (l : list A) (x : A) :
  prod_swap <$> enumerate (l ++ [x])
  = (prod_swap <$> enumerate l) ++ [(x, length l)].
Proof. by rewrite enumerate_snoc, fmap_app. Qed.

Lemma ix_to_char_lookup (chars : list ascii) (i : nat) :
  dict_of (enumerate chars) !! i = chars !! i.
Proof.
  induction chars as [|x chars IH] using rev_ind; [done|].
  rewrite enumerate_snoc, dict_of_snoc. cbn.
  destruct (decide (length chars = i)) as [<-|Hne].
  - rewrite lookup_insert_eq. by rewrite list_lookup_middle.
  - rewrite lookup_insert_ne, IH by done.
    destruct (decide (i < length chars)) as [Hlt|Hge].
    + by rewrite lookup_app_l.
    + rewrite !lookup_ge_None_2; [done|rewrite length_app; cbn; lia|lia].
Qed.

Lemma char_to_ix_lookup (chars : list ascii) (ch : ascii) (i : nat) :
  dict_of (prod_swap <$> enumerate chars) !! ch = Some i → chars !! i = Some ch.
Proof.
  induction chars as [|x chars IH] using rev_ind; [done|].
  rewrite swap_enumerate_snoc, dict_of_snoc. cbn.
  destruct (decide (x = ch)) as [->|Hne].
  - rewrite lookup_insert_eq. intros [= <-]. by rewrite list_lookup_middle.
  - rewrite lookup_insert_ne by done. intros Hi%IH.
    rewrite lookup_app_l; [done|]. by eapply lookup_lt_Some.
Qed.

Lemma char_to_ix_is_Some (chars : list ascii) (ch : ascii) :
  ch ∈ chars → is_Some (dict_of (prod_swap <$> enumerate chars) !! ch).
Proof.
  induction chars as [|x chars IH] using rev_ind; [by intros ?%elem_of_nil|].
  rewrite swap_enumerate_snoc, dict_of_snoc. cbn.
  destruct (decide (x = ch)) as [->|Hne].
  - rewrite lookup_insert_eq. eauto.
  - rewrite lookup_insert_ne by done. rewrite elem_of_app, list_elem_of_singleton.
    intros [?|?]; [auto|congruence].
Qed.

Lemma slice_lookup {A} (l : list A) (lo hi i : nat) :
  i < hi - lo → slice lo hi l !! i = l !! (lo + i).
Proof. intros Hi. unfold slice. by rewrite lookup_take_lt, lookup_drop. Qed.

Lemma slice_length {A} (l : list A) (lo hi : nat) :
  hi ≤ length l → length (slice lo hi l) = hi - lo.
Proof. intros Hhi. unfold slice. rewrite length_take, length_drop. lia. Qed.

(** The corpus as a sequence of indices: the index of its [j]-th symbol *)
Definition corpus_ix (r : t) (j : nat) : option nat :=
  data r !! j ≫= λ ch, char_to_ix r !! ch.

(** The reader after [n] calls of [next_batch] *)
Fixpoint after_calls (n : nat) (r : t) : res t :=
  match n with
  | 0 => Ok r
  | S n => '(_, r') ← next_batch r; after_calls n r'
  end.

Lemma encode_slice (r : t) (lo hi : nat) :
  (∀ ch, ch ∈ data r → is_Some (char_to_ix r !! ch)) →
  hi ≤ length (data r) →
  ∃ ixs, encode r (slice lo hi (data r)) = Ok ixs
    ∧ length ixs = hi - lo
    ∧ ∀ i, i < hi - lo →
        is_Some (ixs !! i) ∧ ixs !! i = corpus_ix r (lo + i).
Proof.
  intros Hdom Hhi.
  exists ((λ ch, default 0 (char_to_ix r !! ch)) <$> slice lo hi (data r)).
  split; [|split].
  - apply mapM_Ok, Forall_forall. intros ch Hch.
    destruct (Hdom ch) as [ix Hix]; [|by rewrite Hix].
    unfold slice in Hch. apply subseteq_take, subseteq_drop in Hch. done.
  - by rewrite length_fmap, slice_length.
  - intros i Hi. rewrite list_lookup_fmap, slice_lookup by done.
    unfold corpus_ix.
    destruct (lookup_lt_is_Some_2 (data r) (lo + i)) as [ch Hch]; [lia|].
    rewrite Hch. cbn. destruct (Hdom ch) as [ix Hix].
    + by eapply list_elem_of_lookup_2.
    + rewrite Hix. eauto.
Qed.

Lemma init_char_to_ix_dom (data chars : list ascii) (L p : nat) (ch : ascii) :
  set_order data chars →
  ch ∈ data → is_Some (char_to_ix (set_pointer p (init data chars L)) !! ch).
Proof. intros [_ Hset] Hch. cbn. by apply char_to_ix_is_Some, Hset. Qed.

(** One call on a reader whose cursor leaves room for a window and one more
    symbol *)
Lemma next_batch_spec (data chars : list ascii) (L p : nat) :
  set_order data chars → p + L + 1 ≤ length data →
  let r := set_pointer p (init data chars L) in
  let p' := if decide (length data ≤ p + L + L + 1) then 0 else p + L in
  ∃ inputs targets,
    next_batch r = Ok ((inputs, targets), set_pointer p' (init data chars L))
    ∧ length inputs = L ∧ length targets = L
    ∧ (∀ i, i < L →
         is_Some (inputs !! i) ∧ inputs !! i = corpus_ix r (p + i)
         ∧ is_Some (targets !! i) ∧ targets !! i = corpus_ix r (p + i + 1))
    ∧ p' + L + 1 ≤ length data.
Proof.
  intros Hset Hfit r p'.
  assert (∀ ch, ch ∈ DataReader.data r → is_Some (char_to_ix r !! ch)) as Hdom.
  { intros ch. by apply init_char_to_ix_dom. }
  destruct (encode_slice r p (p + L) Hdom) as (inputs & Hin & Hlin & Hi);
    [cbn; lia|].
  destruct (encode_slice r (p + 1) (p + L + 1) Hdom) as (targets & Htg & Hltg & Ht);
    [cbn; lia|].
  exists inputs, targets. split; [|split; [|split; [|split]]].
  - unfold next_batch.
    change (pointer r) with p. change (seq_length r) with L.
    rewrite Hin, bind_Ok. cbv beta. rewrite Htg, bind_Ok. cbn. unfold p'.
    by case_decide.
  - lia.
  - lia.
  - intros i Hlt.
    destruct (Hi i) as [? ?]; [lia|]. destruct (Ht i) as [? Hti]; [lia|].
    replace (p + i + 1) with (p + 1 + i) by lia. done.
  - unfold p'. case_decide; lia.
Qed.

Lemma after_calls_spec (data chars : list ascii) (L n p : nat) :
  set_order data chars → p + L + 1 ≤ length data →
  ∃ q, after_calls n (set_pointer p (init data chars L))
       = Ok (set_pointer q (init data chars L))
    ∧ q + L + 1 ≤ length data.
Proof.
  intros Hset. revert p. induction n as [|n IH]; intros p Hfit; cbn [after_calls].
  - eauto.
  - destruct (next_batch_spec data chars L p Hset Hfit)
      as (inputs & targets & -> & _ & _ & _ & Hfit').
    rewrite bind_Ok. by apply IH.
Qed.

(** C2.  On a corpus of at least [seq_length + 1] symbols, the call that
    follows any number of calls returns [seq_length] inputs, the corpus
    indices from the cursor on, and [seq_length] targets, each the index of
    the symbol after the one of its input; the cursor goes back to 0 when a
    further window and one symbol would not fit, so the next window is full
    again. *)
Theorem next_batch_full_shifted_windows (data chars : list ascii) (L n : nat) :
  set_order data chars → L + 1 ≤ length data →
  ∃ r inputs targets r',
    after_calls n (init data chars L) = Ok r
    ∧ DataReader.data r = data
    ∧ next_batch r = Ok ((inputs, targets), r')
    ∧ length inputs = L ∧ length targets = L
    ∧ (∀ i, i < L →
         is_Some (inputs !! i) ∧ inputs !! i = corpus_ix r (pointer r + i)
         ∧ is_Some (targets !! i)
         ∧ targets !! i = corpus_ix r (pointer r + i + 1))
    ∧ (∀ i, i + 1 < L → targets !! i = inputs !! (i + 1))
    ∧ (length data < pointer r + L + L + 1 → pointer r' = 0)
    ∧ pointer r' + L + 1 ≤ length data.
Proof.
  intros Hset Hlen.
  destruct (after_calls_spec data chars L n 0 Hset) as (p & Hp & Hfit); [lia|].
  destruct (next_batch_spec data chars L p Hset Hfit)
    as (inputs & targets & Hnb & Hlin & Hltg & Hwin & Hfit').
  eexists _, inputs, targets, _. split; [exact Hp|]. split; [reflexivity|].
  split; [exact Hnb|].
  cbn [pointer set_pointer]. repeat split; try done; try apply Hwin; try lia.
  - intros i Hi. destruct (Hwin i) as (_ & _ & _ & ->); [lia|].
    destruct (Hwin (i + 1)) as (_ & -> & _); [lia|]. f_equal. lia.
  - intros Hno. case_decide; [done|lia].
Qed.

End reader_facts.

(** ** The forward pass *)

Section forward_facts.
Local Open Scope R_scope.
Import RNN.

(** The parameter arrays have the shapes that [__init__] gives them *)
Definition params_shaped (m : RNN.t) : Prop :=
  shape (hidden_size m) (vocab_size m) (U m)
  ∧ shape (vocab_size m) (hidden_size m) (V m)
  ∧ shape (hidden_size m) (hidden_size m) (W m)
  ∧ shape (hidden_size m) 1 (b m)
  ∧ shape (vocab_size m) 1 (c m).

Definition wf_params (m : RNN.t) : Prop :=
  (0 < hidden_size m)%nat ∧ (0 < vocab_size m)%nat ∧ params_shaped m.

Definition one_hot (n ix : nat) : tensor := <[ix := [1]]> (np_zeros n 1).

Definition hidden_value (m : RNN.t) (x h : tensor) : tensor :=
  np_tanh (tzip Rplus (tzip Rplus (matmul (U m) x) (matmul (W m) h)) (b m)).

Definition logits_value (m : RNN.t) (h : tensor) : tensor :=
  tzip Rplus (matmul (V m) h) (c m).

Definition max_entry (x : tensor) : R :=
  match entries x with
  | [] => 0
  | v :: l => foldr Rmax v l
  end.

(** The distribution that [forward] stores for a hidden state *)
Definition prob_value (m : RNN.t) (h : tensor) : tensor :=
  softmax_value (logits_value m h) (max_entry (logits_value m h)).

Context (m : RNN.t) (Hwf : wf_params m).
Local Abbreviation nH := (hidden_size m).
Local Abbreviation nV := (vocab_size m).

Lemma shape_one_hot (n ix : nat) : shape n 1 (one_hot n ix).
Proof. unfold one_hot. eauto with shapes. Qed.

Lemma one_hot_Ok (ix : nat) :
  (ix < nV)%nat → set_row ix 1 (np_zeros nV 1) = Ok (one_hot nV ix).
Proof. intros Hix. by rewrite (set_row_Ok nV 1) by eauto with shapes. Qed.

Lemma shape_hidden_value (x h : tensor) :
  shape nV 1 x → shape nH 1 h → shape nH 1 (hidden_value m x h).
Proof.
  destruct Hwf as (? & ? & ? & ? & ? & ? & ?). intros Hx Hh.
  unfold hidden_value, np_tanh. eauto 10 with shapes.
Qed.

Lemma hidden_Ok (x h : tensor) :
  shape nV 1 x → shape nH 1 h → hidden m x h = Ok (hidden_value m x h).
Proof.
  destruct Hwf as (? & ? & ? & ? & ? & ? & ?). intros Hx Hh. unfold hidden.
  do 4 np_run. done.
Qed.

Lemma shape_logits_value (h : tensor) :
  shape nH 1 h → shape nV 1 (logits_value m h).
Proof.
  destruct Hwf as (? & ? & ? & ? & ? & ? & ?). intros Hh.
  unfold logits_value. eauto 10 with shapes.
Qed.

Lemma logits_Ok (h : tensor) :
  shape nH 1 h → logits m h = Ok (logits_value m h).
Proof.
  destruct Hwf as (? & ? & ? & ? & ? & ? & ?). intros Hh. unfold logits.
  np_run. by rewrite (np_add_Ok nV 1) by eauto 10 with shapes.
Qed.

Lemma np_max_entry (x : tensor) :
  entries x ≠ [] →
  np_max x = Ok (max_entry x) ∧ Forall (λ v, v <= max_entry x) (entries x)
  ∧ max_entry x ∈ entries x.
Proof.
  intros Hne. destruct (np_max_Ok x Hne) as (mx & Hmx & Hub & Hin).
  unfold np_max, max_entry in *. destruct (entries x); [done|].
  injection Hmx as <-. done.
Qed.

Lemma prob_Ok (h : tensor) :
  shape nH 1 h →
  softmax (logits_value m h) = Ok (prob_value m h)
  ∧ shape nV 1 (prob_value m h).
Proof.
  intros Hh. pose proof (shape_logits_value h Hh) as Hy.
  assert (entries (logits_value m h) ≠ []) as Hne.
  { destruct Hwf as (? & ? & _). eapply entries_nonempty; eauto with shapes. }
  destruct (np_max_entry _ Hne) as (Hmx & Hub & Hin).
  destruct (softmax_Ok _ _ Hmx Hub Hin) as (Hs & _). split; [done|].
  unfold prob_value, softmax_value. cbv zeta. eauto with shapes.
Qed.

(** What the three dicts hold after [t] turns of the loop of [forward] *)
Definition cache_ok (inputs : list nat) (hprev : tensor) (t : nat) (k : cache)
  : Prop :=
  hs k !! (-1)%Z = Some hprev
  ∧ ∀ j : nat, (j < t)%nat → ∃ ix hp,
      inputs !! j = Some ix ∧ (ix < nV)%nat
      ∧ hs k !! (Z.of_nat j - 1)%Z = Some hp ∧ shape nH 1 hp
      ∧ xs k !! Z.of_nat j = Some (one_hot nV ix)
      ∧ hs k !! Z.of_nat j = Some (hidden_value m (one_hot nV ix) hp)
      ∧ ycap k !! Z.of_nat j
        = Some (prob_value m (hidden_value m (one_hot nV ix) hp)).

Lemma forward_step_ok (inputs : list nat) (hprev : tensor) (t : nat) (k : cache) :
  shape nH 1 hprev → Forall (λ ix, ix < nV)%nat inputs → (t < length inputs)%nat →
  cache_ok inputs hprev t k →
  ∃ k', forward_step m inputs k t = Ok k' ∧ cache_ok inputs hprev (S t) k'.
Proof.
  intros Hhp Hin Ht [Hm1 Hk].
  destruct (lookup_lt_is_Some_2 inputs t Ht) as [ix Hix].
  assert (ix < nV)%nat as HixV.
  { rewrite Forall_lookup in Hin. by eapply Hin. }
  assert (∃ hp, hs k !! (Z.of_nat t - 1)%Z = Some hp ∧ shape nH 1 hp)
    as (hp & Hhpk & Hshp).
  { destruct t as [|t].
    - exists hprev. done.
    - destruct (Hk t) as (ix' & hp' & _ & ? & _ & ? & _ & Hh & _); [lia|].
      eexists. split.
      + replace (Z.of_nat (S t) - 1)%Z with (Z.of_nat t) by lia. exact Hh.
      + apply shape_hidden_value; [apply shape_one_hot | done]. }
  pose proof (shape_one_hot nV ix) as Hx.
  pose proof (shape_hidden_value _ _ Hx Hshp) as Hh.
  destruct (prob_Ok _ Hh) as [Hp _].
  eexists. split.
  - unfold forward_step. rewrite Hix. cbn [of_option]. rewrite bind_Ok.
    rewrite one_hot_Ok, bind_Ok by done. cbv beta.
    rewrite Hhpk. cbn [of_option]. rewrite bind_Ok.
    rewrite hidden_Ok, bind_Ok by done. cbv beta.
    rewrite logits_Ok, bind_Ok by done. cbv beta.
    rewrite Hp, bind_Ok. done.
  - split; cbn [xs hs ycap].
    + rewrite lookup_insert_ne by lia. done.
    + intros j Hj. destruct (decide (j = t)) as [->|Hne].
      * exists ix, hp. rewrite !lookup_insert_eq.
        rewrite lookup_insert_ne by lia. done.
      * destruct (Hk j) as (ix' & hp' & ? & ? & ? & ? & ? & ? & ?); [lia|].
        exists ix', hp'. rewrite !lookup_insert_ne by lia. done.
Qed.

Lemma forward_prefix (inputs : list nat) (hprev : tensor) (t : nat) :
  shape nH 1 hprev → Forall (λ ix, ix < nV)%nat inputs → (t ≤ length inputs)%nat →
  ∃ k, for_loop (forward_step m inputs)
         {| xs := ∅; hs := {[ (-1)%Z := np_copy hprev ]}; ycap := ∅ |} (range t)
       = Ok k
     ∧ cache_ok inputs hprev t k.
Proof.
  intros Hhp Hin. unfold range. induction t as [|t IH]; intros Ht.
  - eexists. split; [done|]. split; [apply lookup_singleton_eq|]. lia.
  - destruct IH as (k & Hk & Hok); [lia|].
    destruct (forward_step_ok inputs hprev t k) as (k' & Hk' & Hok');
      [done..|].
    exists k'. split; [|done].
    rewrite seq_S, for_loop_app, Hk, bind_Ok. cbn. by rewrite Hk'.
Qed.

Lemma forward_Ok (inputs : list nat) (hprev : tensor) :
  shape nH 1 hprev → Forall (λ ix, ix < nV)%nat inputs →
  ∃ k, forward m inputs hprev = Ok k
     ∧ cache_ok inputs hprev (length inputs) k.
Proof. intros. by apply forward_prefix. Qed.

End forward_facts.

(** ** Backpropagation through time *)

Section bptt_spec.
Local Open Scope R_scope.
Import RNN.

(** The recurrence as the specification words it, over the per-step values
    [one_hot t], [hidden t] (with [hidden (-1)] the state before the window)
    and [prob t], and the targets. *)
Context (m : RNN.t) (one_hot_at hidden_at prob_at : Z → tensor)
        (target_at : nat → nat).

Definition tadd : tensor → tensor → tensor := tzip Rplus.
Definition tmul : tensor → tensor → tensor := tzip Rmult.

Definition bptt_step (t : nat) (s : grads * tensor) : grads * tensor :=
  let '(g, dh_next) := s in
  let hidden_t := hidden_at (Z.of_nat t) in
  let dy := alter (map (λ v, v - 1)) (target_at t) (prob_at (Z.of_nat t)) in
  let dh := tadd (matmul (np_T (V m)) dy) dh_next in
  let dh_raw := tmul (tmap (λ v, 1 - v * v) hidden_t) dh in
  ({| dU := tadd (dU g) (matmul dh_raw (np_T (one_hot_at (Z.of_nat t))));
      dW := tadd (dW g) (matmul dh_raw (np_T (hidden_at (Z.of_nat t - 1)%Z)));
      dV := tadd (dV g) (matmul dy (np_T hidden_t));
      db := tadd (db g) dh_raw;
      dc := tadd (dc g) dy |},
   matmul (np_T (W m)) dh_raw).

(** Steps [t - 1], [t - 2], ..., [0], in this order *)
Fixpoint bptt_down (t : nat) (s : grads * tensor) : grads * tensor :=
  match t with
  | O => s
  | S t' => bptt_down t' (bptt_step t' s)
  end.

Definition zero_grads : grads :=
  {| dU := np_zeros (hidden_size m) (vocab_size m);
     dW := np_zeros (hidden_size m) (hidden_size m);
     dV := np_zeros (vocab_size m) (hidden_size m);
     db := np_zeros (hidden_size m) 1;
     dc := np_zeros (vocab_size m) 1 |}.

Definition clamp5 (v : R) : R :=
  if decide (v < -5) then -5 else if decide (5 < v) then 5 else v.

Definition clamp_grads (g : grads) : grads :=
  {| dU := tmap clamp5 (dU g); dW := tmap clamp5 (dW g);
     dV := tmap clamp5 (dV g); db := tmap clamp5 (db g);
     dc := tmap clamp5 (dc g) |}.

Definition bptt_spec : grads :=
  clamp_grads
    (bptt_down (seq_length m) (zero_grads, np_zeros (hidden_size m) 1)).1.

End bptt_spec.

Section backward_facts.
Local Open Scope R_scope.
Import RNN.

Context (m : RNN.t) (Hwf : wf_params m).
Local Abbreviation nH := (hidden_size m).
Local Abbreviation nV := (vocab_size m).

Definition grads_shape (g : grads) : Prop :=
  shape nH nV (dU g) ∧ shape nH nH (dW g) ∧ shape nV nH (dV g)
  ∧ shape nH 1 (db g) ∧ shape nV 1 (dc g).


(** The per-step values that a cache holds *)
Definition at_key (d : gmap Z tensor) (t : Z) : tensor := default [] (d !! t).
Definition at_index (l : list nat) (t : nat) : nat := default 0%nat (l !! t).

Lemma tzip_self (f : R → R → R) (a : tensor) :
  tzip f a a = tmap (λ v, f v v) a.
Proof.
  unfold tzip, tmap. induction a as [|row a IH]; cbn; [done|].
  rewrite IH. f_equal. induction row as [|v row IHr]; cbn; [done|].
  by rewrite IHr.
Qed.

Lemma clip_clamp5 (v : R) : clip_f (-5) 5 v = clamp5 v.
Proof.
  unfold clip_f, clamp5, Rmin, Rmax.
  repeat (case_decide || destruct (Rle_dec _ _)); lra.
Qed.


Lemma clip_grads_clamp (g : grads) : clip_grads g = clamp_grads g.
Proof.
  unfold clip_grads, clamp_grads, np_clip.
  f_equal; apply tmap_ext_entries, Forall_true, clip_clamp5.
Qed.


Lemma backward_step_ok (inputs : list nat) (hprev : tensor) (n : nat)
    (k : cache) (targets : list nat) (t : nat) (g : grads) (dhn : tensor) :
  cache_ok m inputs hprev n k → (t < n)%nat →
  (t < length targets)%nat → Forall (λ ix, ix < nV)%nat targets →
  grads_shape g → shape nH 1 dhn →
  let s := bptt_step m (at_key (xs k)) (at_key (hs k)) (at_key (ycap k))
             (at_index targets) t (g, dhn) in
  backward_step m k targets (g, dhn) t = Ok s
  ∧ grads_shape s.1 ∧ shape nH 1 s.2.
Proof.
  intros [_ Hk] Ht Htl Htg (HdU & HdW & HdV & Hdb & Hdc) Hdhn.
  destruct (Hk t Ht) as (ix & hp & _ & _ & Hhp & Hshp & Hx & Hh & Hp).
  destruct (lookup_lt_is_Some_2 targets t Htl) as [tgt Htgt].
  assert (tgt < nV)%nat as HtgtV.
  { rewrite Forall_lookup in Htg. by eapply Htg. }
  pose proof Hwf as (HH & HV & HU & HVm & HW & Hb & Hc).
  pose proof (shape_one_hot nV ix) as Hsx.
  pose proof (shape_hidden_value m Hwf _ _ Hsx Hshp) as Hsh.
  destruct (prob_Ok m Hwf _ Hsh) as [_ Hsp].
  set (x := one_hot nV ix) in *.
  set (h := hidden_value m x hp) in *.
  set (p := prob_value m h) in *.
  assert (shape nV 1 (alter (map (λ v, v - 1)) tgt p)) as Hdy
    by eauto with shapes.
  unfold bptt_step, at_key, at_index.
  rewrite Hp, Hh, Hx, Hhp, Htgt. cbn [from_option Datatypes.id]. cbv zeta.
  split; [|split; [unfold grads_shape; cbn [dU dW dV db dc fst];
                     refine (conj _ (conj _ (conj _ (conj _ _))))|cbn [snd]]];
    unfold tadd, tmul; eauto 12 with shapes.
  unfold backward_step, np_copy. repeat np_run.
  by rewrite tzip_self, tmap_tmap.
Qed.

Lemma backward_loop_ok (inputs : list nat) (hprev : tensor) (n : nat)
    (k : cache) (targets : list nat) (t : nat) (g : grads) (dhn : tensor) :
  cache_ok m inputs hprev n k → (t ≤ n)%nat →
  (t ≤ length targets)%nat → Forall (λ ix, ix < nV)%nat targets →
  grads_shape g → shape nH 1 dhn →
  for_loop (backward_step m k targets) (g, dhn) (reverse (range t))
  = Ok (bptt_down m (at_key (xs k)) (at_key (hs k)) (at_key (ycap k))
          (at_index targets) t (g, dhn)).
Proof.
  intros Hk Htn Htl Htg. revert g dhn.
  unfold range. induction t as [|t IH]; intros g dhn Hg Hdhn; [done|].
  rewrite seq_S, reverse_snoc. cbn [for_loop bptt_down plus].
  destruct (backward_step_ok inputs hprev n k targets t g dhn)
    as (-> & Hg' & Hdhn'); [done || lia..|].
  rewrite bind_Ok.
  destruct (bptt_step _ _ _ _ _ _ _) as [g' dhn'].
  apply IH; [lia|lia|done..].
Qed.

Lemma backward_Ok (inputs : list nat) (hprev : tensor) (k : cache)
    (targets : list nat) :
  (0 < seq_length m)%nat → length inputs = seq_length m →
  cache_ok m inputs hprev (length inputs) k →
  length targets = seq_length m → Forall (λ ix, ix < nV)%nat targets →
  backward m k targets
  = Ok (bptt_spec m (at_key (xs k)) (at_key (hs k)) (at_key (ycap k))
          (at_index targets)).
Proof.
  intros Hpos Hlin Hk Hltg Htg.
  pose proof Hwf as (HH & HV & HU & HVm & HW & Hb & Hc).
  pose proof Hk as [Hm1 Hk'].
  destruct (Hk' 0%nat) as (ix & hp & _ & _ & _ & Hshp & _ & Hh0 & _); [lia|].
  pose proof (shape_hidden_value m Hwf _ _ (shape_one_hot _ ix) Hshp) as Hsh0.
  unfold backward. change (Z.of_nat 0) with 0%Z in Hh0. rewrite Hh0.
  cbn [of_option]. rewrite bind_Ok.
  rewrite (zeros_like_shape _ _ _ HU), (zeros_like_shape _ _ _ HW),
    (zeros_like_shape _ _ _ HVm), (zeros_like_shape _ _ _ Hb),
    (zeros_like_shape _ _ _ Hc), (zeros_like_shape _ _ _ Hsh0).
  erewrite (backward_loop_ok inputs hprev (length inputs) k targets);
    [|done|lia|lia|done| |apply shape_zeros].
  2:{ repeat split; apply shape_zeros. }
  rewrite bind_Ok. unfold bptt_spec, zero_grads.
  destruct (bptt_down _ _ _ _ _ _ _) as [g dhn].
  cbn [fst]. by rewrite clip_grads_clamp.
Qed.

End backward_facts.


(** ** The adaptive update *)

Section update_facts.
Local Open Scope R_scope.
Import RNN.
Implicit Types (a b : tensor).

Definition tensor_le : tensor → tensor → Prop := Forall2 (Forall2 Rle).
Definition nonneg (a : tensor) : Prop := Forall (λ v, 0 <= v) (entries a).

Lemma entries_tzip_Forall (P Q S : R → Prop) (f : R → R → R) a b :
  (∀ x y, P x → Q y → S (f x y)) →
  Forall P (entries a) → Forall Q (entries b) → Forall S (entries (tzip f a b)).
Proof.
  intros Hf. unfold entries, tzip. revert b.
  induction a as [|ra a IH]; intros [|rb b]; cbn; try done.
  rewrite !Forall_app. intros [Hra Ha] [Hrb Hb]. split; [|by apply IH].
  clear -Hf Hra Hrb. revert rb Hrb.
  induction Hra as [|x ra Hx _ IHr]; intros [|y rb] Hrb; cbn; try done.
  apply Forall_cons in Hrb as [Hy Hrb]. constructor; auto.
Qed.

Lemma same_shape_Forall2_r (P : R → Prop) a b :
  same_shape a b → Forall P (entries b) →
  Forall2 (Forall2 (λ _ y, P y)) a b.
Proof.
  unfold entries. induction 1 as [|ra rb a b Hlen _ IH]; cbn; [done|].
  rewrite Forall_app. intros [Hrb Hb]. constructor; [|by apply IH].
  clear -Hlen Hrb. revert ra Hlen.
  induction Hrb as [|y rb Hy _ IHr]; intros [|x ra]; cbn; try done.
  intros [= Hlen]. constructor; auto.
Qed.

Lemma tensor_le_add a b :
  same_shape a b → nonneg b → tensor_le a (tzip Rplus a b).
Proof.
  intros Hs Hb. pose proof (same_shape_Forall2_r _ a b Hs Hb) as H.
  unfold tensor_le, tzip. clear Hs Hb.
  induction H as [|ra rb a b Hr _ IH]; cbn; [done|].
  constructor; [|done]. clear -Hr.
  induction Hr as [|x y ra rb Hy _ IHr]; cbn; [done|].
  constructor; [lra|done].
Qed.

Lemma tzip_zero_r a b :
  same_shape a b → Forall (λ v, v = 0) (entries b) → tzip Rplus a b = a.
Proof.
  intros Hs Hb. pose proof (same_shape_Forall2_r _ a b Hs Hb) as H.
  unfold tzip. clear Hs Hb.
  induction H as [|ra rb a b Hr _ IH]; cbn; [done|].
  rewrite IH. f_equal. clear -Hr.
  induction Hr as [|x y ra rb Hy _ IHr]; cbn; [done|].
  rewrite IHr, Hy. f_equal. lra.
Qed.

Lemma entries_zeros (r c : nat) : Forall (λ v, v = 0) (entries (np_zeros r c)).
Proof.
  unfold entries, np_zeros. induction r as [|r IH]; cbn; [done|].
  apply Forall_app. split; [|done]. by apply Forall_replicate.
Qed.

Lemma tensor_le_refl a : tensor_le a a.
Proof.
  unfold tensor_le. induction a as [|row a IH]; constructor; [|done].
  induction row; constructor; [lra|done].
Qed.

Lemma tensor_le_trans a b c : tensor_le a b → tensor_le b c → tensor_le a c.
Proof.
  unfold tensor_le. intros Hab. revert c.
  induction Hab as [|ra rb a b Hr _ IH]; intros c' Hbc;
    inversion Hbc as [|rb' rc b' c'' Hr' Hbc']; subst; constructor; [|auto].
  clear -Hr Hr'. revert rc Hr'.
  induction Hr as [|x y ra rb Hxy _ IHr]; intros rc Hr';
    inversion Hr'; subst; constructor; [lra|auto].
Qed.

(** The two arrays that one turn of the loop of [update_model] computes *)
Definition adagrad_mem (mem d : tensor) : tensor :=
  tzip Rplus mem (tzip Rmult d d).
Definition adagrad_param (lr : R) (p d mem' : tensor) : tensor :=
  tzip Rplus p
    (tzip Rdiv (tmap (λ v, - lr * v) d)
       (tmap sqrt (tmap (λ v, v + 1e-8) mem'))).

Lemma squares_nonneg d : nonneg (tzip Rmult d d).
Proof.
  unfold nonneg. rewrite tzip_self, entries_tmap, Forall_fmap.
  apply Forall_true. intros v. cbn. nra.
Qed.

Lemma adagrad_mem_nonneg mem d : nonneg mem → nonneg (adagrad_mem mem d).
Proof.
  intros Hmem. unfold adagrad_mem.
  eapply (entries_tzip_Forall (λ v, 0 <= v) (λ v, 0 <= v));
    [|done|apply squares_nonneg].
  cbn. intros; lra.
Qed.

Lemma adagrad_Ok (r c : nat) (lr : R) (p d mem : tensor) :
  shape r c p → shape r c d → shape r c mem → nonneg mem →
  adagrad lr p d mem
  = Ok (adagrad_param lr p d (adagrad_mem mem d), adagrad_mem mem d)
  ∧ shape r c (adagrad_param lr p d (adagrad_mem mem d))
  ∧ shape r c (adagrad_mem mem d).
Proof.
  intros Hp Hd Hm Hnn.
  pose proof (adagrad_mem_nonneg mem d Hnn) as Hnn'.
  assert (shape r c (adagrad_mem mem d)) as Hm'
    by (unfold adagrad_mem; eauto with shapes).
  set (mem' := adagrad_mem mem d) in *.
  set (root := tmap sqrt (tmap (λ v, v + 1e-8) mem')).
  set (num := tmap (λ v, - lr * v) d).
  assert (shape r c root) as Hroot by (unfold root; eauto with shapes).
  assert (shape r c num) as Hnum by (unfold num; eauto with shapes).
  split; [|split; [unfold adagrad_param; eauto with shapes|done]].
  unfold adagrad. do 2 np_run. fold (adagrad_mem mem d). fold mem'.
  assert (np_sqrt (tmap (λ v, v + 1e-8) mem') = Ok root) as ->.
  { apply tmapM_Ok. rewrite entries_tmap, Forall_fmap.
    eapply Forall_impl; [exact Hnn'|]. intros v Hv.
    unfold compose. cbv beta in *.
    unfold sqrt_f. case_decide; [done|lra]. }
  rewrite bind_Ok. fold num.
  assert (np_div num root = Ok (tzip Rdiv num root)) as ->.
  { apply (ewM_Ok r c); [done..|].
    eapply Forall2_impl.
    - apply (same_shape_Forall2_r (λ y, y ≠ 0)); [by eapply shape_same|].
      unfold root. rewrite !entries_tmap, !Forall_fmap.
      eapply Forall_impl; [exact Hnn'|]. intros v Hv.
      unfold compose. cbv beta in *.
      assert (0 < sqrt (v + 1e-8)); [apply sqrt_lt_R0|]; lra.
    - intros ra rb Hr. eapply Forall2_impl; [exact Hr|].
      cbn. intros x y Hy. unfold div_f. by case_decide. }
  rewrite bind_Ok. np_run. done.
Qed.

(** With a zero gradient the turn changes neither array *)
Lemma adagrad_zero (r c : nat) (lr : R) (p mem : tensor) :
  shape r c p → shape r c mem →
  adagrad_mem mem (np_zeros r c) = mem
  ∧ adagrad_param lr p (np_zeros r c) mem = p.
Proof.
  intros Hp Hm. split.
  - unfold adagrad_mem. apply tzip_zero_r.
    + eapply shape_same; eauto with shapes.
    + eapply (entries_tzip_Forall (λ v, v = 0) (λ v, v = 0));
        [|apply entries_zeros..].
      cbn. intros x y -> ->. lra.
  - unfold adagrad_param. apply tzip_zero_r.
    + eapply shape_same; eauto 10 with shapes.
    + eapply (entries_tzip_Forall (λ v, v = 0) (λ _, True)).
      * cbn. intros x y -> _. unfold Rdiv. lra.
      * rewrite entries_tmap, Forall_fmap.
        eapply Forall_impl; [apply entries_zeros|]. cbn. intros v ->. lra.
      * by apply Forall_true.
Qed.

(** Whenever a turn returns, the accumulator has not decreased anywhere *)
Lemma adagrad_mem_le (lr : R) (p d mem p' mem' : tensor) :
  adagrad lr p d mem = Ok (p', mem') → tensor_le mem mem'.
Proof.
  unfold adagrad, np_mul, np_add, ew.
  case_decide as Hd; [|done]. rewrite bind_Ok.
  case_decide as Hm; [|done]. rewrite bind_Ok.
  destruct (np_sqrt _) as [root|]; [|done]. rewrite bind_Ok.
  destruct (np_div _ _) as [step|]; [|done]. rewrite bind_Ok.
  case_decide; [|done]. rewrite bind_Ok. intros [= _ <-].
  apply tensor_le_add; [done|apply squares_nonneg].
Qed.

End update_facts.

Section update_model_facts.
Local Open Scope R_scope.
Import RNN.

(** The accumulators have the shapes of their parameters and no negative
    entry: so [__init__] makes them, and so [update_model] keeps them. *)
Definition accs_ok (m : RNN.t) : Prop :=
  (shape (hidden_size m) (vocab_size m) (mU m) ∧ nonneg (mU m))
  ∧ (shape (hidden_size m) (hidden_size m) (mW m) ∧ nonneg (mW m))
  ∧ (shape (vocab_size m) (hidden_size m) (mV m) ∧ nonneg (mV m))
  ∧ (shape (hidden_size m) 1 (mb m) ∧ nonneg (mb m))
  ∧ (shape (vocab_size m) 1 (mc m) ∧ nonneg (mc m)).

Definition acc_le (m m' : RNN.t) : Prop :=
  tensor_le (mU m) (mU m') ∧ tensor_le (mW m) (mW m')
  ∧ tensor_le (mV m) (mV m') ∧ tensor_le (mb m) (mb m')
  ∧ tensor_le (mc m) (mc m').

(** The model that [update_model] leaves *)
Definition updated (m : RNN.t) (g : grads) : RNN.t :=
  let lr := learning_rate m in
  let step p d mem := adagrad_param lr p d (adagrad_mem mem d) in
  {| hidden_size := hidden_size m; vocab_size := vocab_size m;
     seq_length := seq_length m; learning_rate := lr;
     U := step (U m) (dU g) (mU m); V := step (V m) (dV g) (mV m);
     W := step (W m) (dW g) (mW m); b := step (b m) (db g) (mb m);
     c := step (c m) (dc g) (mc m);
     mU := adagrad_mem (mU m) (dU g); mW := adagrad_mem (mW m) (dW g);
     mV := adagrad_mem (mV m) (dV g); mb := adagrad_mem (mb m) (db g);
     mc := adagrad_mem (mc m) (dc g) |}.

Lemma update_model_Ok (m : RNN.t) (g : grads) :
  params_shaped m → accs_ok m → grads_shape m g →
  update_model m g = Ok (updated m g)
  ∧ params_shaped (updated m g) ∧ accs_ok (updated m g).
Proof.
  intros (HU & HV & HW & Hb & Hc)
    ((HmU & HnU) & (HmW & HnW) & (HmV & HnV) & (Hmb & Hnb) & (Hmc & Hnc))
    (HdU & HdW & HdV & Hdb & Hdc).
  destruct (adagrad_Ok _ _ (learning_rate m) _ _ _ HU HdU HmU HnU) as (EU & ? & ?).
  destruct (adagrad_Ok _ _ (learning_rate m) _ _ _ HW HdW HmW HnW) as (EW & ? & ?).
  destruct (adagrad_Ok _ _ (learning_rate m) _ _ _ HV HdV HmV HnV) as (EV & ? & ?).
  destruct (adagrad_Ok _ _ (learning_rate m) _ _ _ Hb Hdb Hmb Hnb) as (Eb & ? & ?).
  destruct (adagrad_Ok _ _ (learning_rate m) _ _ _ Hc Hdc Hmc Hnc) as (Ec & ? & ?).
  split; [|split].
  - unfold update_model. cbv zeta. rewrite EU, bind_Ok. cbv beta iota.
    rewrite EW, bind_Ok. cbv beta iota. rewrite EV, bind_Ok. cbv beta iota.
    rewrite Eb, bind_Ok. cbv beta iota. rewrite Ec, bind_Ok. done.
  - unfold params_shaped. cbn.
    repeat (split; [assumption|]). assumption.
  - unfold accs_ok. cbn.
    repeat (split; [split; [assumption|by apply adagrad_mem_nonneg]|]).
    split; [assumption|by apply adagrad_mem_nonneg].
Qed.

Lemma update_model_acc_le (m m' : RNN.t) (g : grads) :
  update_model m g = Ok m' → acc_le m m'.
Proof.
  unfold update_model. cbv zeta.
  destruct (adagrad _ (U m) _ _) as [[U' mU']|] eqn:EU; [|done]. rewrite bind_Ok.
  destruct (adagrad _ (W m) _ _) as [[W' mW']|] eqn:EW; [|done]. rewrite bind_Ok.
  destruct (adagrad _ (V m) _ _) as [[V' mV']|] eqn:EV; [|done]. rewrite bind_Ok.
  destruct (adagrad _ (b m) _ _) as [[b' mb']|] eqn:Eb; [|done]. rewrite bind_Ok.
  destruct (adagrad _ (c m) _ _) as [[c' mc']|] eqn:Ec; [|done]. rewrite bind_Ok.
  intros [= <-]. unfold acc_le. cbn.
  repeat split; by eapply adagrad_mem_le.
Qed.

Lemma acc_le_refl (m : RNN.t) : acc_le m m.
Proof. repeat split; apply tensor_le_refl. Qed.

Lemma acc_le_trans (m1 m2 m3 : RNN.t) : acc_le m1 m2 → acc_le m2 m3 → acc_le m1 m3.
Proof.
  intros (? & ? & ? & ? & ?) (? & ? & ? & ? & ?).
  repeat split; by eapply tensor_le_trans.
Qed.

(** C7.  In every state of a model whose arrays have their shapes and whose
    accumulators have no negative entry, [update_model] called with five
    zero gradients returns and leaves [U], [W], [V], [b] and [c] as they
    were. *)
Theorem update_model_zero_gradient_keeps_parameters (m : RNN.t) :
  params_shaped m → accs_ok m →
  ∃ m', update_model m (zero_grads m) = Ok m'
    ∧ U m' = U m ∧ W m' = W m ∧ V m' = V m ∧ b m' = b m ∧ c m' = c m.
Proof.
  intros Hp Ha.
  destruct (update_model_Ok m (zero_grads m) Hp Ha) as (Hup & _).
  { repeat split; apply shape_zeros. }
  exists (updated m (zero_grads m)). split; [exact Hup|].
  destruct Hp as (HU & HV & HW & Hb & Hc).
  destruct Ha as ((HmU & _) & (HmW & _) & (HmV & _) & (Hmb & _) & (Hmc & _)).
  cbn.
  destruct (adagrad_zero _ _ (learning_rate m) _ _ HU HmU) as [-> ->].
  destruct (adagrad_zero _ _ (learning_rate m) _ _ HW HmW) as [-> ->].
  destruct (adagrad_zero _ _ (learning_rate m) _ _ HV HmV) as [-> ->].
  destruct (adagrad_zero _ _ (learning_rate m) _ _ Hb Hmb) as [-> ->].
  destruct (adagrad_zero _ _ (learning_rate m) _ _ Hc Hmc) as [-> ->].
  done.
Qed.

End update_model_facts.

(** ** The calls that a training run makes on the model *)

Section core_calls.
Local Open Scope R_scope.
Import RNN.
Context {G : Type} (draw : list R → G → nat * G).

Inductive core_call : Type :=
  | CallForward (inputs : list nat) (hprev : tensor)
  | CallBackward (k : cache) (targets : list nat)
  | CallLoss (ps : gmap Z tensor) (targets : list nat)
  | CallUpdate (g : grads)
  | CallSample (h : tensor) (seed_ix n : nat) (rng : G)
  | CallPredict (r : DataReader.t) (start : list ascii) (n : nat) (rng : G).

(** The model after a call that returns.  Of the methods of the class only
    [update_model] assigns to an array of [self]; the others read them. *)
Definition exec (m : RNN.t) (call : core_call) : res RNN.t :=
  match call with
  | CallForward inputs hprev => _ ← forward m inputs hprev; Ok m
  | CallBackward k targets => _ ← backward m k targets; Ok m
  | CallLoss ps targets => _ ← loss ps targets; Ok m
  | CallUpdate g => update_model m g
  | CallSample h seed_ix n rng => _ ← sample draw m h seed_ix n rng; Ok m
  | CallPredict r start n rng => _ ← predict draw m r start n rng; Ok m
  end.

Definition is_update (call : core_call) : Prop :=
  match call with
  | CallUpdate _ => True
  | _ => False
  end.

Lemma exec_acc_le (m m' : RNN.t) (call : core_call) :
  exec m call = Ok m' → acc_le m m' ∧ (¬ is_update call → m' = m).
Proof.
  destruct call; cbn [exec is_update];
    try (by intros H; apply bind_Ok_inv in H as (? & _ & [= <-]);
            split; [apply acc_le_refl|]).
  intros H. split; [by eapply update_model_acc_le|tauto].
Qed.

(** C8.  Along any sequence of calls on the model that return, every entry
    of the five accumulators is at least what it was at the start: a call of
    [update_model] never lowers one, and no other call changes the model. *)
Theorem accumulators_never_decrease (calls : list core_call) (m m' : RNN.t) :
  for_loop exec m calls = Ok m' →
  acc_le m m' ∧ (Forall (λ call, ¬ is_update call) calls → m' = m).
Proof.
  revert m. induction calls as [|call calls IH]; intros m; cbn [for_loop].
  - intros [= <-]. split; [apply acc_le_refl|done].
  - intros H. apply bind_Ok_inv in H as (m1 & H1 & H).
    apply exec_acc_le in H1 as [Hle Heq]. apply IH in H as [Hle' Heq'].
    split; [by eapply acc_le_trans|].
    intros [Hc Hcs]%Forall_cons. rewrite Heq' by done. auto.
Qed.

End core_calls.

(** ** The loss *)

Section loss_facts.
Local Open Scope R_scope.
Import RNN.
Context {G : Type} (draw : list R → G → nat * G).

(** [ps - targets] raises for every dict [ps] and list [targets] *)
Lemma loss_raises_TypeError (ps : gmap Z tensor) (targets : list nat) :
  loss ps targets = Raise TypeError.
Proof. reflexivity. Qed.

Lemma corpus_ix_bound (data chars : list ascii) (L p j ix : nat) :
  corpus_ix (DataReader.set_pointer p (DataReader.init data chars L)) j
  = Some ix →
  (ix < length chars)%nat.
Proof.
  unfold corpus_ix. cbn.
  destruct (data !! j) as [ch|]; [cbn|done].
  intros Hix%char_to_ix_lookup. by eapply lookup_lt_Some.
Qed.

Lemma window_in_vocab (data chars : list ascii) (L p q : nat) (l : list nat) :
  length l = L →
  (∀ i, (i < L)%nat →
     l !! i
     = corpus_ix (DataReader.set_pointer p (DataReader.init data chars L))
         (q + i)) →
  Forall (λ ix, ix < length chars)%nat l.
Proof.
  intros Hlen Hl. apply Forall_lookup. intros i ix Hi.
  pose proof (lookup_lt_Some _ _ _ Hi) as Hlt. rewrite Hlen in Hlt.
  rewrite (Hl i Hlt) in Hi. by eapply corpus_ix_bound.
Qed.

(** C5.  The first turn of the loop of [train], on a fresh reader over a
    corpus of at least [seq_length + 1] symbols and a model of its
    vocabulary: the window is read, [forward] and [backward] return, and
    then [loss] raises TypeError at [ps - targets], [ps] being a dict and
    [targets] a list.  The turn computes no loss at all. *)
Theorem train_step_raises_at_loss (m : RNN.t) (data chars : list ascii)
    (hprev : option tensor) (smooth_loss : R) (iter_num : nat) (g : G)
    (printed : list (list ascii * nat * R)) :
  wf_params m → (0 < seq_length m)%nat →
  vocab_size m = length chars →
  DataReader.set_order data chars →
  (seq_length m + 1 ≤ length data)%nat →
  train_step draw
    {| t_model := m; t_reader := DataReader.init data chars (seq_length m);
       t_hprev := hprev; t_smooth_loss := smooth_loss;
       t_iter_num := iter_num; t_rng := g; t_printed := printed |}
  = Raise TypeError.
Proof.
  intros Hwf Hpos HV Hset Hlen.
  destruct (next_batch_spec data chars (seq_length m) 0 Hset)
    as (inputs & targets & Hnb & Hlin & Hltg & Hwin & _); [lia|].
  change (DataReader.set_pointer 0 (DataReader.init data chars (seq_length m)))
    with (DataReader.init data chars (seq_length m)) in Hnb.
  assert (Forall (λ ix, ix < vocab_size m)%nat inputs) as Hin.
  { rewrite HV. apply (window_in_vocab data chars (seq_length m) 0 0); [done|].
    intros i Hi. by destruct (Hwin i Hi) as (_ & -> & _). }
  assert (Forall (λ ix, ix < vocab_size m)%nat targets) as Htg.
  { rewrite HV. apply (window_in_vocab data chars (seq_length m) 0 1); [done|].
    intros i Hi. destruct (Hwin i Hi) as (_ & _ & _ & ->).
    f_equal. lia. }
  destruct (forward_Ok m Hwf inputs (np_zeros (hidden_size m) 1))
    as (k & Hfw & Hk); [apply shape_zeros|done|].
  pose proof (backward_Ok m Hwf inputs _ k targets Hpos Hlin Hk Hltg Htg) as Hbw.
  unfold train_step. cbn [t_model t_reader t_hprev].
  change (DataReader.just_started (DataReader.init data chars (seq_length m)))
    with true.
  rewrite Hnb, bind_Ok. cbv beta iota. cbn [of_option]. rewrite bind_Ok.
  rewrite Hfw, bind_Ok. cbv beta. rewrite Hbw, bind_Ok. cbv beta.
  by rewrite loss_raises_TypeError.
Qed.

End loss_facts.

(** ** Generation *)

Section predict_seed_facts.
Local Open Scope R_scope.
Import RNN.
Context {G : Type} (draw : list R → G → nat * G).

(** The input vector that [predict] builds: 1 at the index of every symbol of
    the seed, in one vector *)
Definition multi_hot (n : nat) (ixs : list nat) : tensor :=
  foldl (λ x ix, <[ix := [1]]> x) (np_zeros n 1) ixs.

Definition seed_ix (r : DataReader.t) (ch : ascii) : nat :=
  default 0%nat (DataReader.char_to_ix r !! ch).

(** [''.join(data_reader.ix_to_char[i] for i in ixes)] *)
Definition decode (r : DataReader.t) (ixes : list nat) : res (list ascii) :=
  mapM (λ i, of_option KeyError (DataReader.ix_to_char r !! i)) ixes.

(** The loop of [sample], from any input vector *)
Definition sample_from (m : RNN.t) (x h : tensor) (n : nat) (g : G)
  : res (list nat * G) :=
  '(_, _, ixes, g) ← for_loop (sample_step draw m) (x, h, [], g) (range n);
  Ok (ixes, g).

(** A symbol of the vocabulary of the reader, with an index of the model *)
Definition in_vocab (m : RNN.t) (r : DataReader.t) (ch : ascii) : Prop :=
  ∃ ix, DataReader.char_to_ix r !! ch = Some ix ∧ (ix < vocab_size m)%nat.

Lemma shape_multi_hot_step (n : nat) (x : tensor) (ixs : list nat) :
  shape n 1 x → shape n 1 (foldl (λ x ix, <[ix := [1]]> x) x ixs).
Proof.
  revert x. induction ixs as [|ix ixs IH]; intros x Hx; cbn; [done|].
  apply IH. eauto with shapes.
Qed.

Lemma shape_multi_hot (n : nat) (ixs : list nat) : shape n 1 (multi_hot n ixs).
Proof. apply shape_multi_hot_step, shape_zeros. Qed.

Lemma predict_seed_loop (m : RNN.t) (r : DataReader.t) (pre rest : list ascii)
    (x : tensor) (acc : list nat) :
  Forall (in_vocab m r) rest → shape (vocab_size m) 1 x →
  for_loop (λ '(x, ixes) i,
      ch ← of_option IndexError ((pre ++ rest) !! i);
      ix ← of_option KeyError (DataReader.char_to_ix r !! ch);
      x ← set_row ix 1 x;
      Ok (x, ixes ++ [ix])) (x, acc) (seq (length pre) (length rest))
  = Ok (foldl (λ x ix, <[ix := [1]]> x) x (seed_ix r <$> rest),
        acc ++ (seed_ix r <$> rest)).
Proof.
  revert pre x acc. induction rest as [|ch rest IH]; intros pre x acc Hv Hx.
  - cbn. by rewrite app_nil_r.
  - apply Forall_cons in Hv as [(ix & Hix & HixV) Hv].
    cbn [length seq for_loop]. rewrite list_lookup_middle by done.
    cbn [of_option]. rewrite bind_Ok, Hix. cbn [of_option]. rewrite bind_Ok.
    rewrite (set_row_Ok (vocab_size m) 1) by assumption. rewrite !bind_Ok.
    replace (pre ++ ch :: rest) with ((pre ++ [ch]) ++ rest)
      by by rewrite <- app_assoc.
    replace (S (length pre)) with (length (pre ++ [ch]))
      by (rewrite length_app; cbn; lia).
    rewrite IH by eauto with shapes.
    cbn [fmap list_fmap foldl]. unfold seed_ix at 3 5. rewrite Hix. cbn.
    by rewrite <- app_assoc.
Qed.

Lemma predict_seed_Ok (m : RNN.t) (r : DataReader.t) (start : list ascii) :
  Forall (in_vocab m r) start →
  predict_seed m r start
  = Ok (multi_hot (vocab_size m) (seed_ix r <$> start),
        np_zeros (hidden_size m) 1, seed_ix r <$> start).
Proof.
  intros Hv. unfold predict_seed, range. cbv zeta.
  pose proof (predict_seed_loop m r [] start (np_zeros (vocab_size m) 1) [] Hv
                (shape_zeros _ _)) as Hloop.
  cbn [length app] in Hloop. rewrite Hloop, bind_Ok. done.
Qed.

(** The indices already produced pass through the loop unchanged *)
Lemma sample_step_prefix (m : RNN.t) (pre : list nat) (i : nat)
    (x h : tensor) (acc : list nat) (g : G) :
  sample_step draw m (x, h, pre ++ acc, g) i
  = '(x', h', out, g') ← sample_step draw m (x, h, acc, g) i;
    Ok (x', h', pre ++ out, g').
Proof.
  unfold sample_step.
  destruct (hidden m x h) as [h1|]; [|done]. rewrite !bind_Ok.
  destruct (logits m h1) as [y|]; [|done]. rewrite !bind_Ok.
  destruct (np_exp y) as [e|]; [|done]. rewrite !bind_Ok.
  destruct (np_div_scalar e (np_sum e)) as [p|]; [|done]. rewrite !bind_Ok.
  destruct (np_random_choice draw (vocab_size m) (ravel p) g) as [[ix g1]|];
    [|done].
  rewrite !bind_Ok.
  destruct (set_row ix 1 (np_zeros (vocab_size m) 1)) as [x1|]; [|done].
  by rewrite !bind_Ok, <- app_assoc.
Qed.

Lemma sample_loop_prefix (m : RNN.t) (pre : list nat) (l : list nat)
    (x h : tensor) (acc : list nat) (g : G) :
  for_loop (sample_step draw m) (x, h, pre ++ acc, g) l
  = '(x', h', out, g') ← for_loop (sample_step draw m) (x, h, acc, g) l;
    Ok (x', h', pre ++ out, g').
Proof.
  revert x h acc g. induction l as [|i l IH]; intros x h acc g; [done|].
  cbn [for_loop]. rewrite sample_step_prefix.
  destruct (sample_step draw m (x, h, acc, g) i) as [[[[x1 h1] out] g1]|];
    [|done].
  rewrite !bind_Ok. apply IH.
Qed.

(** What [predict] does with the seed, whatever its length: it puts a 1
    at the index of every seed symbol in one input vector, sets the hidden
    state to zero, and then runs the loop of [sample] from that vector and
    that state; for a seed of one symbol that is [sample] itself, from the
    zero state and that symbol. *)
Lemma predict_samples_from_multi_hot_seed (m : RNN.t) (r : DataReader.t)
    (start : list ascii) (n : nat) (g : G) :
  Forall (in_vocab m r) start →
  predict_seed m r start
  = Ok (multi_hot (vocab_size m) (seed_ix r <$> start),
        np_zeros (hidden_size m) 1, seed_ix r <$> start)
  ∧ predict draw m r start n g
    = ('(out, g') ← sample_from m
                      (multi_hot (vocab_size m) (seed_ix r <$> start))
                      (np_zeros (hidden_size m) 1) n g;
       txt ← decode r ((seed_ix r <$> start) ++ out);
       Ok (txt, g'))
  ∧ (∀ (h : tensor) (ix : nat),
       sample draw m h ix n g
       = (x ← set_row ix 1 (np_zeros (vocab_size m) 1);
          sample_from m x h n g))
  ∧ ∀ ch : ascii, start = [ch] →
      predict draw m r start n g
      = ('(out, g') ← sample draw m (np_zeros (hidden_size m) 1)
                        (seed_ix r ch) n g;
         txt ← decode r (seed_ix r ch :: out);
         Ok (txt, g')).
Proof.
  intros Hv. pose proof (predict_seed_Ok m r start Hv) as Hseed.
  assert (predict draw m r start n g
    = ('(out, g') ← sample_from m
                      (multi_hot (vocab_size m) (seed_ix r <$> start))
                      (np_zeros (hidden_size m) 1) n g;
       txt ← decode r ((seed_ix r <$> start) ++ out);
       Ok (txt, g'))) as Hpredict.
  { unfold predict. rewrite Hseed, bind_Ok. cbv beta iota.
    change (predict_step draw m) with (sample_step draw m).
    pose proof (sample_loop_prefix m (seed_ix r <$> start) (range n)
                  (multi_hot (vocab_size m) (seed_ix r <$> start))
                  (np_zeros (hidden_size m) 1) [] g) as Hloop.
    rewrite app_nil_r in Hloop. rewrite Hloop. clear Hloop. unfold sample_from.
    destruct (for_loop (sample_step draw m) _ _) as [[[[x1 h1] out] g1]|];
      [|done].
    by rewrite !bind_Ok. }
  split; [exact Hseed|]. split; [exact Hpredict|]. split; [done|].
  intros ch ->. rewrite Hpredict. clear Hpredict Hseed.
  apply Forall_cons in Hv as [(ix & Hix & HixV) _].
  unfold seed_ix, sample. rewrite Hix. cbn [default from_option Datatypes.id].
  rewrite (set_row_Ok (vocab_size m) 1), bind_Ok by eauto with shapes.
  cbn [fmap list_fmap]. unfold seed_ix. rewrite Hix.
  cbn [default from_option Datatypes.id]. done.
Qed.

End predict_seed_facts.

Section small_models.
Local Open Scope R_scope.
Import RNN.

Lemma tanh_pos (x : R) : 0 < x → 0 < tanh x.
Proof.
  intros Hx. unfold tanh. apply Rdiv_lt_0_compat.
  - rewrite <- sinh_0. by apply sinh_lt.
  - unfold cosh. pose proof (exp_pos x). pose proof (exp_pos (- x)). lra.
Qed.

(** A model of two symbols and one hidden unit, and a reader of the corpus
    [ab] *)
Definition m_seed : RNN.t :=
  {| hidden_size := 1; vocab_size := 2; seq_length := 1; learning_rate := 0.1;
     U := [[1; 0]]; V := [[0]; [0]]; W := [[0]]; b := [[0]]; c := [[0]; [0]];
     mU := [[0; 0]]; mW := [[0]]; mV := [[0]; [0]]; mb := [[0]];
     mc := [[0]; [0]] |}.
Definition r_ab : DataReader.t :=
  DataReader.init ["a"; "b"]%char ["a"; "b"]%char 1.

Lemma m_seed_wf : wf_params m_seed.
Proof.
  unfold wf_params, params_shaped, shape. cbn.
  repeat split; try lia; repeat constructor.
Qed.

Lemma r_ab_in_vocab (m : RNN.t) (ch : ascii) :
  vocab_size m = 2%nat → ch ∈ ["a"; "b"]%char → in_vocab m r_ab ch.
Proof.
  intros HV Hch. unfold in_vocab.
  destruct (char_to_ix_is_Some ["a"; "b"]%char ch Hch) as [ix Hix].
  exists ix. split; [exact Hix|].
  apply char_to_ix_lookup, lookup_lt_Some in Hix. by rewrite HV.
Qed.

Lemma tanh_neg_lt (x : R) : x < 0 → tanh x < 0.
Proof.
  intros Hx. unfold tanh.
  assert (sinh x < 0) as Hs by (rewrite <- sinh_0; by apply sinh_lt).
  assert (0 < / cosh x) as Hc.
  { apply Rinv_0_lt_compat. unfold cosh.
    pose proof (exp_pos x). pose proof (exp_pos (- x)). lra. }
  unfold Rdiv. nra.
Qed.

Lemma div_lt_1 (y c : R) : 0 < c → y < c → y / c < 1.
Proof.
  intros Hc Hy. apply (Rmult_lt_reg_r c); [done|].
  unfold Rdiv. rewrite Rmult_assoc, Rinv_l by lra. lra.
Qed.

Lemma tanh_bounds (x : R) : -1 < tanh x < 1.
Proof.
  unfold tanh, sinh, cosh.
  pose proof (exp_pos x). pose proof (exp_pos (- x)).
  set (a := exp x) in *. set (b := exp (- x)) in *. split.
  - assert (- ((a - b) / 2 / ((a + b) / 2)) < 1); [|lra].
    replace (- ((a - b) / 2 / ((a + b) / 2)))
      with ((b - a) / 2 / ((a + b) / 2)) by (field; lra).
    apply div_lt_1; lra.
  - apply div_lt_1; lra.
Qed.

(** A model of two symbols and one hidden unit whose state tells the two
    symbols apart: [a] pushes it up, [b] pulls it down, and the first logit
    is the state *)
Definition m_two : RNN.t :=
  {| hidden_size := 1; vocab_size := 2; seq_length := 2; learning_rate := 0.1;
     U := [[2; -1]]; V := [[1]; [0]]; W := [[0]]; b := [[0]];
     c := [[0]; [0]];
     mU := [[0; 0]]; mW := [[0]]; mV := [[0]; [0]]; mb := [[0]];
     mc := [[0]; [0]] |}.

Lemma m_two_wf : wf_params m_two.
Proof.
  unfold wf_params, params_shaped, shape. cbn.
  repeat split; try lia; repeat constructor.
Qed.

End small_models.

(** ** Overflow and underflow of the exponential *)

Section overflow_facts.
Local Open Scope R_scope.
Import RNN.

Lemma exp_INR (n : nat) : exp (INR n) = exp 1 ^ n.
Proof.
  induction n as [|n IH]; [cbn; apply exp_0|].
  rewrite S_INR, exp_plus, IH. cbn [pow]. lra.
Qed.

Lemma float_max_lt_pow : float_max < 2 ^ 1024.
Proof.
  unfold float_max. change (2 ^ 1024) with (2 * 2 ^ 1023).
  pose proof (pow_lt 2 1023 ltac:(lra)).
  pose proof (pow_lt 2 52 ltac:(lra)).
  assert (0 < / 2 ^ 52) by by apply Rinv_0_lt_compat.
  nra.
Qed.

Lemma exp_2000_overflows : float_max < exp 2000.
Proof.
  replace 2000 with (INR 2000) by (rewrite INR_IZR_INZ; reflexivity).
  rewrite exp_INR.
  pose proof float_max_lt_pow.
  assert (2 ^ 1024 <= 2 ^ 2000) by (apply Rle_pow; [lra|lia]).
  assert (2 ^ 2000 <= exp 1 ^ 2000); [|lra].
  apply pow_incr. pose proof (exp_ineq1 1 ltac:(lra)). lra.
Qed.

Lemma exp_f_overflow (v : R) : float_max < exp v → exp_f v = Raise NonFinite.
Proof. intros Hv. unfold exp_f. case_decide; [lra|done]. Qed.

(** A model whose first logit is 2000 whatever the hidden state is *)
Definition m_over : RNN.t :=
  {| hidden_size := 1; vocab_size := 2; seq_length := 1; learning_rate := 0.1;
     U := [[0; 0]]; V := [[0]; [0]]; W := [[0]]; b := [[0]];
     c := [[2000]; [0]];
     mU := [[0; 0]]; mW := [[0]]; mV := [[0]; [0]]; mb := [[0]];
     mc := [[0]; [0]] |}.

Lemma m_over_wf : wf_params m_over.
Proof.
  unfold wf_params, params_shaped, shape. cbn.
  repeat split; try lia; repeat constructor.
Qed.

(** One turn of the sampling loop on [m_over] *)
Lemma m_over_step_overflows {G : Type} (draw : list R → G → nat * G)
    (x h : tensor) (ixes : list nat) (g : G) (i : nat) :
  shape 2 1 x → shape 1 1 h →
  sample_step draw m_over (x, h, ixes, g) i = Raise NonFinite.
Proof.
  intros Hx Hh. unfold sample_step.
  pose proof (shape_hidden_value m_over m_over_wf x h Hx Hh) as Hh'.
  rewrite (hidden_Ok m_over m_over_wf x h Hx Hh), bind_Ok. cbv beta.
  rewrite (logits_Ok m_over m_over_wf _ Hh'), bind_Ok. cbv beta.
  destruct (shape_1_1 _ Hh') as [v ->]. cbn.
  rewrite (exp_f_overflow (0 * v + 0 + 2000)); [done|].
  replace (0 * v + 0 + 2000) with 2000 by lra.
  apply exp_2000_overflows.
Qed.






(** C9.  On a model whose logits are large, [forward] still returns its
    distributions, its softmax subtracting the maximum, while [sample] and
    [predict], which divide [np.exp(y)] by its sum, overflow in [np.exp] and
    raise. *)
Theorem sample_softmax_overflows {G : Type} (draw : list R → G → nat * G)
    (g : G) :
  (∃ k, forward m_over [0%nat] [[0]] = Ok k)
  ∧ sample draw m_over [[0]] 0 1 g = Raise NonFinite
  ∧ predict draw m_over r_ab ["a"]%char 1 g = Raise NonFinite.
Proof.
  assert (shape 1 1 [[0]]) as Hh by (split; [done|repeat constructor]).
  split; [|split].
  - destruct (forward_Ok m_over m_over_wf [0%nat] [[0]]) as (k & Hk & _);
      [done|repeat constructor|by exists k].
  - unfold sample. change (vocab_size m_over) with 2%nat.
    rewrite (set_row_Ok 2 1), bind_Ok by (cbn; eauto with shapes).
    cbn [range seq for_loop].
    by rewrite m_over_step_overflows by eauto with shapes.
  - unfold predict. rewrite predict_seed_Ok, bind_Ok.
    + cbv beta iota. cbn [range seq for_loop].
      change (predict_step draw m_over) with (sample_step draw m_over).
      by rewrite m_over_step_overflows
        by (apply (shape_multi_hot 2) || apply shape_zeros).
    + apply Forall_cons; split; [|done].
      apply r_ab_in_vocab; [done|]. apply elem_of_cons. by left.
Qed.

End overflow_facts.

Section generation_facts.
Local Open Scope R_scope.
Import RNN.
Context {G : Type} (draw : list R → G → nat * G).

(** What numpy guarantees of [np.random.choice]: an index of the
    distribution *)
Definition draw_in_range : Prop :=
  ∀ (p : list R) (g : G),
    Forall (λ v, 0 <= v) p → Rsum p = 1 → ((draw p g).1 < length p)%nat.

(** Whatever the input vector and the state, [np.exp] of the logits can be
    divided by its sum: the exponentials and their sum are no more than the
    largest double, and one exponential at least is not flushed to zero *)
Definition logits_bounded (m : RNN.t) : Prop :=
  ∀ x h : tensor,
    shape (vocab_size m) 1 x → shape (hidden_size m) 1 h →
    let y := logits_value m (hidden_value m x h) in
    Rsum (exp <$> entries y) <= float_max
    ∧ Exists (λ v, float_tiny < exp v) (entries y).

Lemma length_entries (r c : nat) (a : tensor) :
  shape r c a → length (entries a) = (r * c)%nat.
Proof.
  intros [<- Ha]. unfold entries.
  induction Ha as [|row a Hrow _ IH]; cbn; [done|].
  rewrite length_app, IH, Hrow. done.
Qed.

Lemma exp_sum_bound (l : list R) :
  Rsum (exp <$> l) <= float_max → Forall (λ v, exp v <= float_max) l.
Proof.
  intros Hs. apply Forall_forall. intros v Hv.
  assert (exp v <= Rsum (exp <$> l)); [|lra].
  apply Rsum_ge_elem.
  - rewrite Forall_fmap. apply Forall_true. intros w. cbn.
    apply Rlt_le, exp_pos.
  - apply list_elem_of_fmap. by exists v.
Qed.

(** [np.exp(y) / np.sum(np.exp(y))] where no entry overflows and one at
    least is not flushed to zero *)
Lemma naive_softmax_Ok (y : tensor) :
  Forall (λ v, exp v <= float_max) (entries y) →
  Exists (λ v, float_tiny < exp v) (entries y) →
  ∃ p, (e ← np_exp y; np_div_scalar e (np_sum e)) = Ok p
    ∧ p = tmap (λ v, v / np_sum (tmap exp_flush y)) (tmap exp_flush y)
    ∧ Forall (λ v, 0 <= v) (entries p) ∧ np_sum p = 1.
Proof.
  intros Hb Hex.
  assert (0 < np_sum (tmap exp_flush y)) as Hs.
  { apply Exists_exists in Hex as (v & Hv & Hlt).
    pose proof float_tiny_bounds.
    assert (exp_flush v <= np_sum (tmap exp_flush y)) as Hle.
    { unfold np_sum. rewrite entries_tmap. apply Rsum_ge_elem.
      - rewrite Forall_fmap. apply Forall_true. intros w.
        apply exp_flush_nonneg.
      - apply list_elem_of_fmap. by exists v. }
    assert (exp_flush v = exp v) as Heq.
    { unfold exp_flush. case_decide; [lra|done]. }
    rewrite Heq in Hle. lra. }
  eexists. split; [|split; [reflexivity|]].
  - assert (np_exp y = Ok (tmap exp_flush y)) as ->.
    { apply tmapM_Ok. eapply Forall_impl; [exact Hb|]. cbn. intros v Hv.
      unfold exp_f. by case_decide. }
    rewrite bind_Ok. apply tmapM_Ok, Forall_true. intros v.
    unfold div_f. case_decide as Hz; [lra|done].
  - assert (0 < / np_sum (tmap exp_flush y)) by by apply Rinv_0_lt_compat.
    split.
    + rewrite !entries_tmap, !Forall_fmap. apply Forall_true. intros v. cbn.
      pose proof (exp_flush_nonneg v). unfold Rdiv. nra.
    + unfold np_sum at 1. rewrite entries_tmap, Rsum_scale.
      fold (np_sum (tmap exp_flush y)). field. lra.
Qed.

(** The array [np.exp(y) / np.sum(np.exp(y))] *)
Definition naive_value (y : tensor) : tensor :=
  tmap (λ v, v / np_sum (tmap exp_flush y)) (tmap exp_flush y).



Context (m : RNN.t) (Hwf : wf_params m).
Context (Hdraw : draw_in_range) (Hlog : logits_bounded m).

(** A turn of the loop on a model whose logits stay in range: the
    distribution passed to [np.random.choice], and the state that the turn
    leaves when the index drawn is one of the vocabulary *)
Lemma sample_step_naive (x h : tensor) (ixes : list nat) (g : G) (i : nat) :
  shape (vocab_size m) 1 x → shape (hidden_size m) 1 h →
  let h' := hidden_value m x h in
  let d := draw (ravel (naive_value (logits_value m h'))) g in
  (d.1 < vocab_size m)%nat →
  sample_step draw m (x, h, ixes, g) i
  = Ok (one_hot (vocab_size m) d.1, h', ixes ++ [d.1], d.2).
Proof.
  intros Hx Hh h' d Hd.
  pose proof (shape_hidden_value m Hwf x h Hx Hh) as Hh'.
  pose proof (shape_logits_value m Hwf _ Hh') as Hy.
  pose proof Hwf as (HH & HV & _).
  destruct (Hlog x h Hx Hh) as [Hbound Hex].
  destruct (naive_softmax_Ok (logits_value m (hidden_value m x h)))
    as (p & Hp & Hpeq & Hnn & Hsum); [by apply exp_sum_bound|done|].
  fold (naive_value (logits_value m (hidden_value m x h))) in Hpeq. subst p.
  unfold h' in *. unfold sample_step.
  rewrite (hidden_Ok m Hwf x h Hx Hh), bind_Ok. cbv beta.
  rewrite (logits_Ok m Hwf _ Hh'), bind_Ok. cbv beta.
  apply bind_Ok_inv in Hp as (e & He & Hp). rewrite He, bind_Ok. cbv beta.
  rewrite Hp, bind_Ok. cbv beta.
  unfold np_random_choice. case_decide as Hc.
  2:{ destruct Hc. split; [|done].
      unfold ravel. fold (entries (naive_value (logits_value m (hidden_value m x h)))).
      rewrite (length_entries (vocab_size m) 1); [lia|].
      unfold naive_value. eauto with shapes. }
  rewrite bind_Ok. fold d. destruct d as [ix g'] eqn:Ed. cbv beta iota.
  cbn [fst snd] in *.
  by rewrite (one_hot_Ok m) by done.
Qed.

Lemma sample_step_Ok (x h : tensor) (ixes : list nat) (g : G) (i : nat) :
  shape (vocab_size m) 1 x → shape (hidden_size m) 1 h →
  ∃ ix h' g',
    sample_step draw m (x, h, ixes, g) i
    = Ok (one_hot (vocab_size m) ix, h', ixes ++ [ix], g')
    ∧ (ix < vocab_size m)%nat ∧ shape (hidden_size m) 1 h'.
Proof.
  intros Hx Hh.
  pose proof (shape_hidden_value m Hwf x h Hx Hh) as Hh'.
  pose proof (shape_logits_value m Hwf _ Hh') as Hy.
  pose proof Hwf as (HH & HV & _).
  destruct (Hlog x h Hx Hh) as [Hbound Hex].
  destruct (naive_softmax_Ok (logits_value m (hidden_value m x h)))
    as (p & Hp & Hpeq & Hnn & Hsum); [by apply exp_sum_bound|done|].
  assert (length (ravel p) = vocab_size m) as Hlen.
  { unfold ravel. fold (entries p). rewrite (length_entries (vocab_size m) 1).
    - lia.
    - rewrite Hpeq. eauto with shapes. }
  pose proof (Hdraw (ravel p) g Hnn Hsum) as Hix. rewrite Hlen in Hix.
  destruct (draw (ravel p) g) as [ix g'] eqn:Ed. cbn [fst] in Hix.
  exists ix, (hidden_value m x h), g'. split; [|done].
  unfold sample_step.
  rewrite (hidden_Ok m Hwf x h Hx Hh), bind_Ok. cbv beta.
  rewrite (logits_Ok m Hwf _ Hh'), bind_Ok. cbv beta.
  apply bind_Ok_inv in Hp as (e & He & Hp). rewrite He, bind_Ok. cbv beta.
  rewrite Hp, bind_Ok. cbv beta.
  unfold np_random_choice. case_decide as Hd.
  2:{ destruct Hd. done. }
  rewrite bind_Ok, Ed. cbv beta iota.
  by rewrite (one_hot_Ok m) by done.
Qed.

Lemma sample_loop_Ok (l : list nat) (x h : tensor) (ixes : list nat) (g : G) :
  shape (vocab_size m) 1 x → shape (hidden_size m) 1 h →
  ∃ x' h' out g',
    for_loop (sample_step draw m) (x, h, ixes, g) l
    = Ok (x', h', ixes ++ out, g')
    ∧ length out = length l ∧ Forall (λ ix, ix < vocab_size m)%nat out.
Proof.
  revert x h ixes g. induction l as [|i l IH]; intros x h ixes g Hx Hh.
  - exists x, h, [], g. by rewrite app_nil_r.
  - destruct (sample_step_Ok x h ixes g i Hx Hh) as (ix & h1 & g1 & Hs & Hix & Hh1).
    destruct (IH (one_hot (vocab_size m) ix) h1 (ixes ++ [ix]) g1)
      as (x' & h' & out & g' & Hl & Hlen & Hout);
      [apply shape_one_hot|done|].
    exists x', h', (ix :: out), g'. cbn [for_loop length].
    rewrite Hs, bind_Ok, Hl, <- app_assoc. split; [done|]. split; [lia|].
    by constructor.
Qed.

End generation_facts.

Section predict_facts.
Local Open Scope R_scope.
Import RNN.
Context {G : Type} (draw : list R → G → nat * G).





End predict_facts.

(** ** Construction *)

Section init_facts.
Local Open Scope R_scope.
Import RNN.
Context {G : Type}.

(** What numpy guarantees of [np.random.uniform(lo, hi, (r, c))] *)
Definition uniform_ok (uniform : R → R → nat → nat → G → tensor * G) : Prop :=
  ∀ (lo hi : R) (r c : nat) (g : G),
    lo < hi →
    shape r c (uniform lo hi r c g).1
    ∧ Forall (λ v, lo <= v < hi) (entries (uniform lo hi r c g).1).

(** The bound [np.sqrt(1. / n)] of the initial weights *)
Definition init_bound (n : nat) : R := sqrt (1 / INR n).

Definition within (bound : R) (a : tensor) : Prop :=
  Forall (λ v, - bound <= v <= bound) (entries a).

Lemma init_bound_Ok (n : nat) :
  (0 < n)%nat →
  (q ← py_fdiv 1 (INR n); sqrt_f q) = Ok (init_bound n) ∧ 0 < init_bound n.
Proof.
  intros Hn. assert (0 < INR n) as Hpos by (apply lt_0_INR; lia).
  assert (0 < 1 / INR n) as Hq by (apply Rdiv_lt_0_compat; lra).
  split; [|by apply sqrt_lt_R0].
  unfold py_fdiv. case_decide; [lra|]. rewrite bind_Ok.
  unfold sqrt_f. case_decide; [done|lra].
Qed.

Lemma zeros_nonneg (r c : nat) : nonneg (np_zeros r c).
Proof.
  unfold nonneg. eapply Forall_impl; [apply entries_zeros|].
  cbn. intros v ->. lra.
Qed.

Lemma zeros_within (bound : R) (r c : nat) :
  0 <= bound → within bound (np_zeros r c).
Proof.
  intros Hb. unfold within. eapply Forall_impl; [apply entries_zeros|].
  cbn. intros v ->. lra.
Qed.

Context (draw : list R → G → nat * G).
Context (uniform : R → R → nat → nat → G → tensor * G).

(** The model that the constructor returns *)
Definition init_value (nH nV L : nat) (lr : R) (g : G) : RNN.t :=
  let uU := uniform (- init_bound nV) (init_bound nV) nH nV g in
  let uV := uniform (- init_bound nH) (init_bound nH) nV nH uU.2 in
  let uW := uniform (- init_bound nH) (init_bound nH) nH nH uV.2 in
  {| hidden_size := nH; vocab_size := nV; seq_length := L;
     learning_rate := lr;
     U := uU.1; V := uV.1; W := uW.1;
     b := np_zeros nH 1; c := np_zeros nV 1;
     mU := np_zeros_like uU.1; mW := np_zeros_like uW.1;
     mV := np_zeros_like uV.1; mb := np_zeros_like (np_zeros nH 1);
     mc := np_zeros_like (np_zeros nV 1) |}.

Lemma init_Ok (nH nV L : nat) (lr : R) (g : G) :
  (0 < nH)%nat → (0 < nV)%nat →
  let uU := uniform (- init_bound nV) (init_bound nV) nH nV g in
  let uV := uniform (- init_bound nH) (init_bound nH) nV nH uU.2 in
  let uW := uniform (- init_bound nH) (init_bound nH) nH nH uV.2 in
  init uniform nH nV L lr g = Ok (init_value nH nV L lr g, uW.2).
Proof.
  intros HH HV. unfold init_value. cbv zeta.
  destruct (init_bound_Ok nH HH) as [EH _].
  destruct (init_bound_Ok nV HV) as [EV _].
  unfold init.
  apply bind_Ok_inv in EV as (qV & EqV & EsV).
  apply bind_Ok_inv in EH as (qH & EqH & EsH).
  rewrite EqV, EqH.
  repeat (rewrite ?EsV, ?EsH, bind_Ok; cbv beta).
  destruct (uniform (- init_bound nV) (init_bound nV) nH nV g) as [aU g1].
  cbn [fst snd].
  repeat (rewrite ?EsV, ?EsH, bind_Ok; cbv beta).
  destruct (uniform (- init_bound nH) (init_bound nH) nV nH g1) as [aV g2].
  cbn [fst snd].
  repeat (rewrite ?EsV, ?EsH, bind_Ok; cbv beta).
  destruct (uniform (- init_bound nH) (init_bound nH) nH nH g2) as [aW g3].
  reflexivity.
Qed.

(** C4, as the code has it.  The constructor draws [U], [V] and [W], each
    once and in this order, from the uniform generator with the range
    [±1/√in_dim] ([in_dim] the vocabulary size for [U], the hidden size for
    [V] and [W]) and sets the biases [b] and [c] to zero: every entry of
    the five arrays lies within that range.  Afterwards a call on the model
    either leaves it as it is or is an [update_model]: nothing draws the
    parameters again. *)
Theorem init_draws_weights_and_zeroes_biases (nH nV L : nat) (lr : R) (g : G) :
  uniform_ok uniform → (0 < nH)%nat → (0 < nV)%nat →
  let uU := uniform (- init_bound nV) (init_bound nV) nH nV g in
  let uV := uniform (- init_bound nH) (init_bound nH) nV nH uU.2 in
  let uW := uniform (- init_bound nH) (init_bound nH) nH nH uV.2 in
  ∃ m, init uniform nH nV L lr g = Ok (m, uW.2)
    ∧ U m = uU.1 ∧ V m = uV.1 ∧ W m = uW.1
    ∧ b m = np_zeros nH 1 ∧ c m = np_zeros nV 1
    ∧ within (init_bound nV) (U m) ∧ within (init_bound nH) (V m)
    ∧ within (init_bound nH) (W m) ∧ within (init_bound nH) (b m)
    ∧ within (init_bound nV) (c m)
    ∧ wf_params m ∧ accs_ok m
    ∧ ∀ (call : core_call) (m1 m2 : RNN.t),
        exec draw m1 call = Ok m2 →
        m2 = m1 ∨ ∃ gr, call = CallUpdate gr ∧ update_model m1 gr = Ok m2.
Proof.
  intros Hu HH HV uU uV uW.
  destruct (init_bound_Ok nH HH) as [_ HbH].
  destruct (init_bound_Ok nV HV) as [_ HbV].
  destruct (Hu (- init_bound nV) (init_bound nV) nH nV g) as [HsU HrU]; [lra|].
  destruct (Hu (- init_bound nH) (init_bound nH) nV nH uU.2) as [HsV HrV]; [lra|].
  destruct (Hu (- init_bound nH) (init_bound nH) nH nH uV.2) as [HsW HrW]; [lra|].
  fold uU in HsU, HrU. fold uV in HsV, HrV. fold uW in HsW, HrW.
  exists (init_value nH nV L lr g). split; [by apply init_Ok|].
  unfold init_value. cbv zeta. fold uU. fold uV. fold uW. cbn [U V W b c].
  assert (∀ bd a, Forall (λ v, - bd <= v < bd) (entries a) → within bd a) as Hw.
  { intros bd a Ha. eapply Forall_impl; [exact Ha|]. cbn. intros; lra. }
  repeat (split; [done || (by apply Hw) || (apply zeros_within; lra)|]).
  split; [|split].
  - repeat split; cbn; try done; try apply shape_zeros;
      apply HsU || apply HsV || apply HsW.
  - unfold accs_ok. cbn.
    rewrite (zeros_like_shape _ _ _ HsU), (zeros_like_shape _ _ _ HsV),
      (zeros_like_shape _ _ _ HsW),
      (zeros_like_shape _ _ _ (shape_zeros nH 1)),
      (zeros_like_shape _ _ _ (shape_zeros nV 1)).
    repeat split; try apply shape_zeros; apply zeros_nonneg.
  - intros call m1 m2 Hex. destruct call; cbn [exec] in Hex;
      try (apply bind_Ok_inv in Hex as (? & _ & [= <-]); by left).
    right. eauto.
Qed.

End init_facts.

(** ** The statements at concrete inputs *)

Section instances.
Local Open Scope R_scope.
Import RNN.

(** A generator that always returns the first index, and one that fills the
    array with the point three quarters of the way from [lo] to [hi] *)
Definition draw_first (p : list R) (g : unit) : nat * unit := (0%nat, g).
Definition uniform_q (lo hi : R) (r c : nat) (g : unit) : tensor * unit :=
  (replicate r (replicate c ((lo + 3 * hi) / 4)), g).

Lemma draw_first_in_range : draw_in_range draw_first.
Proof.
  intros p g _ Hsum. cbn. destruct p; cbn; [|lia].
  unfold Rsum in Hsum. cbn in Hsum. lra.
Qed.

Lemma uniform_q_ok : uniform_ok uniform_q.
Proof.
  intros lo hi r c g Hlt. cbn. split.
  { split; [apply length_replicate|].
    apply Forall_replicate, length_replicate. }
  unfold entries. induction r as [|r IH]; cbn; [done|].
  apply Forall_app. split; [|done]. apply Forall_replicate. lra.
Qed.

Lemma m_seed_logits_bounded : logits_bounded m_seed.
Proof.
  intros x h Hx Hh.
  destruct (shape_1_1 _ (shape_hidden_value m_seed m_seed_wf x h Hx Hh))
    as [v ->].
  cbn. pose proof float_max_ge_8. pose proof float_tiny_bounds.
  replace (0 * v + 0 + 0) with 0 by lra. rewrite exp_0.
  split; [lra|]. apply Exists_cons_hd. rewrite exp_0. lra.
Qed.

Lemma m_seed_params_shaped : params_shaped m_seed.
Proof. apply m_seed_wf. Qed.

Lemma m_seed_accs_ok : accs_ok m_seed.
Proof.
  unfold accs_ok, shape, nonneg. cbn.
  repeat split; try done; repeat constructor; lra.
Qed.

Lemma set_order_aba : DataReader.set_order ["a"; "b"; "a"]%char ["a"; "b"]%char.
Proof.
  split.
  - apply NoDup_cons_2; [|apply NoDup_singleton].
    by intros [=]%list_elem_of_singleton.
  - intros ch. rewrite !elem_of_cons, !elem_of_nil. tauto.
Qed.

(** C6 at the logits [1, 3] *)
Lemma softmax_sums_to_one_and_shift_invariant_witness :
  entries [[1]; [3]] ≠ []
  ∧ ∃ p, softmax [[1]; [3]] = Ok p ∧ np_sum p = 1
         ∧ ∀ k : R, softmax (tmap (λ v, v + k) [[1]; [3]]) = Ok p.
Proof.
  assert (entries [[1]; [3]] ≠ []) as Hne by done.
  split; [exact Hne|].
  exact (softmax_sums_to_one_and_shift_invariant [[1]; [3]] Hne).
Defined.

Lemma set_order_ababa :
  DataReader.set_order ["a"; "b"; "a"; "b"; "a"]%char ["a"; "b"]%char.
Proof.
  split.
  - apply NoDup_cons_2; [|apply NoDup_singleton].
    by intros [=]%list_elem_of_singleton.
  - intros ch. rewrite !elem_of_cons, !elem_of_nil. tauto.
Qed.

(** C2 at the corpus [ababa] with windows of two symbols, at the fourth
    call *)
Lemma next_batch_full_shifted_windows_witness :
  DataReader.set_order ["a"; "b"; "a"; "b"; "a"]%char ["a"; "b"]%char
  ∧ (2 + 1 ≤ length ["a"; "b"; "a"; "b"; "a"]%char)%nat
  ∧ ∃ r inputs targets r',
      after_calls 3
        (DataReader.init ["a"; "b"; "a"; "b"; "a"]%char ["a"; "b"]%char 2)
      = Ok r
      ∧ DataReader.data r = ["a"; "b"; "a"; "b"; "a"]%char
      ∧ DataReader.next_batch r = Ok ((inputs, targets), r')
      ∧ length inputs = 2%nat ∧ length targets = 2%nat
      ∧ (∀ i, (i < 2)%nat →
           is_Some (inputs !! i)
           ∧ inputs !! i = corpus_ix r (DataReader.pointer r + i)
           ∧ is_Some (targets !! i)
           ∧ targets !! i = corpus_ix r (DataReader.pointer r + i + 1))
      ∧ (∀ i, (i + 1 < 2)%nat → targets !! i = inputs !! (i + 1)%nat)
      ∧ ((length ["a"; "b"; "a"; "b"; "a"]%char
          < DataReader.pointer r + 2 + 2 + 1)%nat
         → DataReader.pointer r' = 0%nat)
      ∧ (DataReader.pointer r' + 2 + 1
         ≤ length ["a"; "b"; "a"; "b"; "a"]%char)%nat.
Proof.
  assert (2 + 1 ≤ length ["a"; "b"; "a"; "b"; "a"]%char)%nat as Hlen
    by (cbn; lia).
  split; [exact set_order_ababa|]. split; [exact Hlen|].
  exact (next_batch_full_shifted_windows _ _ 2 3 set_order_ababa Hlen).
Defined.


(** C7 at the model [m_seed] *)
Lemma update_model_zero_gradient_keeps_parameters_witness :
  params_shaped m_seed ∧ accs_ok m_seed
  ∧ ∃ m', update_model m_seed (zero_grads m_seed) = Ok m'
      ∧ U m' = U m_seed ∧ W m' = W m_seed ∧ V m' = V m_seed
      ∧ b m' = b m_seed ∧ c m' = c m_seed.
Proof.
  split; [exact m_seed_params_shaped|]. split; [exact m_seed_accs_ok|].
  exact (update_model_zero_gradient_keeps_parameters m_seed
           m_seed_params_shaped m_seed_accs_ok).
Defined.

(** A gradient of ones for [m_seed] *)
Definition g_ones : grads :=
  {| dU := [[1; 1]]; dW := [[1]]; dV := [[1]; [1]]; db := [[1]];
     dc := [[1]; [1]] |}.

Lemma g_ones_shape : grads_shape m_seed g_ones.
Proof.
  unfold grads_shape, shape. cbn. repeat split; repeat constructor.
Qed.

Lemma run_update_g_ones :
  for_loop (exec draw_first) m_seed [CallUpdate g_ones]
  = Ok (updated m_seed g_ones).
Proof.
  destruct (update_model_Ok m_seed g_ones m_seed_params_shaped m_seed_accs_ok
              g_ones_shape) as [Hup _].
  cbn [for_loop exec]. by rewrite Hup.
Qed.

(** C8 at one update of [m_seed] with the gradient of ones *)
Lemma accumulators_never_decrease_witness :
  for_loop (exec draw_first) m_seed [CallUpdate g_ones]
  = Ok (updated m_seed g_ones)
  ∧ acc_le m_seed (updated m_seed g_ones)
  ∧ (Forall (λ call : @core_call unit, ¬ is_update call) [CallUpdate g_ones] →
     updated m_seed g_ones = m_seed).
Proof.
  split; [exact run_update_g_ones|].
  exact (accumulators_never_decrease draw_first [CallUpdate g_ones] m_seed
           (updated m_seed g_ones) run_update_g_ones).
Defined.

Lemma seed_ab_in_vocab : Forall (in_vocab m_seed r_ab) ["a"; "b"]%char.
Proof.
  apply Forall_cons; split; [|apply Forall_cons; split; [|done]];
    (apply r_ab_in_vocab; [done|]); rewrite !elem_of_cons; tauto.
Qed.

(** C5 at the model [m_seed] and the corpus [aba] *)
Lemma train_step_raises_at_loss_witness :
  wf_params m_seed ∧ (0 < seq_length m_seed)%nat
  ∧ vocab_size m_seed = length ["a"; "b"]%char
  ∧ DataReader.set_order ["a"; "b"; "a"]%char ["a"; "b"]%char
  ∧ (seq_length m_seed + 1 ≤ length ["a"; "b"; "a"]%char)%nat
  ∧ train_step draw_first
      {| t_model := m_seed;
         t_reader := DataReader.init ["a"; "b"; "a"]%char ["a"; "b"]%char
                       (seq_length m_seed);
         t_hprev := None; t_smooth_loss := 1; t_iter_num := 0; t_rng := tt;
         t_printed := [] |}
    = Raise TypeError.
Proof.
  assert (0 < seq_length m_seed)%nat as H1 by (cbn; lia).
  assert (vocab_size m_seed = length ["a"; "b"]%char) as H2 by reflexivity.
  assert (seq_length m_seed + 1 ≤ length ["a"; "b"; "a"]%char)%nat as H3
    by (cbn; lia).
  split; [exact m_seed_wf|]. split; [exact H1|]. split; [exact H2|].
  split; [exact set_order_aba|]. split; [exact H3|].
  exact (train_step_raises_at_loss draw_first m_seed ["a"; "b"; "a"]%char
           ["a"; "b"]%char None 1 0%nat tt [] m_seed_wf H1 H2 set_order_aba H3).
Defined.

(** C4 fails: with a generator that never returns 0, the biases of the
    constructed model are no draw of it, whatever the bound and the state of
    the generator. *)
Lemma init_biases_are_not_drawn :
  ∃ m, init uniform_q 1 2 1 0.1 tt = Ok (m, tt)
    ∧ (∀ (bound : R) (g : unit),
         0 < bound → b m ≠ (uniform_q (- bound) bound 1 1 g).1)
    ∧ (∀ (bound : R) (g : unit),
         0 < bound → c m ≠ (uniform_q (- bound) bound 2 1 g).1).
Proof.
  exists (init_value uniform_q 1 2 1 0.1 tt).
  split; [apply (init_Ok uniform_q 1 2 1 0.1 tt); lia|].
  split; intros bound g Hb; cbn; intros [= Heq]; lra.
Qed.

(** C4, as the code has it, at one hidden unit and two symbols *)
Lemma init_draws_weights_and_zeroes_biases_witness :
  uniform_ok uniform_q ∧ (0 < 1)%nat ∧ (0 < 2)%nat
  ∧ ∃ m, init uniform_q 1 2 1 0.1 tt = Ok (m, tt)
      ∧ U m = (uniform_q (- init_bound 2) (init_bound 2) 1 2 tt).1
      ∧ V m = (uniform_q (- init_bound 1) (init_bound 1) 2 1 tt).1
      ∧ W m = (uniform_q (- init_bound 1) (init_bound 1) 1 1 tt).1
      ∧ b m = np_zeros 1 1 ∧ c m = np_zeros 2 1
      ∧ within (init_bound 2) (U m) ∧ within (init_bound 1) (V m)
      ∧ within (init_bound 1) (W m) ∧ within (init_bound 1) (b m)
      ∧ within (init_bound 2) (c m)
      ∧ wf_params m ∧ accs_ok m
      ∧ ∀ (call : core_call) (m1 m2 : RNN.t),
          exec draw_first m1 call = Ok m2 →
          m2 = m1 ∨ ∃ gr, call = CallUpdate gr ∧ update_model m1 gr = Ok m2.
Proof.
  assert (0 < 1)%nat as H1 by lia. assert (0 < 2)%nat as H2 by lia.
  split; [exact uniform_q_ok|]. split; [exact H1|]. split; [exact H2|].
  exact (init_draws_weights_and_zeroes_biases draw_first uniform_q 1 2 1 0.1 tt
           uniform_q_ok H1 H2).
Defined.

Lemma seed_ab_two : Forall (in_vocab m_two r_ab) ["a"; "b"]%char.
Proof.
  apply Forall_cons; split; [|apply Forall_cons; split; [|done]];
    (apply r_ab_in_vocab; [done|]); rewrite !elem_of_cons; tauto.
Qed.

(** A generator that records the distribution it is called with and
    returns the first index *)
Definition draw_log (p : list R) (g : list (list R)) : nat * list (list R) :=
  (0%nat, g ++ [p]).

Lemma m_two_hidden (x0 x1 h0 : R) :
  hidden_value m_two [[x0]; [x1]] [[h0]]
  = [[tanh (2 * x0 + (-1 * x1 + 0) + (0 * h0 + 0) + 0)]].
Proof. reflexivity. Qed.

Lemma m_two_logits (t : R) :
  logits_value m_two [[t]] = [[1 * t + 0 + 0]; [0 * t + 0 + 0]].
Proof. reflexivity. Qed.

Lemma m_two_logits_bounded : logits_bounded m_two.
Proof.
  intros x h Hx Hh. unfold hidden_value.
  destruct (shape_1_1 (tzip Rplus (tzip Rplus (matmul (U m_two) x)
                                     (matmul (W m_two) h)) (b m_two)))
    as [v ->].
  { destruct m_two_wf as (? & ? & ? & ? & ? & ? & ?). eauto 10 with shapes. }
  change (np_tanh [[v]]) with [[tanh v]]. rewrite m_two_logits.
  pose proof (tanh_bounds v) as Hv.
  destruct (exp_flush_unit (1 * tanh v + 0 + 0)) as [_ H1]; [lra|].
  destruct (exp_flush_unit (0 * tanh v + 0 + 0)) as [_ H2]; [lra|].
  pose proof float_max_ge_8. pose proof float_tiny_bounds.
  cbn. split; [lra|]. apply Exists_cons_hd. lra.
Qed.

Lemma softmax_value_pair (a b0 mx : R) :
  softmax_value [[a]; [b0]] mx
  = [[exp_flush (a - mx)
      / (exp_flush (a - mx) + (exp_flush (b0 - mx) + 0))];
     [exp_flush (b0 - mx)
      / (exp_flush (a - mx) + (exp_flush (b0 - mx) + 0))]].
Proof. reflexivity. Qed.

Lemma naive_value_pair (a b0 : R) :
  naive_value [[a]; [b0]]
  = [[exp_flush a / (exp_flush a + (exp_flush b0 + 0))];
     [exp_flush b0 / (exp_flush a + (exp_flush b0 + 0))]].
Proof. reflexivity. Qed.

Lemma half_lt (u v : R) : 0 < u < v → u / (u + (v + 0)) < 1 / 2 < v / (u + (v + 0)).
Proof.
  intros Huv. assert (0 < / (u + (v + 0))) by (apply Rinv_0_lt_compat; lra).
  assert ((u + (v + 0)) * / (u + (v + 0)) = 1) by (apply Rinv_r; lra).
  unfold Rdiv. nra.
Qed.

(** The softmax of two logits, the first below the second, gives the first
    less than a half *)
Lemma softmax_value_two (a b0 mx : R) :
  b0 - 1 <= a < b0 → Forall (λ v, v <= mx) [a; b0] → mx ∈ [a; b0] →
  ∃ q0 q1, softmax_value [[a]; [b0]] mx = [[q0]; [q1]] ∧ q0 < 1 / 2.
Proof.
  intros Hab Hub Hin.
  assert (mx = b0) as ->.
  { apply Forall_cons in Hub as [_ [Hb _]%Forall_cons].
    rewrite !elem_of_cons, elem_of_nil in Hin. lra. }
  rewrite softmax_value_pair. eexists _, _. split; [reflexivity|].
  replace (b0 - b0) with 0 by lra. rewrite exp_flush_0.
  destruct (exp_flush_unit (a - b0)) as [-> _]; [lra|].
  assert (exp (a - b0) < 1).
  { rewrite <- exp_0. apply exp_increasing. lra. }
  pose proof (exp_pos (a - b0)).
  apply (half_lt (exp (a - b0)) 1). lra.
Qed.

(** The division of [sample] and [predict] on two logits, the first above
    the second, gives the first more than a half *)
Lemma naive_value_two (a b0 : R) :
  -1 <= b0 < a → a <= 1 →
  ∃ p0 p1, naive_value [[a]; [b0]] = [[p0]; [p1]] ∧ 1 / 2 < p0.
Proof.
  intros Hb Ha. rewrite naive_value_pair.
  eexists _, _. split; [reflexivity|].
  destruct (exp_flush_unit a) as [-> _]; [lra|].
  destruct (exp_flush_unit b0) as [-> _]; [lra|].
  assert (exp b0 < exp a) by (apply exp_increasing; lra).
  pose proof (exp_pos b0).
  replace (exp a + (exp b0 + 0)) with (exp b0 + (exp a + 0)) by lra.
  apply (half_lt (exp b0) (exp a)). lra.
Qed.

(** C3.  [predict] on the seed [ab]: a forward pass over the seed from the
    zero state ends in a negative state and gives the next symbol [a] less
    than a half; [predict] puts both symbols in one input vector, which is
    not 1-of-k, keeps the zero state, and its first step, on that vector,
    reaches a positive state and draws from a distribution that gives [a]
    more than a half. *)
Theorem predict_seed_is_not_fed_through_recurrence :
  ∃ k hf q0 q1 hp p0 p1,
    forward m_two [0%nat; 1%nat] [[0]] = Ok k
    ∧ hs k !! 1%Z = Some [[hf]]
    ∧ ycap k !! 1%Z = Some [[q0]; [q1]]
    ∧ predict_seed m_two r_ab ["a"; "b"]%char
      = Ok ([[1]; [1]], [[0]], [0%nat; 1%nat])
    ∧ hidden m_two [[1]; [1]] [[0]] = Ok [[hp]]
    ∧ predict draw_log m_two r_ab ["a"; "b"]%char 1 []
      = Ok (["a"; "b"; "a"]%char, [[p0; p1]])
    ∧ hf < 0 < hp
    ∧ q0 < 1 / 2 < p0.
Proof.
  (* the forward pass over the seed *)
  assert (shape 1 1 [[0]]) as Hh0 by (split; [done|repeat constructor]).
  destruct (forward_Ok m_two m_two_wf [0%nat; 1%nat] [[0]] Hh0)
    as (k & Hfw & Hm1 & Hk); [repeat constructor|].
  destruct (Hk 0%nat) as (ix0 & hp0 & Hix0 & _ & Hhp0 & _ & _ & Hhs0 & _);
    [cbn; lia|].
  injection Hix0 as <-. change (Z.of_nat 0 - 1)%Z with (-1)%Z in Hhp0.
  rewrite Hm1 in Hhp0. injection Hhp0 as <-.
  destruct (Hk 1%nat) as (ix1 & hp1 & Hix1 & _ & Hhp1 & _ & _ & Hhs1 & Hy1);
    [cbn; lia|].
  injection Hix1 as <-. change (Z.of_nat 1 - 1)%Z with (Z.of_nat 0) in Hhp1.
  rewrite Hhs0 in Hhp1. injection Hhp1 as <-.
  change (hs k !! 1%Z
          = Some (hidden_value m_two [[0]; [1]]
                    (hidden_value m_two [[1]; [0]] [[0]]))) in Hhs1.
  change (ycap k !! 1%Z
          = Some (prob_value m_two
                    (hidden_value m_two [[0]; [1]]
                       (hidden_value m_two [[1]; [0]] [[0]])))) in Hy1.
  rewrite !m_two_hidden in Hhs1, Hy1.
  set (t0 := tanh (2 * 1 + (-1 * 0 + 0) + (0 * 0 + 0) + 0)) in *.
  set (hf := tanh (2 * 0 + (-1 * 1 + 0) + (0 * t0 + 0) + 0)) in *.
  assert (-1 < hf < 0) as Hhf.
  { split; [apply tanh_bounds|apply tanh_neg_lt; lra]. }
  unfold prob_value in Hy1. rewrite m_two_logits in Hy1.
  destruct (np_max_entry [[1 * hf + 0 + 0]; [0 * hf + 0 + 0]])
    as (_ & Hub & Hin); [done|].
  destruct (softmax_value_two (1 * hf + 0 + 0) (0 * hf + 0 + 0) _
              ltac:(lra) Hub Hin) as (q0 & q1 & Hq & Hq0).
  rewrite Hq in Hy1.
  (* the seed of predict and its first step *)
  pose proof (predict_seed_Ok m_two r_ab _ seed_ab_two) as Hseed.
  change (multi_hot (vocab_size m_two) (seed_ix r_ab <$> ["a"; "b"]%char))
    with [[1]; [1]] in Hseed.
  change (np_zeros (hidden_size m_two) 1) with [[0]] in Hseed.
  change (seed_ix r_ab <$> ["a"; "b"]%char) with [0%nat; 1%nat] in Hseed.
  assert (shape 2 1 [[1]; [1]]) as Hx by (split; [done|repeat constructor]).
  pose proof (hidden_Ok m_two m_two_wf _ _ Hx Hh0) as Hhid.
  rewrite m_two_hidden in Hhid.
  set (hp := tanh (2 * 1 + (-1 * 1 + 0) + (0 * 0 + 0) + 0)) in *.
  assert (0 < hp < 1) as Hhp.
  { split; [apply tanh_pos; lra|apply tanh_bounds]. }
  destruct (naive_value_two (1 * hp + 0 + 0) (0 * hp + 0 + 0))
    as (p0 & p1 & Hp & Hp0); [lra|lra|].
  pose proof (sample_step_naive draw_log m_two m_two_wf m_two_logits_bounded
                [[1]; [1]] [[0]] [0%nat; 1%nat] [] 0%nat Hx Hh0) as Hstep.
  cbv zeta in Hstep. rewrite m_two_hidden, m_two_logits in Hstep.
  fold hp in Hstep. rewrite Hp in Hstep.
  specialize (Hstep ltac:(cbn; lia)).
  exists k, hf, q0, q1, hp, p0, p1.
  split; [exact Hfw|]. split; [exact Hhs1|]. split; [exact Hy1|].
  split; [exact Hseed|]. split; [exact Hhid|]. split; [|split; [lra|lra]].
  unfold predict. rewrite Hseed, bind_Ok. cbv beta iota.
  cbn [range seq for_loop].
  change (predict_step draw_log m_two) with (sample_step draw_log m_two).
  rewrite Hstep, bind_Ok. reflexivity.
Qed.



End instances.

(** * Further properties of the code *)

(** ** softmax on any array *)

Section softmax_more.
Local Open Scope R_scope.

(** X1.  [softmax] raises only on an empty array, ValueError at [np.max],
    and never overflows.  On a non-empty array it applies one function to
    every entry, so the result has the shape of the argument; the function
    is nowhere negative and nowhere decreasing, so a larger logit never gets
    a smaller probability, and the largest logit gets a positive one. *)
Theorem softmax_is_monotone_map (x : tensor) :
  (entries x = [] → RNN.softmax x = Raise ValueError)
  ∧ (entries x ≠ [] →
     ∃ (f : R → R) (mx : R), RNN.softmax x = Ok (tmap f x)
       ∧ (∀ u v, u <= v → f u <= f v) ∧ (∀ v, 0 <= f v)
       ∧ mx ∈ entries x ∧ Forall (λ v, v <= mx) (entries x) ∧ 0 < f mx).
Proof.
  split.
  - intros He. unfold RNN.softmax, np_max. by rewrite He.
  - intros Hne. destruct (np_max_Ok x Hne) as (mx & Hmx & Hub & Hin).
    destruct (softmax_Ok x mx Hmx Hub Hin) as (Hp & _ & _).
    pose proof (softmax_sum_ge_1 x mx Hin) as Hs.
    set (s := np_sum (tmap (λ v, exp_flush (v - mx)) x)) in *.
    assert (0 < / s) as Hinv by (apply Rinv_0_lt_compat; lra).
    exists (λ v, exp_flush (v - mx) / s), mx.
    split; [|split; [|split; [|split; [done|split; [done|]]]]].
    + rewrite Hp. unfold softmax_value. cbv zeta. by rewrite tmap_tmap.
    + intros u v Huv. unfold Rdiv. apply Rmult_le_compat_r; [lra|].
      apply exp_flush_mono. lra.
    + intros v. pose proof (exp_flush_nonneg (v - mx)). unfold Rdiv. nra.
    + cbv beta. replace (mx - mx) with 0 by lra. rewrite exp_flush_0.
      unfold Rdiv. lra.
Qed.

End softmax_more.
(** ** The reader: its dictionaries and its passes over the corpus *)

Section reader_more.
Import DataReader.

Lemma char_to_ix_None (chars : list ascii) (ch : ascii) :
  ch ∉ chars → dict_of (prod_swap <$> enumerate chars) !! ch = None.
Proof.
  induction chars as [|x chars IH] using rev_ind; [done|].
  rewrite swap_enumerate_snoc, dict_of_snoc. cbn.
  rewrite elem_of_app, list_elem_of_singleton. intros Hn.
  rewrite lookup_insert_ne by (intros ->; tauto). apply IH. tauto.
Qed.

Lemma char_to_ix_NoDup (chars : list ascii) (ch : ascii) (i : nat) :
  NoDup chars → chars !! i = Some ch →
  dict_of (prod_swap <$> enumerate chars) !! ch = Some i.
Proof.
  intros Hnd Hi.
  destruct (char_to_ix_is_Some chars ch) as [j Hj];
    [by eapply list_elem_of_lookup_2|].
  pose proof (char_to_ix_lookup _ _ _ Hj) as Hj'.
  by rewrite (NoDup_lookup _ _ _ _ Hnd Hi Hj').
Qed.

(** The reader after [n + 1] calls is the reader after [n] calls, called
    once more *)
Lemma after_calls_S_r (n : nat) (r : t) :
  after_calls (S n) r = r' ← after_calls n r; '(_, r'') ← next_batch r'; Ok r''.
Proof.
  revert r. induction n as [|n IH]; intros r.
  - cbn [after_calls]. rewrite bind_Ok.
    by destruct (next_batch r) as [[w r']|].
  - change (after_calls (S (S n)) r)
      with ('(_, r') ← next_batch r; after_calls (S n) r').
    cbn [after_calls].
    destruct (next_batch r) as [[w r']|]; [|done].
    rewrite !bind_Ok. apply IH.
Qed.

(** The number of windows that one pass over a corpus of [N] symbols
    yields: a call moves the cursor from [p] to [p + L], and back to 0 when
    [p + L + L + 1 >= N]. *)
Definition windows_per_pass (N L : nat) : nat := Nat.max 1 ((N - 2) / L).

Lemma succ_mod (k K : nat) :
  0 < K →
  S k mod K = if decide (k mod K + 1 < K) then k mod K + 1 else 0.
Proof.
  intros HK. pose proof (Nat.div_mod_eq k K) as Hk.
  pose proof (Nat.mod_upper_bound k K ltac:(lia)) as Hlt.
  case_decide as Hc.
  - symmetry. apply (Nat.mod_unique _ _ (k / K)); lia.
  - symmetry. apply (Nat.mod_unique _ _ (k / K + 1)); lia.
Qed.

Lemma windows_per_pass_spec (N L a : nat) :
  0 < L → L + 1 ≤ N → a < windows_per_pass N L →
  a * L + L + 1 ≤ N
  ∧ (N ≤ a * L + L + L + 1 ↔ ¬ a + 1 < windows_per_pass N L).
Proof.
  intros HL HN. unfold windows_per_pass.
  pose proof (Nat.Div0.mul_div_le (N - 2) L) as Hlo.
  pose proof (Nat.mul_succ_div_gt (N - 2) L ltac:(lia)) as Hhi.
  set (q := (N - 2) / L) in *. intros Ha.
  destruct (decide (q ≤ 1)) as [Hq|Hq].
  - rewrite Nat.max_l in * by lia. assert (a = 0) as -> by lia. split; [lia|].
    split; [lia|]. intros _. nia.
  - rewrite Nat.max_r in * by lia. split; [nia|]. split.
    + intros HNle Hlt. nia.
    + intros Hn. assert (a + 1 = q) as Haq by lia. nia.
Qed.


(** X2.  The two dictionaries of a reader are inverse bijections between
    the symbols of the corpus and the indices below [vocab_size]:
    [ix_to_char[char_to_ix[ch]]] is [ch] for every symbol of the corpus,
    [char_to_ix[ix_to_char[ix]]] is [ix] for every index below
    [vocab_size], and neither dictionary has another key. *)
Theorem reader_dictionaries_are_inverse (data chars : list ascii) (L : nat) :
  set_order data chars →
  let r := init data chars L in
  (∀ ch, ch ∈ data →
     ∃ ix, char_to_ix r !! ch = Some ix ∧ ix < vocab_size r
           ∧ ix_to_char r !! ix = Some ch)
  ∧ (∀ ix, ix < vocab_size r →
       ∃ ch, ix_to_char r !! ix = Some ch ∧ ch ∈ data
             ∧ char_to_ix r !! ch = Some ix)
  ∧ (∀ ch, ch ∉ data → char_to_ix r !! ch = None)
  ∧ (∀ ix, vocab_size r ≤ ix → ix_to_char r !! ix = None).
Proof.
  intros [Hnd Hset] r. cbn. split; [|split; [|split]].
  - intros ch Hch%Hset.
    destruct (char_to_ix_is_Some chars ch Hch) as [ix Hix].
    pose proof (char_to_ix_lookup _ _ _ Hix) as Hlk.
    exists ix. split; [done|]. split; [by eapply lookup_lt_Some|].
    by rewrite ix_to_char_lookup.
  - intros ix Hix.
    destruct (lookup_lt_is_Some_2 chars ix Hix) as [ch Hch].
    exists ch. rewrite ix_to_char_lookup. split; [done|]. split.
    + apply Hset. by eapply list_elem_of_lookup_2.
    + by apply char_to_ix_NoDup.
  - intros ch Hch. apply char_to_ix_None. by rewrite Hset.
  - intros ix Hix. rewrite ix_to_char_lookup. by apply lookup_ge_None_2.
Qed.

(** X3.  Encoding and decoding are a round trip: the comprehension of
    [next_batch] turns a string of symbols of the vocabulary into indices
    below [vocab_size], and the join of [predict] and [train] turns these
    indices back into the string. *)
Theorem encode_decode_round_trip (data chars : list ascii) (L p : nat)
    (s : list ascii) :
  Forall (λ ch, ch ∈ chars) s →
  let r := set_pointer p (init data chars L) in
  ∃ ixs, encode r s = Ok ixs
    ∧ length ixs = length s
    ∧ Forall (λ ix, ix < vocab_size r) ixs
    ∧ decode r ixs = Ok s.
Proof.
  intros Hs r.
  exists ((λ ch, default 0 (char_to_ix r !! ch)) <$> s).
  assert (∀ ch, ch ∈ chars →
            ∃ ix, char_to_ix r !! ch = Some ix ∧ chars !! ix = Some ch) as Hix.
  { intros ch Hch. destruct (char_to_ix_is_Some chars ch Hch) as [ix Hix].
    exists ix. split; [done|]. by apply char_to_ix_lookup. }
  split; [|split; [|split]].
  - apply mapM_Ok. eapply Forall_impl; [exact Hs|]. cbn.
    intros ch Hch. destruct (Hix ch Hch) as (ix & Hlk & _).
    cbn in Hlk. by rewrite Hlk.
  - by rewrite length_fmap.
  - apply Forall_fmap. eapply Forall_impl; [exact Hs|]. cbn.
    intros ch Hch. destruct (Hix ch Hch) as (ix & Hlk & Hch').
    cbn in Hlk. rewrite Hlk. cbn. by eapply lookup_lt_Some.
  - unfold decode.
    rewrite (mapM_Ok _ (λ i, default "000"%char (chars !! i))).
    + f_equal. rewrite <- list_fmap_compose. rewrite <- (list_fmap_id s) at 2.
      apply Forall_fmap_ext. eapply Forall_impl; [exact Hs|]. cbn.
      intros ch Hch. destruct (Hix ch Hch) as (ix & Hlk & Hch').
      cbn in Hlk. rewrite Hlk. cbn. by rewrite Hch'.
    + apply Forall_fmap. eapply Forall_impl; [exact Hs|]. cbn.
      intros ch Hch. destruct (Hix ch Hch) as (ix & Hlk & Hch').
      cbn in Hlk. rewrite Hlk. cbn. rewrite ix_to_char_lookup.
      by rewrite Hch'.
Qed.

(** X4.  A pass over the corpus has [windows_per_pass] windows.  After [k]
    calls of [next_batch] on a fresh reader the cursor is at
    [(k mod windows_per_pass) * seq_length]: the calls cycle through the
    same windows, and [just_started] holds exactly after every full pass. *)
Theorem reader_pass_is_periodic (data chars : list ascii) (L k : nat) :
  set_order data chars → 0 < L → L + 1 ≤ length data →
  let K := windows_per_pass (length data) L in
  after_calls k (init data chars L)
  = Ok (set_pointer ((k mod K) * L) (init data chars L))
  ∧ (just_started (set_pointer ((k mod K) * L) (init data chars L)) = true
     ↔ k mod K = 0).
Proof.
  intros Hset HL HN K.
  assert (0 < K) as HK by (unfold K, windows_per_pass; lia).
  split.
  2:{ unfold just_started. cbn. rewrite bool_decide_eq_true. nia. }
  induction k as [|k IH].
  - rewrite Nat.Div0.mod_0_l. done.
  - rewrite after_calls_S_r, IH, bind_Ok.
    pose proof (Nat.mod_upper_bound k K ltac:(lia)) as Ha.
    destruct (windows_per_pass_spec (length data) L (k mod K) HL HN Ha)
      as [Hfit Hreset].
    destruct (next_batch_spec data chars L (k mod K * L) Hset Hfit)
      as (inputs & targets & -> & _).
    rewrite bind_Ok. do 2 f_equal. rewrite (succ_mod k K HK). fold K in Hreset.
    repeat case_decide; lia.
Qed.

(** X5.  On a corpus of more than [seq_length + 1] symbols no window
    reaches the last symbol: whatever the number of calls, the targets of
    the next window end before it. *)
Theorem reader_never_reaches_last_symbol (data chars : list ascii) (L k : nat) :
  set_order data chars → L + 1 < length data →
  ∃ r, after_calls k (init data chars L) = Ok r
    ∧ pointer r + seq_length r + 1 < length data.
Proof.
  intros Hset HN.
  assert (∀ p, p + L + 1 < length data →
            ∃ q, after_calls k (set_pointer p (init data chars L))
                 = Ok (set_pointer q (init data chars L))
              ∧ q + L + 1 < length data) as H.
  { induction k as [|k IH]; intros p Hp; cbn [after_calls]; [eauto|].
    destruct (next_batch_spec data chars L p Hset)
      as (inputs & targets & -> & _); [lia|].
    rewrite bind_Ok. apply IH. case_decide; lia. }
  destruct (H 0) as (q & Hq & Hlt); [lia|]. eauto.
Qed.

(** X6.  On a corpus of at most [seq_length] symbols [next_batch] does not
    raise: the slices are cut at the end of the corpus, so it returns all
    the symbols as inputs and one target fewer, and leaves the cursor at
    0. *)
Theorem next_batch_short_corpus (data chars : list ascii) (L : nat) :
  set_order data chars → length data ≤ L →
  let r := init data chars L in
  ∃ inputs targets,
    next_batch r = Ok ((inputs, targets), r)
    ∧ length inputs = length data
    ∧ length targets = length data - 1
    ∧ (∀ i, i < length data → inputs !! i = corpus_ix r i)
    ∧ (∀ i, i < length data - 1 → targets !! i = corpus_ix r (i + 1)).
Proof.
  intros Hset HN r.
  assert (∀ ch, ch ∈ DataReader.data r → is_Some (char_to_ix r !! ch)) as Hdom.
  { intros ch. by apply (init_char_to_ix_dom data chars L 0). }
  destruct (encode_slice r 0 (length data) Hdom) as (inputs & Hin & Hlin & Hi);
    [done|].
  destruct (encode_slice r 1 (length data) Hdom) as (targets & Htg & Hltg & Ht);
    [done|].
  exists inputs, targets.
  assert (slice 0 (0 + L) data = slice 0 (length data) data) as Es.
  { unfold slice. rewrite !drop_0, !Nat.sub_0_r, firstn_all.
    apply take_ge. lia. }
  assert (slice (0 + 1) (0 + L + 1) data = slice 1 (length data) data) as Et.
  { unfold slice. rewrite !take_ge; [done|rewrite length_drop; lia..]. }
  split; [|split; [|split; [|split]]].
  - unfold next_batch. cbn [pointer seq_length DataReader.data r init].
    rewrite Es, Et. cbn [DataReader.data r init] in Hin, Htg.
    rewrite Hin, bind_Ok. cbv beta. rewrite Htg, bind_Ok. cbn.
    case_decide; [done|lia].
  - lia.
  - lia.
  - intros i Hlt. destruct (Hi i) as [_ ->]; [lia|]. done.
  - intros i Hlt. destruct (Ht i) as [_ ->]; [lia|]. f_equal. lia.
Qed.

End reader_more.

(** ** The forward pass: what the three dicts hold *)

Section forward_more.
Local Open Scope R_scope.
Import RNN.

Lemma for_loop_ext {S I} (f g : S → I → res S) (s : S) (l : list I) :
  (∀ s i, i ∈ l → f s i = g s i) → for_loop f s l = for_loop g s l.
Proof.
  revert s. induction l as [|i l IH]; intros s Hfg; [done|].
  cbn [for_loop]. rewrite Hfg by (apply elem_of_cons; by left).
  destruct (g s i) as [s'|]; [|done]. rewrite !bind_Ok. apply IH.
  intros s0 j Hj. apply Hfg, elem_of_cons. by right.
Qed.

(** A turn of the loop of [forward] writes the key of its step only *)
Lemma forward_step_keys (m : RNN.t) (inputs : list nat) (k k' : cache)
    (t : nat) (z : Z) :
  forward_step m inputs k t = Ok k' → z ≠ Z.of_nat t →
  xs k' !! z = xs k !! z ∧ hs k' !! z = hs k !! z
  ∧ ycap k' !! z = ycap k !! z.
Proof.
  unfold forward_step. intros H Hz.
  apply bind_Ok_inv in H as (ix & _ & H).
  apply bind_Ok_inv in H as (x & _ & H).
  apply bind_Ok_inv in H as (hp & _ & H).
  apply bind_Ok_inv in H as (h & _ & H).
  apply bind_Ok_inv in H as (o & _ & H).
  apply bind_Ok_inv in H as (y & _ & H).
  injection H as <-. cbn [xs hs ycap].
  by rewrite !lookup_insert_ne by done.
Qed.

Lemma forward_loop_keys (m : RNN.t) (inputs : list nat) (k0 k : cache)
    (t0 n : nat) (z : Z) :
  for_loop (forward_step m inputs) k0 (seq t0 n) = Ok k →
  (z < Z.of_nat t0 ∨ Z.of_nat (t0 + n) ≤ z)%Z →
  xs k !! z = xs k0 !! z ∧ hs k !! z = hs k0 !! z
  ∧ ycap k !! z = ycap k0 !! z.
Proof.
  revert k0 t0. induction n as [|n IH]; intros k0 t0; cbn [seq for_loop].
  - by intros [= <-].
  - intros H Hz. apply bind_Ok_inv in H as (k1 & Hstep & H).
    destruct (IH k1 (S t0) H) as (-> & -> & ->); [lia|].
    eapply forward_step_keys; [exact Hstep|lia].
Qed.

Lemma forward_keys (m : RNN.t) (inputs : list nat) (hprev : tensor)
    (k : cache) (z : Z) :
  forward m inputs hprev = Ok k →
  (z < 0 ∨ Z.of_nat (length inputs) ≤ z)%Z →
  xs k !! z = None ∧ ycap k !! z = None ∧ (z ≠ (-1)%Z → hs k !! z = None).
Proof.
  unfold forward, range. intros H Hz.
  destruct (forward_loop_keys m inputs _ k 0 (length inputs) z H)
    as (-> & -> & ->); [cbn; lia|].
  cbn [xs hs ycap]. rewrite !lookup_empty. split; [done|]. split; [done|].
  intros Hne. by rewrite lookup_singleton_ne.
Qed.

Context (m : RNN.t) (Hwf : wf_params m).
Local Abbreviation nH := (hidden_size m).
Local Abbreviation nV := (vocab_size m).

Lemma hidden_value_bounds (x h : tensor) :
  Forall (λ v, -1 <= v <= 1) (entries (hidden_value m x h)).
Proof.
  unfold hidden_value, np_tanh. rewrite entries_tmap, Forall_fmap.
  apply Forall_true. intros v. pose proof (tanh_bounds v). cbn. lra.
Qed.

Lemma prob_distribution (h : tensor) :
  shape nH 1 h →
  Forall (λ v, 0 <= v) (entries (prob_value m h))
  ∧ np_sum (prob_value m h) = 1.
Proof.
  intros Hh. pose proof (shape_logits_value m Hwf h Hh) as Hy.
  assert (entries (logits_value m h) ≠ []) as Hne.
  { destruct Hwf as (? & ? & _). eapply entries_nonempty; eauto with shapes. }
  destruct (np_max_entry _ Hne) as (Hmx & Hub & Hin).
  by destruct (softmax_Ok _ _ Hmx Hub Hin) as (_ & ? & ?).
Qed.

(** The hidden state after a window, from the state before it *)
Fixpoint run_hidden (inputs : list nat) (h : tensor) : tensor :=
  match inputs with
  | [] => h
  | ix :: inputs => run_hidden inputs (hidden_value m (one_hot nV ix) h)
  end.

Lemma run_hidden_app (l1 l2 : list nat) (h : tensor) :
  run_hidden (l1 ++ l2) h = run_hidden l2 (run_hidden l1 h).
Proof. revert h. induction l1 as [|ix l1 IH]; intros h; cbn; [done|apply IH]. Qed.

Lemma shape_run_hidden (inputs : list nat) (h : tensor) :
  shape nH 1 h → shape nH 1 (run_hidden inputs h).
Proof.
  revert h. induction inputs as [|ix inputs IH]; intros h Hh; cbn; [done|].
  apply IH, (shape_hidden_value m Hwf); [apply shape_one_hot|done].
Qed.

Lemma cache_ok_hidden (inputs : list nat) (hprev : tensor) (n : nat)
    (k : cache) (t : nat) :
  cache_ok m inputs hprev n k → (t ≤ n)%nat →
  hs k !! (Z.of_nat t - 1)%Z = Some (run_hidden (take t inputs) hprev).
Proof.
  intros [Hm1 Hk]. induction t as [|t IH]; intros Ht.
  - by rewrite take_0.
  - destruct (Hk t) as (ix & hp & Hix & _ & Hhp & _ & _ & Hh & _); [lia|].
    rewrite IH in Hhp by lia. injection Hhp as <-.
    rewrite (take_S_r _ _ _ Hix), run_hidden_app. cbn [run_hidden].
    replace (Z.of_nat (S t) - 1)%Z with (Z.of_nat t) by lia. done.
Qed.

Lemma cache_ok_at (inputs : list nat) (hprev : tensor) (n : nat)
    (k : cache) (t : nat) :
  cache_ok m inputs hprev n k → (t < n)%nat →
  ∃ ix, inputs !! t = Some ix ∧ (ix < nV)%nat
    ∧ xs k !! Z.of_nat t = Some (one_hot nV ix)
    ∧ hs k !! Z.of_nat t = Some (run_hidden (take (S t) inputs) hprev)
    ∧ ycap k !! Z.of_nat t
      = Some (prob_value m (run_hidden (take (S t) inputs) hprev)).
Proof.
  intros Hok Ht. pose proof Hok as [_ Hk].
  destruct (Hk t Ht) as (ix & hp & Hix & HixV & Hhp & _ & Hx & Hh & Hp).
  pose proof (cache_ok_hidden inputs hprev n k (S t) Hok ltac:(lia)) as Hrun.
  replace (Z.of_nat (S t) - 1)%Z with (Z.of_nat t) in Hrun by lia.
  rewrite Hrun in Hh. injection Hh as Hh. rewrite <- Hh in Hp.
  exists ix. done.
Qed.


(** X7.  On a window of indices of the vocabulary [forward] returns three
    dicts whose keys are exactly the steps of the window ([hs] has the key
    -1 too, with the state passed in).  At every step [xs] holds the one-hot
    vector of the input, [hs] a state with every entry between -1 and 1,
    and [ycap] a probability distribution: entries that are not negative and
    sum to 1. *)
Theorem forward_returns_distributions (inputs : list nat) (hprev : tensor) :
  shape nH 1 hprev → Forall (λ ix, ix < nV)%nat inputs →
  ∃ k, forward m inputs hprev = Ok k
    ∧ hs k !! (-1)%Z = Some hprev
    ∧ (∀ t ix, inputs !! t = Some ix →
         ∃ h p, xs k !! Z.of_nat t = Some (one_hot nV ix)
           ∧ hs k !! Z.of_nat t = Some h ∧ shape nH 1 h
           ∧ Forall (λ v, -1 <= v <= 1) (entries h)
           ∧ ycap k !! Z.of_nat t = Some p ∧ shape nV 1 p
           ∧ Forall (λ v, 0 <= v) (entries p) ∧ np_sum p = 1)
    ∧ (∀ z, (z < 0 ∨ Z.of_nat (length inputs) ≤ z)%Z →
         xs k !! z = None ∧ ycap k !! z = None
         ∧ (z ≠ (-1)%Z → hs k !! z = None)).
Proof.
  intros Hhp Hin.
  destruct (forward_Ok m Hwf inputs hprev Hhp Hin) as (k & Hfw & Hok).
  exists k. split; [exact Hfw|]. split; [apply Hok|]. split.
  - intros t ix Hix. pose proof (lookup_lt_Some _ _ _ Hix) as Ht.
    destruct Hok as [_ Hk].
    destruct (Hk t Ht) as (ix' & hp & Hix' & _ & _ & Hshp & Hx & Hh & Hp).
    rewrite Hix in Hix'. injection Hix' as <-.
    pose proof (shape_hidden_value m Hwf _ _ (shape_one_hot nV ix) Hshp) as Hsh.
    destruct (prob_Ok m Hwf _ Hsh) as [_ Hsp].
    destruct (prob_distribution _ Hsh) as [Hpos Hsum].
    eexists _, _. split; [exact Hx|]. split; [exact Hh|]. split; [exact Hsh|].
    split; [apply hidden_value_bounds|]. split; [exact Hp|]. done.
  - intros z Hz. by eapply forward_keys.
Qed.

(** X8.  The recurrence composes: a forward pass over two windows joined
    holds, at the steps of the second, what a forward pass over the second
    window holds when it starts from the last state of a pass over the
    first.  This is how [train] carries [hprev] from one window to the
    next. *)
Theorem forward_composes (inputs1 inputs2 : list nat) (hprev : tensor) :
  shape nH 1 hprev → Forall (λ ix, ix < nV)%nat (inputs1 ++ inputs2) →
  ∃ k k1 k2 hmid,
    forward m (inputs1 ++ inputs2) hprev = Ok k
    ∧ forward m inputs1 hprev = Ok k1
    ∧ hs k1 !! (Z.of_nat (length inputs1) - 1)%Z = Some hmid
    ∧ forward m inputs2 hmid = Ok k2
    ∧ ∀ t, (t < length inputs2)%nat →
        xs k !! Z.of_nat (length inputs1 + t) = xs k2 !! Z.of_nat t
        ∧ hs k !! Z.of_nat (length inputs1 + t) = hs k2 !! Z.of_nat t
        ∧ ycap k !! Z.of_nat (length inputs1 + t) = ycap k2 !! Z.of_nat t.
Proof.
  intros Hhp Hin. pose proof Hin as [Hin1 Hin2]%Forall_app.
  destruct (forward_Ok m Hwf _ hprev Hhp Hin) as (k & Hfw & Hok).
  destruct (forward_Ok m Hwf _ hprev Hhp Hin1) as (k1 & Hfw1 & Hok1).
  pose proof (cache_ok_hidden _ _ _ _ (length inputs1) Hok1 ltac:(lia)) as Hmid.
  rewrite firstn_all in Hmid.
  pose proof (shape_run_hidden inputs1 hprev Hhp) as Hsmid.
  destruct (forward_Ok m Hwf _ _ Hsmid Hin2) as (k2 & Hfw2 & Hok2).
  exists k, k1, k2, (run_hidden inputs1 hprev).
  repeat (split; [assumption|]). intros t Ht.
  destruct (cache_ok_at _ _ _ _ (length inputs1 + t)%nat Hok)
    as (ix & Hix & _ & -> & -> & ->); [rewrite length_app; lia|].
  destruct (cache_ok_at _ _ _ _ t Hok2) as (ix' & Hix' & _ & -> & -> & ->);
    [lia|].
  rewrite lookup_app_r in Hix by lia.
  replace (length inputs1 + t - length inputs1)%nat with t in Hix by lia.
  rewrite Hix' in Hix. injection Hix as ->.
  replace (S (length inputs1 + t)) with (length inputs1 + S t)%nat by lia.
  by rewrite take_app_add, run_hidden_app.
Qed.

(** X9.  An input index that is not below [vocab_size] makes [forward]
    raise IndexError, at the assignment [xs[t][inputs[t]] = 1] of the first
    such step. *)
Theorem forward_index_out_of_range (pre post : list nat) (ix : nat)
    (hprev : tensor) :
  shape nH 1 hprev → Forall (λ ix, ix < nV)%nat pre → (nV ≤ ix)%nat →
  forward m (pre ++ ix :: post) hprev = Raise IndexError.
Proof.
  intros Hhp Hpre Hix. unfold forward, range.
  rewrite length_app. cbn [length]. rewrite seq_app, for_loop_app.
  rewrite (for_loop_ext _ (forward_step m pre)).
  2:{ intros k t [_ Ht]%elem_of_seq. unfold forward_step.
      by rewrite lookup_app_l by lia. }
  destruct (forward_prefix m Hwf pre hprev (length pre) Hhp Hpre)
    as (k & Hk & _); [lia|].
  unfold range in Hk. rewrite Hk, bind_Ok. cbn [seq for_loop plus].
  assert (forward_step m (pre ++ ix :: post) k (length pre) = Raise IndexError)
    as ->; [|done].
  unfold forward_step.
  rewrite list_lookup_middle by done. cbn [of_option]. rewrite bind_Ok.
  unfold set_row. rewrite lookup_ge_None_2; [done|].
  unfold np_zeros. rewrite length_replicate. lia.
Qed.

End forward_more.

(** ** The backward pass and the update after it *)

Section backward_more.
Local Open Scope R_scope.
Import RNN.

Context (m : RNN.t) (Hwf : wf_params m).
Local Abbreviation nH := (hidden_size m).
Local Abbreviation nV := (vocab_size m).

Lemma bptt_down_shape (inputs : list nat) (hprev : tensor) (n : nat)
    (k : cache) (targets : list nat) (t : nat) (g : grads) (dhn : tensor) :
  cache_ok m inputs hprev n k → (t ≤ n)%nat →
  (t ≤ length targets)%nat → Forall (λ ix, ix < nV)%nat targets →
  grads_shape m g → shape nH 1 dhn →
  let s := bptt_down m (at_key (xs k)) (at_key (hs k)) (at_key (ycap k))
             (at_index targets) t (g, dhn) in
  grads_shape m s.1 ∧ shape nH 1 s.2.
Proof.
  intros Hk Htn Htl Htg. revert g dhn.
  induction t as [|t IH]; intros g dhn Hg Hdhn; cbn [bptt_down]; [done|].
  destruct (backward_step_ok m Hwf inputs hprev n k targets t g dhn)
    as (_ & Hg' & Hdhn'); [done || lia..|].
  destruct (bptt_step _ _ _ _ _ _ _) as [g' dhn'].
  apply IH; [lia|lia|done..].
Qed.

Lemma clamp_grads_shape (g : grads) : grads_shape m g → grads_shape m (clamp_grads g).
Proof.
  intros (? & ? & ? & ? & ?). unfold grads_shape, clamp_grads. cbn.
  repeat (split; [by apply shape_tmap|]). by apply shape_tmap.
Qed.

Lemma zero_grads_shape : grads_shape m (zero_grads m).
Proof. repeat split; apply shape_zeros. Qed.

(** X10.  One turn of [train] without the loss composes: on a window and
    targets of [seq_length] indices of the vocabulary, [forward] returns,
    [backward] returns on its dicts five gradients with the shapes of the
    parameters they belong to, and [update_model] accepts them and returns a
    model of the same sizes whose arrays still have their shapes and whose
    accumulators still have no negative entry: the next turn finds the
    model as this one did. *)
Theorem forward_backward_update_compose (inputs targets : list nat)
    (hprev : tensor) :
  accs_ok m → (0 < seq_length m)%nat →
  length inputs = seq_length m → Forall (λ ix, ix < nV)%nat inputs →
  shape nH 1 hprev →
  length targets = seq_length m → Forall (λ ix, ix < nV)%nat targets →
  ∃ k g m',
    forward m inputs hprev = Ok k
    ∧ backward m k targets = Ok g
    ∧ grads_shape m g
    ∧ update_model m g = Ok m'
    ∧ hidden_size m' = nH ∧ vocab_size m' = nV
    ∧ seq_length m' = seq_length m ∧ learning_rate m' = learning_rate m
    ∧ wf_params m' ∧ accs_ok m' ∧ acc_le m m'.
Proof.
  intros Hacc Hpos Hlin Hin Hhp Hltg Htg.
  destruct (forward_Ok m Hwf inputs hprev Hhp Hin) as (k & Hfw & Hk).
  pose proof (backward_Ok m Hwf inputs hprev k targets Hpos Hlin Hk Hltg Htg)
    as Hbw.
  set (g := bptt_spec m (at_key (xs k)) (at_key (hs k)) (at_key (ycap k))
              (at_index targets)) in *.
  assert (grads_shape m g) as Hg.
  { unfold g, bptt_spec. apply clamp_grads_shape.
    apply (bptt_down_shape inputs hprev (length inputs) k targets);
      [done|lia|lia|done|apply zero_grads_shape|apply shape_zeros]. }
  pose proof Hwf as (HH & HV & Hps).
  destruct (update_model_Ok m g Hps Hacc Hg) as (Hup & Hps' & Hacc').
  exists k, g, (updated m g).
  split; [exact Hfw|]. split; [exact Hbw|]. split; [exact Hg|].
  split; [exact Hup|]. do 4 (split; [reflexivity|]).
  split; [|split; [exact Hacc'|]].
  - split; [exact HH|]. split; [exact HV|exact Hps'].
  - by eapply update_model_acc_le.
Qed.

(** X11.  [backward] walks the steps [seq_length - 1], ..., 0 whatever the
    window was.  On the dicts of a forward pass over a window shorter than
    [seq_length] it raises KeyError: at [hs[0]] for an empty window, at
    [ps[seq_length - 1]] otherwise, before it reads the targets. *)
Theorem backward_window_shorter_than_seq_length (inputs targets : list nat)
    (hprev : tensor) :
  shape nH 1 hprev → Forall (λ ix, ix < nV)%nat inputs →
  (length inputs < seq_length m)%nat →
  ∃ k, forward m inputs hprev = Ok k
    ∧ backward m k targets = Raise KeyError.
Proof.
  intros Hhp Hin Hlt.
  destruct (forward_Ok m Hwf inputs hprev Hhp Hin) as (k & Hfw & Hk).
  exists k. split; [exact Hfw|]. unfold backward.
  destruct (decide (length inputs = 0)%nat) as [Hz|Hnz].
  - destruct (forward_keys m inputs hprev k 0%Z Hfw) as (_ & _ & Hnone); [lia|].
    by rewrite Hnone.
  - destruct (cache_ok_at m inputs hprev _ k 0%nat Hk) as (ix & _ & _ & _ & Hh0 & _);
      [lia|].
    change (Z.of_nat 0) with 0%Z in Hh0. rewrite Hh0. cbn [of_option].
    rewrite bind_Ok. unfold range.
    destruct (seq_length m) as [|L]; [lia|].
    rewrite seq_S, reverse_snoc. cbn [for_loop plus].
    destruct (forward_keys m inputs hprev k (Z.of_nat L) Hfw) as (_ & Hnone & _);
      [lia|].
    assert (∀ st, backward_step m k targets st L = Raise KeyError) as ->;
      [|done].
    intros [g dhn]. unfold backward_step. by rewrite Hnone.
Qed.

End backward_more.

(** ** The direction of an update *)

Section update_more.
Local Open Scope R_scope.
Import RNN.

(** [a[i][j]] *)
Definition entry (a : tensor) (i j : nat) : option R := a !! i ≫= (.!! j).

Lemma entry_Some (a : tensor) (i j : nat) (v : R) :
  entry a i j = Some v ↔ ∃ row, a !! i = Some row ∧ row !! j = Some v.
Proof.
  unfold entry. destruct (a !! i) as [row|]; cbn.
  - split; [eauto|]. by intros (? & [= <-] & ?).
  - split; [done|]. by intros (? & ? & _).
Qed.

Lemma entry_Forall (P : R → Prop) (a : tensor) (i j : nat) (v : R) :
  Forall P (entries a) → entry a i j = Some v → P v.
Proof.
  unfold entries. intros Ha (row & Hrow & Hv)%entry_Some.
  revert i Hrow. induction a as [|r a IH]; intros [|i]; cbn; try done.
  - intros [= ->]. apply Forall_app in Ha as [Hr _].
    rewrite Forall_lookup in Hr. by eapply Hr.
  - apply Forall_app in Ha as [_ Ha]. by apply IH.
Qed.

Lemma entry_tzip (f : R → R → R) (a b : tensor) (i j : nat) (v : R) :
  entry (tzip f a b) i j = Some v ↔
  ∃ x y, v = f x y ∧ entry a i j = Some x ∧ entry b i j = Some y.
Proof.
  rewrite entry_Some. unfold tzip. split.
  - intros (row & (ra & rb & -> & Ha & Hb)%lookup_zip_with_Some
                & (x & y & -> & Hx & Hy)%lookup_zip_with_Some).
    exists x, y. rewrite !entry_Some. eauto 10.
  - intros (x & y & -> & (ra & Ha & Hx)%entry_Some & (rb & Hb & Hy)%entry_Some).
    exists (zip_with f ra rb). rewrite !lookup_zip_with_Some. eauto 10.
Qed.

Lemma entry_tmap (f : R → R) (a : tensor) (i j : nat) (v : R) :
  entry (tmap f a) i j = Some v ↔ ∃ x, v = f x ∧ entry a i j = Some x.
Proof.
  rewrite entry_Some. unfold tmap. split.
  - intros (row & (ra & -> & Ha)%list_lookup_fmap_Some
                & (x & -> & Hx)%list_lookup_fmap_Some).
    exists x. rewrite entry_Some. eauto.
  - intros (x & -> & (ra & Ha & Hx)%entry_Some).
    exists (map f ra). split; apply list_lookup_fmap_Some; eauto.
Qed.

(** One entry of a parameter after its turn of the loop of
    [update_model] *)
Lemma adagrad_param_entry (lr : R) (p d mem : tensor) (i j : nat) (y : R) :
  entry (adagrad_param lr p d (adagrad_mem mem d)) i j = Some y →
  ∃ x gv a, entry p i j = Some x ∧ entry d i j = Some gv
    ∧ entry mem i j = Some a
    ∧ y = x + - lr * gv / sqrt (a + gv * gv + 1e-8).
Proof.
  unfold adagrad_param, adagrad_mem.
  intros (x & st & -> & Hx & Hst)%entry_tzip.
  apply entry_tzip in Hst as (num & root & -> & Hnum & Hroot).
  apply entry_tmap in Hnum as (gv & -> & Hg).
  apply entry_tmap in Hroot as (v & -> & Hv).
  apply entry_tmap in Hv as (w & -> & Hw).
  apply entry_tzip in Hw as (a & sq & -> & Ha & Hsq).
  apply entry_tzip in Hsq as (g1 & g2 & -> & Hg1 & Hg2).
  rewrite Hg in Hg1, Hg2. injection Hg1 as <-. injection Hg2 as <-.
  exists x, gv, a. done.
Qed.

Lemma adagrad_root_pos (gv a : R) :
  0 <= a → 0 < sqrt (a + gv * gv + 1e-8).
Proof. intros Ha. apply sqrt_lt_R0. nra. Qed.

(** What a turn of the loop does to every entry of a parameter [p] with
    gradient [d] when the learning rate is positive: the entry does not
    move along the sign of its gradient, and it stays where its gradient is
    zero. *)
Definition descent_step (lr : R) (p d p' : tensor) : Prop :=
  ∀ i j x gv y,
    entry p i j = Some x → entry d i j = Some gv → entry p' i j = Some y →
    (0 < lr → 0 < gv → y <= x)
    ∧ (0 < lr → gv < 0 → x <= y)
    ∧ (gv = 0 → y = x).

Lemma adagrad_descent_step (lr : R) (p d mem : tensor) :
  nonneg mem →
  descent_step lr p d (adagrad_param lr p d (adagrad_mem mem d)).
Proof.
  intros Hnn i j x gv y Hx Hg Hy.
  apply adagrad_param_entry in Hy as (x' & gv' & a & Hx' & Hg' & Ha & ->).
  rewrite Hx in Hx'. injection Hx' as <-.
  rewrite Hg in Hg'. injection Hg' as <-.
  pose proof (entry_Forall _ _ _ _ _ Hnn Ha) as Ha0. cbv beta in Ha0.
  pose proof (adagrad_root_pos gv a Ha0) as Hs.
  set (s := sqrt (a + gv * gv + 1e-8)) in *.
  assert (0 < / s) as Hinv by by apply Rinv_0_lt_compat.
  unfold Rdiv. repeat split.
  - intros Hlr Hgv. assert (0 < lr * gv * / s); [|lra].
    apply Rmult_lt_0_compat; [nra|done].
  - intros Hlr Hgv. assert (0 < lr * (- gv) * / s); [|lra].
    apply Rmult_lt_0_compat; [nra|done].
  - intros ->. lra.
Qed.

(** X12.  [update_model] on gradients of the right shapes returns and keeps
    the shapes.  With a positive learning rate no entry of [U], [W], [V],
    [b] and [c] moves along the sign of its gradient: an entry with a
    positive gradient does not increase, one with a negative gradient does
    not decrease, and one with a zero gradient keeps its value. *)
Theorem update_model_moves_against_gradient (m : RNN.t) (g : grads) :
  params_shaped m → accs_ok m → grads_shape m g →
  ∃ m', update_model m g = Ok m'
    ∧ params_shaped m'
    ∧ descent_step (learning_rate m) (U m) (dU g) (U m')
    ∧ descent_step (learning_rate m) (W m) (dW g) (W m')
    ∧ descent_step (learning_rate m) (V m) (dV g) (V m')
    ∧ descent_step (learning_rate m) (b m) (db g) (b m')
    ∧ descent_step (learning_rate m) (c m) (dc g) (c m').
Proof.
  intros Hp Ha Hg.
  destruct (update_model_Ok m g Hp Ha Hg) as (Hup & Hp' & _).
  destruct Ha as ((_ & HnU) & (_ & HnW) & (_ & HnV) & (_ & Hnb) & (_ & Hnc)).
  exists (updated m g). split; [exact Hup|]. split; [exact Hp'|].
  cbn [updated U V W b c].
  repeat (split; [by apply adagrad_descent_step|]).
  by apply adagrad_descent_step.
Qed.

End update_more.

(** ** Sampling *)

Section sample_more.
Local Open Scope R_scope.
Import RNN.
Context {G : Type} (draw : list R → G → nat * G).

Context (m : RNN.t) (Hwf : wf_params m).
Context (Hdraw : draw_in_range draw) (Hlog : logits_bounded m).

(** X13.  On a model whose logits stay in the range where
    [np.exp(y) / np.sum(np.exp(y))] is a distribution (no exponential and no
    sum of them above the largest double, not all of them flushed to zero),
    [sample] returns [n] indices, each below [vocab_size], when the seed
    index is below [vocab_size]; for any other seed index it raises
    IndexError at [x[seed_ix] = 1], before it draws anything. *)
Theorem sample_returns_n_indices (h : tensor) (seed_ix n : nat) (g : G) :
  shape (hidden_size m) 1 h →
  ((seed_ix < vocab_size m)%nat →
     ∃ ixes g', sample draw m h seed_ix n g = Ok (ixes, g')
       ∧ length ixes = n ∧ Forall (λ ix, ix < vocab_size m)%nat ixes)
  ∧ ((vocab_size m ≤ seed_ix)%nat →
     sample draw m h seed_ix n g = Raise IndexError).
Proof.
  intros Hh. split; intros Hseed; unfold sample.
  - rewrite (one_hot_Ok m) by done. rewrite bind_Ok.
    destruct (sample_loop_Ok draw m Hwf Hdraw Hlog (range n)
                (one_hot (vocab_size m) seed_ix) h [] g)
      as (x' & h' & out & g' & -> & Hlen & Hout); [apply shape_one_hot|done|].
    rewrite bind_Ok. exists out, g'. split; [done|]. split; [|done].
    unfold range in Hlen. by rewrite length_seq in Hlen.
  - unfold set_row. rewrite lookup_ge_None_2; [done|].
    unfold np_zeros. rewrite length_replicate. lia.
Qed.

End sample_more.

(** ** [predict] on a seed outside the vocabulary *)

Section predict_more.
Local Open Scope R_scope.
Import RNN.
Context {G : Type} (draw : list R → G → nat * G).

(** X15.  The first seed symbol that is no key of [char_to_ix] makes
    [predict] raise KeyError, and the first one whose index is not below the
    [vocab_size] of the model makes it raise IndexError at [x[ix] = 1]; in
    both cases nothing has been generated. *)
Theorem predict_seed_outside_vocabulary (m : RNN.t) (r : DataReader.t)
    (pre post : list ascii) (ch : ascii) (n : nat) (g : G) :
  Forall (in_vocab m r) pre →
  (DataReader.char_to_ix r !! ch = None →
     predict draw m r (pre ++ ch :: post) n g = Raise KeyError)
  ∧ (∀ ix, DataReader.char_to_ix r !! ch = Some ix → (vocab_size m ≤ ix)%nat →
       predict draw m r (pre ++ ch :: post) n g = Raise IndexError).
Proof.
  intros Hpre.
  pose proof (predict_seed_loop m r [] pre (np_zeros (vocab_size m) 1) [] Hpre
                (shape_zeros _ _)) as Hloop.
  cbn [length app] in Hloop.
  assert (∀ e : pyerr,
    (∀ x : tensor, shape (vocab_size m) 1 x →
       (ix ← of_option KeyError (DataReader.char_to_ix r !! ch);
        set_row ix 1 x) = Raise e) →
    predict draw m r (pre ++ ch :: post) n g = Raise e) as Hfail.
  { intros e He. unfold predict, predict_seed, range. cbv zeta.
    rewrite length_app. cbn [length]. rewrite seq_app, for_loop_app.
    erewrite for_loop_ext; [rewrite Hloop|].
    2:{ intros [x ixes] i [_ Hi]%elem_of_seq. cbv beta iota.
        by rewrite lookup_app_l by lia. }
    rewrite bind_Ok. cbn [seq for_loop plus].
    rewrite list_lookup_middle by done. cbn [of_option]. rewrite bind_Ok.
    specialize (He (foldl (λ x ix, <[ix := [1]]> x) (np_zeros (vocab_size m) 1)
                      (seed_ix r <$> pre))
                  (shape_multi_hot _ _)).
    destruct (DataReader.char_to_ix r !! ch) as [ix|]; cbn [of_option] in *.
    - rewrite bind_Ok in He. rewrite bind_Ok. by rewrite He.
    - by injection He as <-. }
  split.
  - intros Hch. apply Hfail. intros x _. by rewrite Hch.
  - intros ix Hch Hix. apply Hfail. intros x [Hlen _]. rewrite Hch.
    cbn [of_option]. rewrite bind_Ok. unfold set_row.
    rewrite lookup_ge_None_2; [done|lia].
Qed.

End predict_more.

(** ** Construction with an empty size *)

Section init_more.
Local Open Scope R_scope.
Import RNN.
Context {G : Type} (uniform : R → R → nat → nat → G → tensor * G).

(** X16.  The constructor returns a model exactly when both sizes are
    positive: with [vocab_size] or [hidden_size] zero it raises
    ZeroDivisionError at [1. / vocab_size] or [1. / hidden_size]. *)
Theorem init_raises_on_zero_size (nH nV L : nat) (lr : R) (g : G) :
  (nH = 0%nat ∨ nV = 0%nat →
     init uniform nH nV L lr g = Raise ZeroDivisionError)
  ∧ ((0 < nH)%nat → (0 < nV)%nat →
     ∃ m g', init uniform nH nV L lr g = Ok (m, g')
       ∧ hidden_size m = nH ∧ vocab_size m = nV ∧ seq_length m = L
       ∧ learning_rate m = lr).
Proof.
  assert (py_fdiv 1 (INR 0) = Raise ZeroDivisionError) as Hz.
  { unfold py_fdiv. cbn [INR]. by case_decide. }
  split.
  - intros Hsize. unfold init.
    destruct (decide (nV = 0%nat)) as [->|HV]; [by rewrite Hz|].
    destruct Hsize as [->|?]; [|done].
    destruct (init_bound_Ok nV ltac:(lia)) as [EV _].
    apply bind_Ok_inv in EV as (qV & EqV & EsV).
    rewrite EqV. repeat (rewrite ?EsV, bind_Ok; cbv beta).
    destruct (uniform _ _ _ _ _) as [aU g1]. by rewrite Hz.
  - intros HH HV. eexists _, _. split; [by apply init_Ok|]. done.
Qed.

End init_more.

(** ** The training loop *)

Section train_model.
Local Open Scope R_scope.
Import RNN.
Context {G : Type} (draw : list R → G → nat * G).

(** [np.log(v)] on floats: -inf at 0 and nan below *)
Definition log_f (v : R) : res R :=
  if decide (0 < v) then Ok (ln v) else Raise NonFinite.

(** The loop [while smooth_loss > threshold] of [train], with the threshold
    0.01; [fuel] bounds the number of turns, and the result is [None] when
    the loop would go on after them. *)
Fixpoint train_loop (fuel : nat) (st : train_state) : res (option train_state) :=
  if decide (0.01 < t_smooth_loss st) then
    match fuel with
    | O => Ok None
    | S fuel => st' ← train_step draw st; train_loop fuel st'
    end
  else Ok (Some st).

(** [train]: [iter_num], [smooth_loss] and the loop; [hprev] is unbound
    when the loop starts *)
Definition train (m : RNN.t) (data_reader : DataReader.t) (fuel : nat) (g : G)
  : res (option train_state) :=
  let iter_num := 0%nat in
  q ← py_fdiv 1 (INR (DataReader.vocab_size data_reader));
  l ← log_f q;
  let smooth_loss := - l * INR (seq_length m) in
  train_loop fuel
    {| t_model := m; t_reader := data_reader; t_hprev := None;
       t_smooth_loss := smooth_loss; t_iter_num := iter_num; t_rng := g;
       t_printed := [] |}.

Lemma initial_smooth_loss (nV L : nat) :
  (0 < nV)%nat →
  (q ← py_fdiv 1 (INR nV); l ← log_f q; Ok (- l * INR L))
  = Ok (ln (INR nV) * INR L).
Proof.
  intros HV. assert (0 < INR nV) as Hpos by (apply lt_0_INR; lia).
  unfold py_fdiv. case_decide; [lra|]. rewrite bind_Ok.
  unfold log_f. case_decide as Hq.
  2:{ destruct Hq. apply Rdiv_lt_0_compat; lra. }
  rewrite bind_Ok. f_equal. unfold Rdiv. rewrite Rmult_1_l, ln_Rinv by done.
  lra.
Qed.

Lemma initial_smooth_loss_large (nV L : nat) :
  (2 ≤ nV)%nat → (0 < L)%nat → 0.01 < ln (INR nV) * INR L.
Proof.
  intros HV HL.
  assert (2 <= INR nV) as H2 by (apply (le_INR 2); lia).
  assert (1 <= INR L) as H1 by (apply (le_INR 1); lia).
  assert (ln 2 <= ln (INR nV)) as Hln.
  { destruct (Req_dec_T (INR nV) 2) as [->|Hne]; [lra|].
    apply Rlt_le, ln_increasing; lra. }
  pose proof ln_lt_2. nra.
Qed.

(** The turn of the loop on a reader whose cursor leaves room for a window:
    it ends at the argument [hprev] of [forward] when the name is unbound,
    and at [ps - targets] otherwise. *)
Lemma train_step_raises (m : RNN.t) (data chars : list ascii) (p : nat)
    (hprev : option tensor) (smooth_loss : R) (iter_num : nat) (g : G)
    (printed : list (list ascii * nat * R)) :
  wf_params m → (0 < seq_length m)%nat →
  vocab_size m = length chars →
  DataReader.set_order data chars →
  (p + seq_length m + 1 ≤ length data)%nat →
  (∀ h, hprev = Some h → shape (hidden_size m) 1 h) →
  train_step draw
    {| t_model := m;
       t_reader := DataReader.set_pointer p
                     (DataReader.init data chars (seq_length m));
       t_hprev := hprev; t_smooth_loss := smooth_loss;
       t_iter_num := iter_num; t_rng := g; t_printed := printed |}
  = Raise (if decide (p = 0%nat ∨ is_Some hprev) then TypeError
           else UnboundLocalError).
Proof.
  intros Hwf Hpos HV Hset Hlen Hh.
  destruct (next_batch_spec data chars (seq_length m) p Hset Hlen)
    as (inputs & targets & Hnb & Hlin & Hltg & Hwin & _).
  assert (Forall (λ ix, ix < vocab_size m)%nat inputs) as Hin.
  { rewrite HV. apply (window_in_vocab data chars (seq_length m) p p); [done|].
    intros i Hi. by destruct (Hwin i Hi) as (_ & -> & _). }
  assert (Forall (λ ix, ix < vocab_size m)%nat targets) as Htg.
  { rewrite HV.
    apply (window_in_vocab data chars (seq_length m) p (p + 1)); [done|].
    intros i Hi. destruct (Hwin i Hi) as (_ & _ & _ & ->).
    f_equal. lia. }
  unfold train_step. cbn [t_model t_reader t_hprev].
  rewrite Hnb, bind_Ok. cbv beta iota.
  set (hp := if DataReader.just_started _ then _ else _).
  assert (hp = if decide (p = 0%nat) then Some (np_zeros (hidden_size m) 1)
               else hprev) as ->.
  { unfold hp, DataReader.just_started. cbn [DataReader.pointer DataReader.set_pointer].
    destruct (decide (p = 0%nat)) as [Hp|Hp].
    - by rewrite bool_decide_eq_true_2.
    - by rewrite bool_decide_eq_false_2. }
  destruct (decide (p = 0%nat ∨ is_Some hprev)) as [Hc|Hc].
  - assert (∃ h, (if decide (p = 0%nat)
                  then Some (np_zeros (hidden_size m) 1) else hprev) = Some h
                 ∧ shape (hidden_size m) 1 h) as (h & -> & Hs).
    { destruct (decide (p = 0%nat)) as [?|?];
        [eexists; split; [done|apply shape_zeros]|].
      destruct Hc as [?|[h Hhp]]; [done|]. exists h. split; [done|auto]. }
    cbn [of_option]. rewrite bind_Ok.
    destruct (forward_Ok m Hwf inputs h Hs Hin) as (k & Hfw & Hk).
    rewrite Hfw, bind_Ok.
    rewrite (backward_Ok m Hwf inputs h k targets Hpos Hlin Hk Hltg Htg).
    by rewrite bind_Ok, loss_raises_TypeError.
  - destruct (decide (p = 0%nat)) as [?|?]; [tauto|].
    destruct hprev as [h|]; [destruct Hc; right; eauto|]. done.
Qed.

Lemma train_enters_loop (m : RNN.t) (r : DataReader.t) (fuel : nat) (g : G) :
  (0 < DataReader.vocab_size r)%nat →
  ∃ sl, sl = ln (INR (DataReader.vocab_size r)) * INR (seq_length m)
    ∧ train m r fuel g
      = train_loop fuel
          {| t_model := m; t_reader := r; t_hprev := None;
             t_smooth_loss := sl; t_iter_num := 0; t_rng := g;
             t_printed := [] |}.
Proof.
  intros HV.
  pose proof (initial_smooth_loss _ (seq_length m) HV) as Hsl.
  apply bind_Ok_inv in Hsl as (q & Hq & Hsl).
  apply bind_Ok_inv in Hsl as (l & Hl & [= Hsl]).
  eexists. split; [reflexivity|].
  unfold train. cbv zeta. by rewrite Hq, bind_Ok, Hl, bind_Ok, Hsl.
Qed.

(** X17.  [train] before its loop.  On a reader with an empty vocabulary it
    raises ZeroDivisionError at [1.0 / data_reader.vocab_size].  With a
    vocabulary of one symbol, or with [seq_length] 0, the initial
    [smooth_loss] is 0, the loop is not entered, and [train] returns with
    the model and the reader untouched and nothing printed. *)
Theorem train_without_a_turn (m : RNN.t) (r : DataReader.t) (fuel : nat)
    (g : G) :
  (DataReader.vocab_size r = 0%nat →
     train m r fuel g = Raise ZeroDivisionError)
  ∧ (DataReader.vocab_size r = 1%nat
     ∨ (0 < DataReader.vocab_size r)%nat ∧ seq_length m = 0%nat →
     train m r fuel g
     = Ok (Some {| t_model := m; t_reader := r; t_hprev := None;
                   t_smooth_loss := 0; t_iter_num := 0; t_rng := g;
                   t_printed := [] |})).
Proof.
  split.
  - intros HV. unfold train. rewrite HV. unfold py_fdiv. cbn [INR].
    by case_decide.
  - intros Hcase.
    destruct (train_enters_loop m r fuel g) as (sl & Hsl & ->); [lia|].
    assert (sl = 0) as ->.
    { rewrite Hsl. destruct Hcase as [->|[_ ->]]; cbn [INR].
      - rewrite ln_1. lra.
      - lra. }
    destruct fuel; cbn [train_loop t_smooth_loss]; case_decide; (done || lra).
Qed.

(** X18.  [train] on a fresh reader over a corpus of at least
    [seq_length + 1] symbols and two or more distinct ones enters its loop,
    the initial [smooth_loss] being above the threshold, and raises
    TypeError in the first turn, at the call of [loss]: no call of [train]
    updates the model. *)
Theorem train_raises_in_first_turn (m : RNN.t) (data chars : list ascii)
    (g : G) :
  wf_params m → (0 < seq_length m)%nat →
  vocab_size m = length chars → (2 ≤ length chars)%nat →
  DataReader.set_order data chars →
  (seq_length m + 1 ≤ length data)%nat →
  let r := DataReader.init data chars (seq_length m) in
  train m r 0 g = Ok None
  ∧ ∀ fuel, train m r (S fuel) g = Raise TypeError.
Proof.
  intros Hwf Hpos HV H2 Hset Hlen r.
  pose proof (initial_smooth_loss_large (length chars) (seq_length m) H2 Hpos)
    as Hlarge.
  split; [|intros fuel].
  - destruct (train_enters_loop m r 0 g) as (sl & -> & ->); [cbn; lia|].
    cbn [train_loop t_smooth_loss DataReader.vocab_size r DataReader.init].
    case_decide; [done|lra].
  - destruct (train_enters_loop m r (S fuel) g) as (sl & -> & ->); [cbn; lia|].
    cbn [train_loop t_smooth_loss DataReader.vocab_size r DataReader.init].
    case_decide; [|lra].
    change r with (DataReader.set_pointer 0 r).
    rewrite (train_step_raises m data chars 0 None) by (done || lia).
    done.
Qed.

(** X19.  [train] binds [hprev] only when the reader has just started.  On
    a reader whose cursor is not at 0 the first turn raises
    UnboundLocalError: the window is read, and [hprev], the argument of
    [forward], has no value. *)
Theorem train_reader_not_at_start (m : RNN.t) (data chars : list ascii)
    (p fuel : nat) (g : G) :
  wf_params m → (0 < seq_length m)%nat →
  vocab_size m = length chars → (2 ≤ length chars)%nat →
  DataReader.set_order data chars →
  (0 < p)%nat → (p + seq_length m + 1 ≤ length data)%nat →
  train m (DataReader.set_pointer p
             (DataReader.init data chars (seq_length m))) (S fuel) g
  = Raise UnboundLocalError.
Proof.
  intros Hwf Hpos HV H2 Hset Hp Hlen.
  pose proof (initial_smooth_loss_large (length chars) (seq_length m) H2 Hpos)
    as Hlarge.
  destruct (train_enters_loop m
              (DataReader.set_pointer p
                 (DataReader.init data chars (seq_length m))) (S fuel) g)
    as (sl & -> & ->); [cbn; lia|].
  cbn [train_loop t_smooth_loss DataReader.vocab_size DataReader.set_pointer
       DataReader.init].
  case_decide; [|lra].
  rewrite (train_step_raises m data chars p None) by (done || lia).
  rewrite decide_False; [done|]. intros [?|[? [=]]]. lia.
Qed.

End train_model.

(** ** The further statements at concrete inputs *)

Section reader_instances.
Import DataReader.

Local Abbreviation ab := (["a"; "b"]%char).
Local Abbreviation aba := (["a"; "b"; "a"]%char).
Local Abbreviation ababa := (["a"; "b"; "a"; "b"; "a"]%char).

(** X2 at the corpus [aba] *)
Lemma reader_dictionaries_are_inverse_witness :
  set_order aba ab
  ∧ (∀ ch, ch ∈ aba →
       ∃ ix, char_to_ix (init aba ab 1) !! ch = Some ix
             ∧ ix < vocab_size (init aba ab 1)
             ∧ ix_to_char (init aba ab 1) !! ix = Some ch)
  ∧ (∀ ix, ix < vocab_size (init aba ab 1) →
       ∃ ch, ix_to_char (init aba ab 1) !! ix = Some ch ∧ ch ∈ aba
             ∧ char_to_ix (init aba ab 1) !! ch = Some ix)
  ∧ (∀ ch, ch ∉ aba → char_to_ix (init aba ab 1) !! ch = None)
  ∧ (∀ ix, vocab_size (init aba ab 1) ≤ ix →
       ix_to_char (init aba ab 1) !! ix = None).
Proof.
  split; [exact set_order_aba|].
  exact (reader_dictionaries_are_inverse aba ab 1 set_order_aba).
Defined.

Lemma bab_in_ab : Forall (λ ch, ch ∈ ab) ["b"; "a"; "b"]%char.
Proof.
  repeat (apply Forall_cons; split; [rewrite !elem_of_cons; tauto|]). done.
Qed.

(** X3 at the string [bab] *)
Lemma encode_decode_round_trip_witness :
  Forall (λ ch, ch ∈ ab) ["b"; "a"; "b"]%char
  ∧ ∃ ixs, encode (set_pointer 0 (init aba ab 1)) ["b"; "a"; "b"]%char = Ok ixs
      ∧ length ixs = length ["b"; "a"; "b"]%char
      ∧ Forall (λ ix, ix < vocab_size (set_pointer 0 (init aba ab 1))) ixs
      ∧ decode (set_pointer 0 (init aba ab 1)) ixs = Ok ["b"; "a"; "b"]%char.
Proof.
  split; [exact bab_in_ab|].
  exact (encode_decode_round_trip aba ab 1 0 ["b"; "a"; "b"]%char bab_in_ab).
Defined.

(** X4 at the corpus [ababa] with windows of one symbol, after 7 calls:
    a pass has 3 windows *)
Lemma reader_pass_is_periodic_witness :
  set_order ababa ab ∧ 0 < 1 ∧ 1 + 1 ≤ length ababa
  ∧ after_calls 7 (init ababa ab 1)
    = Ok (set_pointer ((7 mod windows_per_pass (length ababa) 1) * 1)
            (init ababa ab 1))
  ∧ (just_started
       (set_pointer ((7 mod windows_per_pass (length ababa) 1) * 1)
          (init ababa ab 1)) = true
     ↔ 7 mod windows_per_pass (length ababa) 1 = 0).
Proof.
  assert (0 < 1) as H1 by lia.
  assert (1 + 1 ≤ length ababa) as H2 by (cbn; lia).
  split; [exact set_order_ababa|]. split; [exact H1|]. split; [exact H2|].
  exact (reader_pass_is_periodic ababa ab 1 7 set_order_ababa H1 H2).
Defined.

(** X5 at the corpus [ababa] with windows of two symbols, after 3 calls *)
Lemma reader_never_reaches_last_symbol_witness :
  set_order ababa ab ∧ 2 + 1 < length ababa
  ∧ ∃ r, after_calls 3 (init ababa ab 2) = Ok r
      ∧ pointer r + seq_length r + 1 < length ababa.
Proof.
  assert (2 + 1 < length ababa) as H1 by (cbn; lia).
  split; [exact set_order_ababa|]. split; [exact H1|].
  exact (reader_never_reaches_last_symbol ababa ab 2 3 set_order_ababa H1).
Defined.

(** X6 at the corpus [aba] with windows of five symbols *)
Lemma next_batch_short_corpus_witness :
  set_order aba ab ∧ length aba ≤ 5
  ∧ ∃ inputs targets,
      next_batch (init aba ab 5) = Ok ((inputs, targets), init aba ab 5)
      ∧ length inputs = length aba
      ∧ length targets = length aba - 1
      ∧ (∀ i, i < length aba → inputs !! i = corpus_ix (init aba ab 5) i)
      ∧ (∀ i, i < length aba - 1 →
           targets !! i = corpus_ix (init aba ab 5) (i + 1)).
Proof.
  assert (length aba ≤ 5) as H1 by (cbn; lia).
  split; [exact set_order_aba|]. split; [exact H1|].
  exact (next_batch_short_corpus aba ab 5 set_order_aba H1).
Defined.

End reader_instances.

Section model_instances.
Local Open Scope R_scope.
Import RNN.

Local Abbreviation ab := (["a"; "b"]%char).
Local Abbreviation aba := (["a"; "b"; "a"]%char).

Lemma shape_h0 : shape (hidden_size m_seed) 1 [[0]].
Proof. split; [reflexivity|repeat constructor]. Qed.

Lemma window_01 : Forall (λ ix, ix < vocab_size m_seed)%nat [0%nat; 1%nat].
Proof. repeat constructor. Qed.

(** X7 at the model [m_seed] and the window [0, 1] *)
Lemma forward_returns_distributions_witness :
  wf_params m_seed ∧ shape (hidden_size m_seed) 1 [[0]]
  ∧ Forall (λ ix, ix < vocab_size m_seed)%nat [0%nat; 1%nat]
  ∧ ∃ k, forward m_seed [0%nat; 1%nat] [[0]] = Ok k
    ∧ hs k !! (-1)%Z = Some [[0]]
    ∧ (∀ t ix, [0%nat; 1%nat] !! t = Some ix →
         ∃ h p, xs k !! Z.of_nat t = Some (one_hot (vocab_size m_seed) ix)
           ∧ hs k !! Z.of_nat t = Some h ∧ shape (hidden_size m_seed) 1 h
           ∧ Forall (λ v, -1 <= v <= 1) (entries h)
           ∧ ycap k !! Z.of_nat t = Some p ∧ shape (vocab_size m_seed) 1 p
           ∧ Forall (λ v, 0 <= v) (entries p) ∧ np_sum p = 1)
    ∧ (∀ z, (z < 0 ∨ Z.of_nat (length [0%nat; 1%nat]) ≤ z)%Z →
         xs k !! z = None ∧ ycap k !! z = None
         ∧ (z ≠ (-1)%Z → hs k !! z = None)).
Proof.
  split; [exact m_seed_wf|]. split; [exact shape_h0|].
  split; [exact window_01|].
  exact (forward_returns_distributions m_seed m_seed_wf [0%nat; 1%nat] [[0]]
           shape_h0 window_01).
Defined.

(** X8 at the model [m_seed] and the windows [0] and [1] *)
Lemma forward_composes_witness :
  wf_params m_seed ∧ shape (hidden_size m_seed) 1 [[0]]
  ∧ Forall (λ ix, ix < vocab_size m_seed)%nat ([0%nat] ++ [1%nat])
  ∧ ∃ k k1 k2 hmid,
      forward m_seed ([0%nat] ++ [1%nat]) [[0]] = Ok k
      ∧ forward m_seed [0%nat] [[0]] = Ok k1
      ∧ hs k1 !! (Z.of_nat (length [0%nat]) - 1)%Z = Some hmid
      ∧ forward m_seed [1%nat] hmid = Ok k2
      ∧ ∀ t, (t < length [1%nat])%nat →
          xs k !! Z.of_nat (length [0%nat] + t) = xs k2 !! Z.of_nat t
          ∧ hs k !! Z.of_nat (length [0%nat] + t) = hs k2 !! Z.of_nat t
          ∧ ycap k !! Z.of_nat (length [0%nat] + t) = ycap k2 !! Z.of_nat t.
Proof.
  split; [exact m_seed_wf|]. split; [exact shape_h0|].
  split; [exact window_01|].
  exact (forward_composes m_seed m_seed_wf [0%nat] [1%nat] [[0]]
           shape_h0 window_01).
Defined.

(** X9 at the model [m_seed] and the window [0, 2, 1] *)
Lemma forward_index_out_of_range_witness :
  wf_params m_seed ∧ shape (hidden_size m_seed) 1 [[0]]
  ∧ Forall (λ ix, ix < vocab_size m_seed)%nat [0%nat]
  ∧ (vocab_size m_seed ≤ 2)%nat
  ∧ forward m_seed ([0%nat] ++ 2%nat :: [1%nat]) [[0]] = Raise IndexError.
Proof.
  assert (Forall (λ ix, ix < vocab_size m_seed)%nat [0%nat]) as H1
    by (repeat constructor).
  assert (vocab_size m_seed ≤ 2)%nat as H2 by (cbn; lia).
  split; [exact m_seed_wf|]. split; [exact shape_h0|]. split; [exact H1|].
  split; [exact H2|].
  exact (forward_index_out_of_range m_seed m_seed_wf [0%nat] [1%nat] 2 [[0]]
           shape_h0 H1 H2).
Defined.

(** X10 at the model [m_seed], the window [0] and the target [1] *)
Lemma forward_backward_update_compose_witness :
  wf_params m_seed ∧ accs_ok m_seed ∧ (0 < seq_length m_seed)%nat
  ∧ length [0%nat] = seq_length m_seed
  ∧ Forall (λ ix, ix < vocab_size m_seed)%nat [0%nat]
  ∧ shape (hidden_size m_seed) 1 [[0]]
  ∧ length [1%nat] = seq_length m_seed
  ∧ Forall (λ ix, ix < vocab_size m_seed)%nat [1%nat]
  ∧ ∃ k g m',
      forward m_seed [0%nat] [[0]] = Ok k
      ∧ backward m_seed k [1%nat] = Ok g
      ∧ grads_shape m_seed g
      ∧ update_model m_seed g = Ok m'
      ∧ hidden_size m' = hidden_size m_seed
      ∧ vocab_size m' = vocab_size m_seed
      ∧ seq_length m' = seq_length m_seed
      ∧ learning_rate m' = learning_rate m_seed
      ∧ wf_params m' ∧ accs_ok m' ∧ acc_le m_seed m'.
Proof.
  assert (0 < seq_length m_seed)%nat as H1 by (cbn; lia).
  assert (length [0%nat] = seq_length m_seed) as H2 by reflexivity.
  assert (Forall (λ ix, ix < vocab_size m_seed)%nat [0%nat]) as H3
    by (repeat constructor).
  assert (length [1%nat] = seq_length m_seed) as H5 by reflexivity.
  assert (Forall (λ ix, ix < vocab_size m_seed)%nat [1%nat]) as H6
    by (repeat constructor).
  split; [exact m_seed_wf|]. split; [exact m_seed_accs_ok|].
  split; [exact H1|]. split; [exact H2|]. split; [exact H3|].
  split; [exact shape_h0|]. split; [exact H5|]. split; [exact H6|].
  exact (forward_backward_update_compose m_seed m_seed_wf [0%nat] [1%nat] [[0]]
           m_seed_accs_ok H1 H2 H3 shape_h0 H5 H6).
Defined.

(** X11 at the model [m_seed], whose [seq_length] is 1, and the empty
    window *)
Lemma backward_window_shorter_than_seq_length_witness :
  wf_params m_seed ∧ shape (hidden_size m_seed) 1 [[0]]
  ∧ Forall (λ ix, ix < vocab_size m_seed)%nat []
  ∧ (length (@nil nat) < seq_length m_seed)%nat
  ∧ ∃ k, forward m_seed [] [[0]] = Ok k
      ∧ backward m_seed k [1%nat] = Raise KeyError.
Proof.
  assert (Forall (λ ix, ix < vocab_size m_seed)%nat []) as H1 by constructor.
  assert (length (@nil nat) < seq_length m_seed)%nat as H2 by (cbn; lia).
  split; [exact m_seed_wf|]. split; [exact shape_h0|]. split; [exact H1|].
  split; [exact H2|].
  exact (backward_window_shorter_than_seq_length m_seed m_seed_wf [] [1%nat]
           [[0]] shape_h0 H1 H2).
Defined.

(** X12 at the model [m_seed] and the gradient of ones *)
Lemma update_model_moves_against_gradient_witness :
  params_shaped m_seed ∧ accs_ok m_seed ∧ grads_shape m_seed g_ones
  ∧ ∃ m', update_model m_seed g_ones = Ok m'
      ∧ params_shaped m'
      ∧ descent_step (learning_rate m_seed) (U m_seed) (dU g_ones) (U m')
      ∧ descent_step (learning_rate m_seed) (W m_seed) (dW g_ones) (W m')
      ∧ descent_step (learning_rate m_seed) (V m_seed) (dV g_ones) (V m')
      ∧ descent_step (learning_rate m_seed) (b m_seed) (db g_ones) (b m')
      ∧ descent_step (learning_rate m_seed) (c m_seed) (dc g_ones) (c m').
Proof.
  split; [exact m_seed_params_shaped|]. split; [exact m_seed_accs_ok|].
  split; [exact g_ones_shape|].
  exact (update_model_moves_against_gradient m_seed g_ones
           m_seed_params_shaped m_seed_accs_ok g_ones_shape).
Defined.

(** X13 at the model [m_seed], the seed index 1 and three draws *)
Lemma sample_returns_n_indices_witness :
  wf_params m_seed ∧ draw_in_range draw_first ∧ logits_bounded m_seed
  ∧ shape (hidden_size m_seed) 1 [[0]]
  ∧ ((1 < vocab_size m_seed)%nat →
       ∃ ixes g', sample draw_first m_seed [[0]] 1 3 tt = Ok (ixes, g')
         ∧ length ixes = 3%nat
         ∧ Forall (λ ix, ix < vocab_size m_seed)%nat ixes)
  ∧ ((vocab_size m_seed ≤ 1)%nat →
       sample draw_first m_seed [[0]] 1 3 tt = Raise IndexError).
Proof.
  split; [exact m_seed_wf|]. split; [exact draw_first_in_range|].
  split; [exact m_seed_logits_bounded|]. split; [exact shape_h0|].
  exact (sample_returns_n_indices draw_first m_seed m_seed_wf
           draw_first_in_range m_seed_logits_bounded [[0]] 1 3 tt shape_h0).
Defined.

Lemma seed_a_in_vocab : Forall (in_vocab m_seed r_ab) ["a"]%char.
Proof.
  apply Forall_cons; split; [|done].
  apply r_ab_in_vocab; [done|]. rewrite !elem_of_cons. tauto.
Qed.

(** X15 at the model [m_seed], the reader of [ab] and the seed [acb] *)
Lemma predict_seed_outside_vocabulary_witness :
  Forall (in_vocab m_seed r_ab) ["a"]%char
  ∧ (DataReader.char_to_ix r_ab !! "c"%char = None →
       predict draw_first m_seed r_ab (["a"]%char ++ "c"%char :: ["b"]%char) 2 tt
       = Raise KeyError)
  ∧ (∀ ix, DataReader.char_to_ix r_ab !! "c"%char = Some ix →
       (vocab_size m_seed ≤ ix)%nat →
       predict draw_first m_seed r_ab (["a"]%char ++ "c"%char :: ["b"]%char) 2 tt
       = Raise IndexError).
Proof.
  split; [exact seed_a_in_vocab|].
  exact (predict_seed_outside_vocabulary draw_first m_seed r_ab ["a"]%char
           ["b"]%char "c"%char 2 tt seed_a_in_vocab).
Defined.

(** X18 at the model [m_seed] and the corpus [aba] *)
Lemma train_raises_in_first_turn_witness :
  wf_params m_seed ∧ (0 < seq_length m_seed)%nat
  ∧ vocab_size m_seed = length ab ∧ (2 ≤ length ab)%nat
  ∧ DataReader.set_order aba ab
  ∧ (seq_length m_seed + 1 ≤ length aba)%nat
  ∧ train draw_first m_seed
      (DataReader.init aba ab (seq_length m_seed)) 0 tt = Ok None
  ∧ ∀ fuel,
      train draw_first m_seed
        (DataReader.init aba ab (seq_length m_seed)) (S fuel) tt
      = Raise TypeError.
Proof.
  assert (0 < seq_length m_seed)%nat as H1 by (cbn; lia).
  assert (vocab_size m_seed = length ab) as H2 by reflexivity.
  assert (2 ≤ length ab)%nat as H3 by (cbn; lia).
  assert (seq_length m_seed + 1 ≤ length aba)%nat as H4 by (cbn; lia).
  split; [exact m_seed_wf|]. split; [exact H1|]. split; [exact H2|].
  split; [exact H3|]. split; [exact set_order_aba|]. split; [exact H4|].
  exact (train_raises_in_first_turn draw_first m_seed aba ab tt m_seed_wf
           H1 H2 H3 set_order_aba H4).
Defined.

(** X19 at the model [m_seed] and the corpus [aba], the cursor at 1 *)
Lemma train_reader_not_at_start_witness :
  wf_params m_seed ∧ (0 < seq_length m_seed)%nat
  ∧ vocab_size m_seed = length ab ∧ (2 ≤ length ab)%nat
  ∧ DataReader.set_order aba ab
  ∧ (0 < 1)%nat ∧ (1 + seq_length m_seed + 1 ≤ length aba)%nat
  ∧ train draw_first m_seed
      (DataReader.set_pointer 1 (DataReader.init aba ab (seq_length m_seed)))
      (S 0) tt
    = Raise UnboundLocalError.
Proof.
  assert (0 < seq_length m_seed)%nat as H1 by (cbn; lia).
  assert (vocab_size m_seed = length ab) as H2 by reflexivity.
  assert (2 ≤ length ab)%nat as H3 by (cbn; lia).
  assert (0 < 1)%nat as H4 by lia.
  assert (1 + seq_length m_seed + 1 ≤ length aba)%nat as H5 by (cbn; lia).
  split; [exact m_seed_wf|]. split; [exact H1|]. split; [exact H2|].
  split; [exact H3|]. split; [exact set_order_aba|]. split; [exact H4|].
  split; [exact H5|].
  exact (train_reader_not_at_start draw_first m_seed aba ab 1 0 tt m_seed_wf
           H1 H2 H3 set_order_aba H4 H5).
Defined.

End model_instances.
